(** * vllm-gptq: QuIP# quantized linear method and Qwen2-MoE block

    A shallow embedding of
      - [vllm/model_executor/layers/quantization/quip.py]
        ([QuipLinearMethod.create_weights], [QuipLinearMethod.apply_weights]),
      - [vllm/model_executor/models/qwen2_moe.py]
        ([Qwen2MoeSparseMoeBlock.__init__], [Qwen2MoeSparseMoeBlock.forward],
         [Qwen2MoeForCausalLM.load_weights], [Qwen2MoeAttention],
         [Qwen2MoeDecoderLayer.__init__], [Qwen2MoeModel]),
    followed by the properties of these functions.

    Python exceptions are values of [result]; tensors are kept with their
    shape, row by row, over an abstract type of scalars; the device
    kernels and the helpers that are not part of these two files are
    parameters of the functions that call them. *)

From stdpp Require Import base numbers list strings gmap.
From Stdlib Require Import Lia Ascii.
From Stdlib Require DecimalString DecimalNat SpecFloat.

(** ** Python exceptions raised by the modelled code *)

Inductive exn : Type :=
| ValueError_tp_exceeds_experts (tp_size n_routed_experts : nat)
    (* "Tensor parallel size ... is greater than the number of experts ..." *)
| ValueError_no_experts (rank : nat)
    (* "Rank ... has no experts assigned to it." *)
| ValueError_unsupported_activation (hidden_act : string)
    (* "Unsupported activation: ... Only silu is supported for now." *)
| ValueError_number_sections
    (* numpy: "number sections must be larger than 0." *)
| ValueError_tensor_parallel
    (* "Currently Quip doesn't support tensor parallel yet" *)
| IndexError
| KeyError (key : string)
| AttributeError (attr : string)
| TypeError (what : string)
| AssertionError (what : string)
| RuntimeError (what : string).

Inductive result (A : Type) : Type :=
| Ok (a : A)
| Raise (e : exn).
Arguments Ok {A} a.
Arguments Raise {A} e.

Definition bind {A B} (m : result A) (k : A → result B) : result B :=
  match m with
  | Ok a => k a
  | Raise e => Raise e
  end.

Declare Scope py_scope.
Delimit Scope py_scope with py.
Notation "'let*' x ':=' m 'in' k" := (bind m (fun x => k))
  (at level 10, x name, m at level 100, k at level 200) : py_scope.
Notation "'let*' ' p ':=' m 'in' k" := (bind m (fun p => k))
  (at level 10, p pattern, m at level 100, k at level 200) : py_scope.
Open Scope py_scope.

(** [l[i]] for a non-negative index. *)
Definition getitem {A} (l : list A) (i : nat) : result A :=
  match l !! i with
  | Some a => Ok a
  | None => Raise IndexError
  end.

(** ** numpy.array_split on a one-dimensional range *)

Module Partition.

(** [[0] + extras * [Neach_section + 1] + (Nsections - extras) * [Neach_section]] *)
Definition section_sizes (Ntotal Nsections : nat) : list nat :=
  let Neach_section := Ntotal / Nsections in
  let extras := Ntotal mod Nsections in
  [0] ++ replicate extras (Neach_section + 1)
      ++ replicate (Nsections - extras) Neach_section.

Fixpoint cumsum_from (acc : nat) (l : list nat) : list nat :=
  match l with
  | [] => []
  | x :: l' => (acc + x) :: cumsum_from (acc + x) l'
  end.

Definition cumsum (l : list nat) : list nat := cumsum_from 0 l.

(** [ary[st:end]] for non-negative bounds. *)
Definition slice {A} (ary : list A) (st en : nat) : list A :=
  take (en - st) (drop st ary).

(** [np.array_split(ary, Nsections)]: the sections are cut at the
    cumulative sums of [section_sizes]. *)
Definition array_split {A} (ary : list A) (Nsections : nat)
  : result (list (list A)) :=
  if Nsections =? 0 then Raise ValueError_number_sections
  else
    let div_points := cumsum (section_sizes (length ary) Nsections) in
    Ok (map (fun i => slice ary (nth i div_points 0)
                                (nth (i + 1) div_points 0))
            (seq 0 Nsections)).

(** [np.array_split(range(n_routed_experts), tp_size)[rank].tolist()] *)
Definition expert_indicies (n_routed_experts tp_size rank : nat)
  : result (list nat) :=
  let* parts := array_split (seq 0 n_routed_experts) tp_size in
  getitem parts rank.

(** The whole rank -> expert ids table. *)
Definition partition (nExperts nRanks : nat) : result (list (list nat)) :=
  array_split (seq 0 nExperts) nRanks.

End Partition.

(** ** Python string operations used by the checkpoint loader *)

Module PyStr.

(** [s.startswith(p)], with the prefix as first argument. *)
Fixpoint is_prefix (p s : string) : bool :=
  match p with
  | EmptyString => true
  | String a p' =>
      match s with
      | EmptyString => false
      | String b s' => Ascii.eqb a b && is_prefix p' s'
      end
  end.

(** [sub in s] *)
Fixpoint contains (sub s : string) : bool :=
  is_prefix sub s ||
  match s with
  | EmptyString => false
  | String _ s' => contains sub s'
  end.

(** [s.endswith(suf)] *)
Fixpoint endswith (s suf : string) : bool :=
  String.eqb s suf ||
  match s with
  | EmptyString => false
  | String _ s' => endswith s' suf
  end.

(** [s.replace("", new)]: [new] is put before every character and at the end. *)
Fixpoint replace_empty (new s : string) : string :=
  match s with
  | EmptyString => new
  | String c s' => new +:+ String c (replace_empty new s')
  end.

(** The scan of [s.replace(old, new)] for a non-empty [old]: left to right,
    non-overlapping; [skip] counts the characters of the occurrence just
    replaced that are still to be passed over. *)
Fixpoint replace_scan (old new : string) (skip : nat) (s : string) : string :=
  match s with
  | EmptyString => EmptyString
  | String c s' =>
      match skip with
      | S k => replace_scan old new k s'
      | O =>
          if is_prefix old s
          then new +:+ replace_scan old new (String.length old - 1) s'
          else String c (replace_scan old new 0 s')
      end
  end.

(** [s.replace(old, new)] *)
Definition replace (old new s : string) : string :=
  match old with
  | EmptyString => replace_empty new s
  | String _ _ => replace_scan old new 0 s
  end.

(** [str(n)] for a non-negative integer. *)
Definition str_of_nat (n : nat) : string :=
  DecimalString.NilEmpty.string_of_uint (Nat.to_uint n).

End PyStr.

(** ** Linear methods and model configuration *)

(** [linear_method.quant_config.support_fused_moe()] of a quantized method;
    [UnquantizedLinearMethod] carries no [quant_config]. *)
Inductive LinearMethod : Type :=
| UnquantizedLinearMethod
| QuantizedLinearMethod (support_fused_moe : bool).

Record PretrainedConfig : Type := {
  num_experts : nat;
  num_experts_per_tok : nat;
  hidden_size : nat;
  moe_intermediate_size : nat;
  shared_expert_intermediate_size : nat;
  hidden_act : string;
  norm_topk_prob : bool
}.

(** ** Qwen2MoeSparseMoeBlock.__init__ *)

Module MoeInit.

(** [not isinstance(self.linear_method, UnquantizedLinearMethod)
     and not self.linear_method.quant_config.support_fused_moe()] *)
Definition local_experts_mode (linear_method : LinearMethod) : bool :=
  match linear_method with
  | UnquantizedLinearMethod => false
  | QuantizedLinearMethod fused => negb fused
  end.

(** What the constructor stores for the routed experts: either the local
    indices with the [ModuleList] (an entry is [true] where an expert MLP
    was built, [false] where the entry is [None]), or the fused w1/w2. *)
Inductive Experts : Type :=
| LocalExperts (expert_indicies : list nat) (experts : list bool)
| FusedExperts.

Record SparseMoeBlock : Type := {
  rank : nat;
  tp_size : nat;
  n_routed_experts : nat;
  top_k : nat;
  linear_method : LinearMethod;
  has_shared_expert : bool;
  routed : Experts
}.

(** [Qwen2MoeMLP.__init__]: only the silu activation is accepted. The two
    linear layers built before the check (lines 66-74) are taken to be
    built: what this returns is what the constructor returns when they
    are. *)
Definition Qwen2MoeMLP_init (hidden_act : string) : result unit :=
  if String.eqb hidden_act "silu" then Ok tt
  else Raise (ValueError_unsupported_activation hidden_act).

(** The shared expert is built when [shared_expert_intermediate_size > 0]. *)
Definition shared_expert_init (config : PretrainedConfig) : result bool :=
  if 0 <? shared_expert_intermediate_size config
  then let* _ := Qwen2MoeMLP_init (hidden_act config) in Ok true
  else Ok false.

(** [Qwen2MoeSparseMoeBlock.__init__], with the ambient rank and world size
    passed in. *)
Definition init (rank tp_size : nat) (config : PretrainedConfig)
    (linear_method : option LinearMethod) : result SparseMoeBlock :=
  let n_routed_experts := num_experts config in
  if n_routed_experts <? tp_size
  then Raise (ValueError_tp_exceeds_experts tp_size n_routed_experts)
  else
    let lm := default UnquantizedLinearMethod linear_method in
    let* shared := shared_expert_init config in
    if local_experts_mode lm then
      let* expert_indicies :=
        Partition.expert_indicies n_routed_experts tp_size rank in
      match expert_indicies with
      | [] => Raise (ValueError_no_experts rank)
      | _ :: _ =>
          Ok {| rank := rank; tp_size := tp_size;
                n_routed_experts := n_routed_experts;
                top_k := num_experts_per_tok config;
                linear_method := lm;
                has_shared_expert := shared;
                routed :=
                  LocalExperts expert_indicies
                    (map (fun idx => bool_decide (idx ∈ expert_indicies))
                         (seq 0 n_routed_experts)) |}
      end
    else
      Ok {| rank := rank; tp_size := tp_size;
            n_routed_experts := n_routed_experts;
            top_k := num_experts_per_tok config;
            linear_method := lm;
            has_shared_expert := shared;
            routed := FusedExperts |}.

End MoeInit.

(** ** Qwen2MoeForCausalLM.load_weights *)

Module Loader.

Inductive shard_id : Type :=
| ShardName (s : string)
| ShardIndex (i : nat).

(** A parameter of [params_dict]; [has_weight_loader] tells whether it
    carries a [weight_loader] attribute. *)
Record Param : Type := { has_weight_loader : bool }.

Inductive loader : Type :=
| ParamWeightLoader      (* [param.weight_loader] *)
| DefaultWeightLoader.   (* [default_weight_loader] *)

(** One invocation [weight_loader(param, loaded_weight, shard_id?, expert_id=?)]. *)
Record LoaderCall (W : Type) : Type := {
  call_param : string;
  call_loader : loader;
  call_weight : W;
  call_shard : option shard_id;
  call_expert : option nat
}.
Arguments call_param {W} _.
Arguments call_loader {W} _.
Arguments call_weight {W} _.
Arguments call_shard {W} _.
Arguments call_expert {W} _.

(** (param_name, shard_name, shard_id) *)
Definition stacked_params_mapping : list (string * string * shard_id) :=
  [ ("qkv_proj", "q_proj", ShardName "q");
    ("qkv_proj", "k_proj", ShardName "k");
    ("qkv_proj", "v_proj", ShardName "v");
    ("mlp.gate_up_proj", "mlp.gate_proj", ShardIndex 0);
    ("mlp.gate_up_proj", "mlp.up_proj", ShardIndex 1);
    ("shared_expert.gate_up_proj", "shared_expert.gate_proj", ShardIndex 0);
    ("shared_expert.gate_up_proj", "shared_expert.up_proj", ShardIndex 1) ].

Definition expert_weight_names : list (string * option nat) :=
  [ ("gate_proj", Some 0); ("up_proj", Some 1); ("down_proj", None) ].

(** One entry (param_name, weight_name, shard_id, expert_id) of the
    comprehension. *)
Definition expert_entry (expert_id : nat) (w : string * option nat)
  : string * string * option nat * nat :=
  let '(weight_name, shard) := w in
  ( (if bool_decide (weight_name ∈ ["gate_proj"; "up_proj"])
     then "w1" else "w2"),
    "experts." +:+ PyStr.str_of_nat expert_id +:+ "." +:+ weight_name,
    shard, expert_id ).

Definition expert_table (num_experts : nat)
  : list (string * string * option nat * nat) :=
  flat_map (fun expert_id => map (expert_entry expert_id) expert_weight_names)
           (seq 0 num_experts).

(** [[...] if self.linear_method is None or
     self.linear_method.quant_config.support_fused_moe() else []] *)
Definition expert_params_mapping (linear_method : option LinearMethod)
    (num_experts : nat) : result (list (string * string * option nat * nat)) :=
  match linear_method with
  | None => Ok (expert_table num_experts)
  | Some UnquantizedLinearMethod => Raise (AttributeError "quant_config")
  | Some (QuantizedLinearMethod fused) =>
      Ok (if fused then expert_table num_experts else [])
  end.

(** How a [for ... else] loop over a mapping ends: by [break] after a
    loader call, by exhausting the mapping (the [else] branch runs, with
    the current value of [name]), or by an exception. *)
Inductive loop_exit (W : Type) : Type :=
| Break (c : LoaderCall W)
| Exhausted (name : string)
| LoopRaise (e : exn).
Arguments Break {W} c.
Arguments Exhausted {W} name.
Arguments LoopRaise {W} e.

(** What happens to one (name, loaded_weight) of the stream. *)
Inductive outcome (W : Type) : Type :=
| Skipped
| Loaded (c : LoaderCall W)
| Failed (e : exn).
Arguments Skipped {W}.
Arguments Loaded {W} c.
Arguments Failed {W} e.

Section Load.
Context {W : Type}.
Variable params_dict : gmap string Param.

(** [name not in params_dict] *)
Definition missing (name : string) : bool :=
  bool_decide (params_dict !! name = None).

Definition is_bias (name : string) : bool := PyStr.endswith name ".bias".

Definition names_expert (name : string) : bool :=
  PyStr.contains "mlp.experts." name || PyStr.contains "mlp.shared_expert." name.

(** The loop over [stacked_params_mapping]. *)
Fixpoint stacked_loop (mapping : list (string * string * shard_id))
    (name : string) (loaded_weight : W) : loop_exit W :=
  match mapping with
  | [] => Exhausted name
  | (param_name, weight_name, sid) :: rest =>
      if negb (PyStr.contains weight_name name)
      then stacked_loop rest name loaded_weight
      else
        let name := PyStr.replace weight_name param_name name in
        (* Skip loading extra bias for GPTQ models. *)
        if is_bias name && missing name
        then stacked_loop rest name loaded_weight
        (* Skip experts that are not assigned to this worker. *)
        else if names_expert name && missing name
        then stacked_loop rest name loaded_weight
        else
          match params_dict !! name with
          | None => LoopRaise (KeyError name)
          | Some param =>
              if has_weight_loader param
              then Break {| call_param := name;
                            call_loader := ParamWeightLoader;
                            call_weight := loaded_weight;
                            call_shard := Some sid;
                            call_expert := None |}
              else LoopRaise (AttributeError "weight_loader")
          end
  end.

(** The loop over [expert_params_mapping]. *)
Fixpoint expert_loop (mapping : list (string * string * option nat * nat))
    (name : string) (loaded_weight : W) : loop_exit W :=
  match mapping with
  | [] => Exhausted name
  | (param_name, weight_name, sid, expert_id) :: rest =>
      if negb (PyStr.contains weight_name name)
      then expert_loop rest name loaded_weight
      else
        let name := PyStr.replace weight_name param_name name in
        if is_bias name && missing name
        then expert_loop rest name loaded_weight
        else
          match params_dict !! name with
          | None => LoopRaise (KeyError name)
          | Some param =>
              if has_weight_loader param
              then Break {| call_param := name;
                            call_loader := ParamWeightLoader;
                            call_weight := loaded_weight;
                            call_shard := ShardIndex <$> sid;
                            call_expert := Some expert_id |}
              else LoopRaise (AttributeError "weight_loader")
          end
  end.

(** The innermost [else] branch: the generic whole-tensor load. *)
Definition default_load (name : string) (loaded_weight : W) : outcome W :=
  (* Skip loading extra bias for GPTQ models. *)
  if is_bias name && missing name then Skipped
  (* Skip experts that are not assigned to this worker. *)
  else if names_expert name && missing name then Skipped
  else
    match params_dict !! name with
    | None => Failed (KeyError name)
    | Some param =>
        Loaded {| call_param := name;
                  call_loader := if has_weight_loader param
                                 then ParamWeightLoader
                                 else DefaultWeightLoader;
                  call_weight := loaded_weight;
                  call_shard := None;
                  call_expert := None |}
    end.

(** The body of the loop over the checkpoint stream. *)
Definition load_entry (experts_mapping : list (string * string * option nat * nat))
    (name : string) (loaded_weight : W) : outcome W :=
  if PyStr.contains "rotary_emb.inv_freq" name then Skipped
  else
    match stacked_loop stacked_params_mapping name loaded_weight with
    | Break c => Loaded c
    | LoopRaise e => Failed e
    | Exhausted name =>
        match expert_loop experts_mapping name loaded_weight with
        | Break c => Loaded c
        | LoopRaise e => Failed e
        | Exhausted name => default_load name loaded_weight
        end
    end.

(** The loop over the stream, threading the loader calls made so far; an
    exception stops the loading. *)
Fixpoint load_stream (experts_mapping : list (string * string * option nat * nat))
    (calls : list (LoaderCall W)) (stream : list (string * W))
  : list (LoaderCall W) * option exn :=
  match stream with
  | [] => (calls, None)
  | (name, loaded_weight) :: rest =>
      match load_entry experts_mapping name loaded_weight with
      | Skipped => load_stream experts_mapping calls rest
      | Loaded c => load_stream experts_mapping (calls ++ [c]) rest
      | Failed e => (calls, Some e)
      end
  end.

(** [Qwen2MoeForCausalLM.load_weights] over the stream that
    [hf_model_weights_iterator] yields, for a configuration whose
    [num_experts] is a number. The loader calls are recorded in their
    order, not run: what a loader does with the tensor, and whether it
    raises, is not part of this function. *)
Definition load_weights (linear_method : option LinearMethod)
    (config : PretrainedConfig) (stream : list (string * W))
  : list (LoaderCall W) * option exn :=
  match expert_params_mapping linear_method (num_experts config) with
  | Raise e => ([], Some e)
  | Ok experts_mapping => load_stream experts_mapping [] stream
  end.

End Load.

End Loader.


(** ** Tensors: shapes, broadcasting and the torch operations used *)

Module Tensor.

(** A 2-D tensor of shape [[length rows, ncols]], row by row. *)
Record Mat (A : Type) : Type := mkMat { ncols : nat; rows : list (list A) }.
Arguments mkMat {A} ncols rows.
Arguments ncols {A} _.
Arguments rows {A} _.

Definition nrows {A} (m : Mat A) : nat := length (rows m).

Definition wf {A} (m : Mat A) : Prop :=
  Forall (fun r => length r = ncols m) (rows m).

(** A tensor of shape [lead ++ [ncols]], its leading dimensions flattened
    into the rows of [mat]. *)
Record ND (A : Type) : Type := mkND { lead : list nat; mat : Mat A }.
Arguments mkND {A} lead mat.
Arguments lead {A} _.
Arguments mat {A} _.

Definition numel (dims : list nat) : nat := foldr Nat.mul 1 dims.

Definition wf_nd {A} (t : ND A) : Prop :=
  wf (mat t) ∧ nrows (mat t) = numel (lead t).

(** A 1-D tensor, as broadcasting sees it against a 2-D one: shape [[1, L]]. *)
Definition vec {A} (v : list A) : Mat A := mkMat (length v) [v].

(** The broadcast of two sizes of one dimension: equal, or one of them 1. *)
Definition bcast_dim (n m : nat) : result nat :=
  if n =? m then Ok n
  else if m =? 1 then Ok n
  else if n =? 1 then Ok m
  else Raise (RuntimeError "The size of tensor a must match the size of tensor b").

(** A dimension of size 1 is repeated to size [n]. *)
Definition expand {A} (n : nat) (l : list A) : list A :=
  if length l =? n then l
  else match l with
       | [a] => replicate n a
       | _ => l
       end.

(** An elementwise binary operation on two 2-D tensors, with broadcasting. *)
Definition broadcast2 {A B C} (f : A → B → C) (a : Mat A) (b : Mat B)
  : result (Mat C) :=
  let* c := bcast_dim (ncols a) (ncols b) in
  let* n := bcast_dim (nrows a) (nrows b) in
  Ok (mkMat c (zip_with (fun ra rb => zip_with f (expand c ra) (expand c rb))
                        (expand n (rows a)) (expand n (rows b)))).

(** The in-place variant ([mul_], [add_]): the broadcast shape must be the
    shape of the tensor written to. *)
Definition inplace2 {A B} (f : A → B → A) (a : Mat A) (b : Mat B)
  : result (Mat A) :=
  let* r := broadcast2 f a b in
  if (ncols r =? ncols a) && (nrows r =? nrows a) then Ok r
  else Raise (RuntimeError "output with shape doesn't match the broadcast shape").

Definition map_mat {A B} (f : A → B) (m : Mat A) : Mat B :=
  mkMat (ncols m) (map (map f) (rows m)).

(** [m[..., :k]] *)
Definition slice_last {A} (k : nat) (m : Mat A) : Mat A :=
  mkMat (ncols m `min` k) (map (take k) (rows m)).

(** [x.reshape(-1, x.shape[-1])]: the inferred dimension is ambiguous when
    the last dimension is 0. *)
Definition reshape_rows {A} (x : ND A) : result (Mat A) :=
  if ncols (mat x) =? 0
  then Raise (RuntimeError "cannot reshape tensor of 0 elements into shape [-1, 0]")
  else Ok (mat x).

(** [out.view(dims..., out.shape[-1])]: the element counts must agree. *)
Definition view_lead {A} (dims : list nat) (out : Mat A) : result (ND A) :=
  if nrows out * ncols out =? numel dims * ncols out
  then Ok (mkND dims
             (mkMat (ncols out)
                (if nrows out =? numel dims then rows out
                 else replicate (numel dims) [])))
  else Raise (RuntimeError "shape is invalid for input size").

(** The rows of a flat row-major buffer: [n] rows of [c] elements. *)
Fixpoint chunks {A} (c n : nat) (l : list A) : list (list A) :=
  match n with
  | O => []
  | S n' => take c l :: chunks c n' (drop c l)
  end.

(** [m.view(n, c)] *)
Definition view_2d {A} (n c : nat) (m : Mat A) : result (Mat A) :=
  if nrows m * ncols m =? n * c
  then Ok (mkMat c (chunks c n (concat (rows m))))
  else Raise (RuntimeError "shape is invalid for input size").

(** [t + v] for a 1-D [v], broadcast along the last dimension. *)
Definition nd_broadcast_vec {A B} (f : A → B → A) (t : ND A) (v : list B)
  : result (ND A) :=
  let* m := broadcast2 f (mat t) (vec v) in
  Ok (mkND (lead t) m).

Section Arith.
Context {T : Type}.
Variables (zero : T) (add mul : T → T → T).

(** [torch.sum] of a row. *)
Definition sum_row (r : list T) : T := foldl add zero r.

(** [m.sum(dim=-1, keepdim=True)] *)
Definition sum_last_keepdim (m : Mat T) : Mat T :=
  mkMat 1 (map (fun r => [sum_row r]) (rows m)).

Definition dot (a b : list T) : T := sum_row (zip_with mul a b).

(** [x @ w.T] *)
Definition matmul_T (x w : Mat T) : result (Mat T) :=
  if ncols x =? ncols w
  then Ok (mkMat (nrows w)
             (map (fun xr => map (fun wr => dot xr wr) (rows w)) (rows x)))
  else Raise (RuntimeError "mat1 and mat2 shapes cannot be multiplied").

End Arith.

End Tensor.

(** ** QuipLinearMethod *)

Module Quip.
Import Tensor.

(** [self.pack] *)
Definition pack : nat := 8.

Section Quip.
Context {T Had Grid : Type}.
Variables (zero : T) (add mul : T → T → T).

(** The helpers of [quip_utils] and the device kernels of [vllm._C.ops]
    that the linear method calls. [get_hadK n] gives (had, K, padded n),
    or nothing for a size it does not support. [quip_decompress] fills a
    buffer of the given shape and is modelled as returning it. *)
Record Kernels : Type := {
  get_hadK : nat → option (option Had * nat * nat);
  matmul_hadUt_cuda : Mat T → option Had → nat → nat → result (Mat T);
  matmul_hadU_cuda : Mat T → option Had → nat → nat → result (Mat T);
  quip_gemv : Mat T → Mat Z → Grid → result (Mat T);
  quip_decompress : Mat Z → Grid → nat → nat → result (Mat T)
}.

Definition call_get_hadK (k : Kernels) (n : nat)
  : result (option Had * nat * nat) :=
  match get_hadK k n with
  | Some r => Ok r
  | None => Raise (AssertionError "get_hadK")
  end.

(** The dictionary that [create_weights] returns. The tensors are
    allocated with [torch.empty]; the model keeps their shapes. *)
Record WeightShapes : Type := {
  ws_K_left : nat;
  ws_K_right : nat;
  ws_q_in_features : nat;
  ws_q_out_features : nat;
  ws_had_left : option Had;
  ws_had_right : option Had;
  ws_Qidxs : nat * nat;
  ws_SU : nat;
  ws_SV : nat
}.

Definition create_weights (k : Kernels)
    (input_size_per_partition output_size_per_partition
     input_size output_size : nat) : result WeightShapes :=
  if negb (input_size =? input_size_per_partition)
     || negb (output_size =? output_size_per_partition)
  then Raise ValueError_tensor_parallel
  else
    let* '(had_left, K_left, q_in_features) := call_get_hadK k input_size in
    let* '(had_right, K_right, q_out_features) := call_get_hadK k output_size in
    Ok {| ws_K_left := K_left;
          ws_K_right := K_right;
          ws_q_in_features := q_in_features;
          ws_q_out_features := q_out_features;
          ws_had_left := had_left;
          ws_had_right := had_right;
          ws_Qidxs := (q_out_features, q_in_features / pack);
          ws_SU := input_size;
          ws_SV := output_size |}.

(** The loaded weights that [apply_weights] reads. *)
Record Weights : Type := {
  K_left : nat;
  K_right : nat;
  q_in_features : nat;
  q_out_features : nat;
  had_left : option Had;
  had_right : option Had;
  Qidxs : Mat Z;
  SU : list T;
  SV : list T
}.

(** The two ways of multiplying by the quantized matrix (lines 153-165). *)
Inductive strategy : Type := Gemv | DecompressMatmul.

Definition select_strategy (reshaped_x : Mat T) : strategy :=
  if nrows reshaped_x <? 32 then Gemv else DecompressMatmul.

Definition quant_matmul (k : Kernels) (grid_packed_abs : Grid)
    (weights : Weights) (reshaped_x : Mat T) : result (Mat T) :=
  let m := nrows (Qidxs weights) in
  let n := ncols (Qidxs weights) in
  match select_strategy reshaped_x with
  | Gemv => quip_gemv k reshaped_x (Qidxs weights) grid_packed_abs
  | DecompressMatmul =>
      let* W_decompressed :=
        quip_decompress k (Qidxs weights) grid_packed_abs m (n * 8) in
      matmul_T zero add mul reshaped_x W_decompressed
  end.

Definition apply_weights (k : Kernels) (grid_packed_abs : Grid)
    (weights : Weights) (x : ND T) (bias : option (list T)) : result (ND T) :=
  let* reshaped_x := reshape_rows x in
  let out_dim := length (SV weights) in
  let* reshaped_x := broadcast2 mul reshaped_x (vec (SU weights)) in
  let* reshaped_x :=
    matmul_hadUt_cuda k reshaped_x (had_left weights) (K_left weights)
                      (q_in_features weights) in
  let* out := quant_matmul k grid_packed_abs weights reshaped_x in
  let* out :=
    matmul_hadU_cuda k out (had_right weights) (K_right weights)
                     (q_out_features weights) in
  let out := slice_last out_dim out in
  let* out := broadcast2 mul out (vec (SV weights)) in
  let* out := view_lead (lead x) out in
  match bias with
  | Some b => nd_broadcast_vec add out b
  | None => Ok out
  end.

(** The same operation written in the order of the seven steps of its
    specification: flatten, scale by scaleIn, forward rotation, quantized
    matmul, backward rotation and truncation, scale by scaleOut and bias,
    reshape to the leading dimensions. *)
Definition apply_steps (k : Kernels) (grid_packed_abs : Grid)
    (weights : Weights) (x : ND T) (bias : option (list T)) : result (ND T) :=
  let* x0 := reshape_rows x in
  let* x1 := broadcast2 mul x0 (vec (SU weights)) in
  let* x2 :=
    matmul_hadUt_cuda k x1 (had_left weights) (K_left weights)
                      (q_in_features weights) in
  let* y := quant_matmul k grid_packed_abs weights x2 in
  let* y1 :=
    matmul_hadU_cuda k y (had_right weights) (K_right weights)
                     (q_out_features weights) in
  let y1 := slice_last (length (SV weights)) y1 in
  let* y2 := broadcast2 mul y1 (vec (SV weights)) in
  let* y3 :=
    match bias with
    | Some b => broadcast2 add y2 (vec b)
    | None => Ok y2
    end in
  view_lead (lead x) y3.

(** The part common to both definitions, up to the scaling by [SV]. *)
Definition scaled_output (k : Kernels) (grid_packed_abs : Grid)
    (weights : Weights) (x : ND T) : result (Mat T) :=
  let* x0 := reshape_rows x in
  let* x1 := broadcast2 mul x0 (vec (SU weights)) in
  let* x2 :=
    matmul_hadUt_cuda k x1 (had_left weights) (K_left weights)
                      (q_in_features weights) in
  let* y := quant_matmul k grid_packed_abs weights x2 in
  let* y1 :=
    matmul_hadU_cuda k y (had_right weights) (K_right weights)
                     (q_out_features weights) in
  broadcast2 mul (slice_last (length (SV weights)) y1) (vec (SV weights)).

End Quip.

End Quip.

(** ** Qwen2MoeExpertMLP, Qwen2MoeMLP and Qwen2MoeSparseMoeBlock.forward *)

Module MoeForward.
Import Tensor.

Section Forward.
Context {T : Type}.
Variables (zero one : T) (add mul : T → T → T) (silu sigmoid : T → T).

(** The forward of a linear layer, its output tensor (the second component
    of the pair it returns is dropped). *)
Definition Linear : Type := Mat T → result (Mat T).

Record ExpertMLP : Type := {
  gate_proj : Linear;
  up_proj : Linear;
  down_proj : Linear
}.

(** [Qwen2MoeExpertMLP.forward] *)
Definition ExpertMLP_forward (e : ExpertMLP) (hidden_states : Mat T)
  : result (Mat T) :=
  let* gate_out := gate_proj e hidden_states in
  let gate_out := map_mat silu gate_out in
  let* up_out := up_proj e hidden_states in
  let* current_hidden_states := broadcast2 mul gate_out up_out in
  down_proj e current_hidden_states.

Record MLP : Type := {
  gate_up_proj : Linear;
  mlp_down_proj : Linear;
  act_fn : Mat T → result (Mat T)     (* SiluAndMul *)
}.

(** [Qwen2MoeMLP.forward] *)
Definition MLP_forward (m : MLP) (x : Mat T) : result (Mat T) :=
  let* gate_up := gate_up_proj m x in
  let* x := act_fn m gate_up in
  mlp_down_proj m x.

Inductive Routed : Type :=
| LocalExperts (expert_indicies : list nat) (experts : list (option ExpertMLP))
| FusedExperts (apply_moe_weights : Mat T → Mat T → nat → bool → result (Mat T)).

Record Block : Type := {
  tp_size : nat;
  top_k : nat;
  norm_topk_prob : bool;
  linear_method : LinearMethod;
  gate : Linear;
  shared_expert : option MLP;
  shared_expert_gate : Linear;
  routed : Routed
}.

(** [fused_topk] and [tensor_model_parallel_all_reduce], from the rest of
    the engine. *)
Variable fused_topk : Mat T → nat → bool → result (Mat T * Mat nat).
Variable tensor_model_parallel_all_reduce : Mat T → result (Mat T).

(** A boolean mask in a product with floating-point weights. *)
Definition of_bool (b : bool) : T := if b then one else zero.

(** [(routing_weights * (selected_experts == expert_idx)).sum(dim=-1, keepdim=True)] *)
Definition expert_weights_of (routing_weights : Mat T)
    (selected_experts : Mat nat) (expert_idx : nat) : result (Mat T) :=
  let expert_mask := map_mat (fun s => s =? expert_idx) selected_experts in
  let* masked :=
    broadcast2 (fun w b => mul w (of_bool b)) routing_weights expert_mask in
  Ok (sum_last_keepdim zero add masked).

(** The loop [for expert_idx in self.expert_indicies] (lines 221-233);
    [final_hidden_states] starts as [None]. *)
Fixpoint local_experts_loop (experts : list (option ExpertMLP))
    (hidden_states routing_weights : Mat T) (selected_experts : Mat nat)
    (expert_indicies : list nat) (final_hidden_states : option (Mat T))
  : result (option (Mat T)) :=
  match expert_indicies with
  | [] => Ok final_hidden_states
  | expert_idx :: rest =>
      let* expert_layer := getitem experts expert_idx in
      let* expert_weights :=
        expert_weights_of routing_weights selected_experts expert_idx in
      let* layer :=
        match expert_layer with
        | Some layer => Ok layer
        | None => Raise (TypeError "'NoneType' object is not callable")
        end in
      let* out := ExpertMLP_forward layer hidden_states in
      let* current_hidden_states := inplace2 mul out expert_weights in
      let* final_hidden_states :=
        match final_hidden_states with
        | None => Ok current_hidden_states
        | Some f => inplace2 add f current_hidden_states
        end in
      local_experts_loop experts hidden_states routing_weights
        selected_experts rest (Some final_hidden_states)
  end.

(** The routed-experts part of [forward]. *)
Definition routed_output (b : Block) (hidden_states router_logits : Mat T)
  : result (option (Mat T)) :=
  if MoeInit.local_experts_mode (linear_method b) then
    let* '(routing_weights, selected_experts) :=
      fused_topk router_logits (top_k b) (norm_topk_prob b) in
    match routed b with
    | LocalExperts expert_indicies experts =>
        local_experts_loop experts hidden_states routing_weights
          selected_experts expert_indicies None
    | FusedExperts _ => Raise (AttributeError "expert_indicies")
    end
  else
    match routed b with
    | FusedExperts apply_moe_weights =>
        let* out := apply_moe_weights hidden_states router_logits (top_k b)
                      (norm_topk_prob b) in
        Ok (Some out)
    | LocalExperts _ _ => Raise (AttributeError "w1")
    end.

(** [Qwen2MoeSparseMoeBlock.forward] *)
Definition forward (b : Block) (hidden_states : Mat T) : result (Mat T) :=
  let num_tokens := nrows hidden_states in
  let hidden_dim := ncols hidden_states in
  let* hidden_states := reshape_rows (mkND [num_tokens] hidden_states) in
  let* shared_output :=
    match shared_expert b with
    | Some mlp =>
        let* shared_output := MLP_forward mlp hidden_states in
        let* g := shared_expert_gate b hidden_states in
        let* shared_output :=
          broadcast2 mul (map_mat sigmoid g) shared_output in
        Ok (Some shared_output)
    | None => Ok None
    end in
  let* router_logits := gate b hidden_states in
  let* final_hidden_states := routed_output b hidden_states router_logits in
  let* final_hidden_states :=
    match shared_output with
    | Some shared_output =>
        match final_hidden_states with
        | Some f => let* r := broadcast2 add f shared_output in Ok (Some r)
        | None => Raise (TypeError "unsupported operand type(s) for +")
        end
    | None => Ok final_hidden_states
    end in
  let* final_hidden_states :=
    if 1 <? tp_size b then
      match final_hidden_states with
      | Some f => let* r := tensor_model_parallel_all_reduce f in Ok (Some r)
      | None => Raise (TypeError "all_reduce of None")
      end
    else Ok final_hidden_states in
  match final_hidden_states with
  | Some f => view_2d num_tokens hidden_dim f
  | None => Raise (AttributeError "view")
  end.

End Forward.

End MoeForward.

(** ** Qwen2MoeAttention, Qwen2MoeDecoderLayer and Qwen2MoeModel *)

(** The constructors of the attention and of the decoder layer divide
    integers of the configuration: beside the exceptions of [exn] they
    raise [ZeroDivisionError]. *)
Module Py.

Inductive error : Type :=
| ZeroDivisionError
| Exn (e : exn).

Inductive res (A : Type) : Type :=
| Done (a : A)
| Throw (e : error).
Arguments Done {A} a.
Arguments Throw {A} e.

#[global] Instance res_ret : MRet res := λ A a, Done a.
#[global] Instance res_bind : MBind res := λ A B f m,
  match m with
  | Done a => f a
  | Throw e => Throw e
  end.

(** An exception of the code modelled with [result]. *)
Definition lift {A} (r : result A) : res A :=
  match r with
  | Ok a => Done a
  | Raise e => Throw (Exn e)
  end.

(** [a // b] and [a % b] on non-negative integers. *)
Definition floordiv (a b : nat) : res nat :=
  if b =? 0 then Throw ZeroDivisionError else Done (a / b).

Definition pymod (a b : nat) : res nat :=
  if b =? 0 then Throw ZeroDivisionError else Done (a `mod` b).

(** [assert cond], with the asserted condition as message. *)
Definition py_assert (cond : bool) (what : string) : res unit :=
  if cond then Done tt else Throw (Exn (AssertionError what)).

(** [x ** -0.5] for a non-negative integer [x]; the float that it gives
    is not kept. *)
Definition inv_sqrt (x : nat) : res unit :=
  if x =? 0 then Throw ZeroDivisionError else Done tt.

End Py.

Module Attention.
Import Py Tensor.

(** The sizes that [Qwen2MoeAttention.__init__] computes (lines 267-287),
    before it builds its layers. *)
Record Qwen2MoeAttention : Type := {
  hidden_size : nat;
  total_num_heads : nat;
  num_heads : nat;
  total_num_kv_heads : nat;
  num_kv_heads : nat;
  head_dim : nat;
  q_size : nat;
  kv_size : nat
}.

(** [Qwen2MoeAttention.__init__], with the ambient world size passed in. *)
Definition init (tp_size hidden_size num_heads num_kv_heads : nat)
  : res Qwen2MoeAttention :=
  let total_num_heads := num_heads in
  m ← pymod total_num_heads tp_size;
  _ ← py_assert (m =? 0) "self.total_num_heads % tp_size == 0";
  num_heads ← floordiv total_num_heads tp_size;
  let total_num_kv_heads := num_kv_heads in
  _ ← (if tp_size <=? total_num_kv_heads
       then
         (* Number of KV heads is greater than TP size, so we partition
            the KV heads across multiple tensor parallel GPUs. *)
         m ← pymod total_num_kv_heads tp_size;
         py_assert (m =? 0) "self.total_num_kv_heads % tp_size == 0"
       else
         (* Number of KV heads is less than TP size, so we replicate
            the KV heads across multiple tensor parallel GPUs. *)
         m ← pymod tp_size total_num_kv_heads;
         py_assert (m =? 0) "tp_size % self.total_num_kv_heads == 0");
  d ← floordiv total_num_kv_heads tp_size;
  let num_kv_heads := 1 `max` d in
  head_dim ← floordiv hidden_size total_num_heads;
  let q_size := num_heads * head_dim in
  let kv_size := num_kv_heads * head_dim in
  _ ← inv_sqrt head_dim;
  Done {| hidden_size := hidden_size;
          total_num_heads := total_num_heads;
          num_heads := num_heads;
          total_num_kv_heads := total_num_kv_heads;
          num_kv_heads := num_kv_heads;
          head_dim := head_dim;
          q_size := q_size;
          kv_size := kv_size |}.

(** [m.split([a, b, c], dim=-1)]: the sizes must add up to the last
    dimension. *)
Definition split3 {A} (a b c : nat) (m : Mat A)
  : result (Mat A * Mat A * Mat A) :=
  if a + b + c =? ncols m
  then Ok (mkMat a (map (take a) (rows m)),
           mkMat b (map (fun r => take b (drop a r)) (rows m)),
           mkMat c (map (fun r => take c (drop (a + b) r)) (rows m)))
  else Raise (RuntimeError "split_with_sizes expects split_sizes to sum exactly to the size of the dimension").

Section Forward.
Context {T Pos KV Meta : Type}.

(** The layers of the attention, from the rest of the engine. *)
Variables qkv_proj o_proj : Mat T → result (Mat T).
Variable rotary_emb : Pos → Mat T → Mat T → result (Mat T * Mat T).
Variable attn : Mat T → Mat T → Mat T → KV → Meta → result (Mat T).

(** [Qwen2MoeAttention.forward] *)
Definition forward (a : Qwen2MoeAttention) (positions : Pos)
    (hidden_states : Mat T) (kv_cache : KV) (attn_metadata : Meta)
  : result (Mat T) :=
  let* qkv := qkv_proj hidden_states in
  let* '(q, k, v) := split3 (q_size a) (kv_size a) (kv_size a) qkv in
  let* '(q, k) := rotary_emb positions q k in
  let* attn_output := attn q k v kv_cache attn_metadata in
  o_proj attn_output.

End Forward.

End Attention.

Module Decoder.
Import Py.

(** The fields of the configuration that the layers read.
    [num_experts] is [None] for a model without mixture of experts. *)
Record Config : Type := {
  hidden_size : nat;
  num_attention_heads : nat;
  num_key_value_heads : nat;
  num_experts : option nat;
  num_experts_per_tok : nat;
  decoder_sparse_step : nat;
  intermediate_size : nat;
  moe_intermediate_size : nat;
  shared_expert_intermediate_size : nat;
  hidden_act : string;
  norm_topk_prob : bool;
  num_hidden_layers : nat
}.

(** The configuration as the mixture-of-experts block reads it, for
    [num_experts] an integer. *)
Definition moe_config (config : Config) (n : nat) : PretrainedConfig :=
  Build_PretrainedConfig
    n                                          (* num_experts *)
    (num_experts_per_tok config)
    (hidden_size config)
    (moe_intermediate_size config)
    (shared_expert_intermediate_size config)
    (hidden_act config)
    (norm_topk_prob config).

(** [self.mlp] of a decoder layer. *)
Inductive Mlp : Type :=
| SparseMoeBlock (block : MoeInit.SparseMoeBlock)
| DenseMLP.

Record Qwen2MoeDecoderLayer : Type := {
  self_attn : Attention.Qwen2MoeAttention;
  mlp : Mlp
}.

(** [Qwen2MoeDecoderLayer.__init__]: the attention, then the
    mixture-of-experts block on the layers that [decoder_sparse_step]
    selects and the dense MLP on the others. *)
Definition DecoderLayer_init (rank tp_size : nat) (config : Config)
    (layer_idx : nat) (linear_method : option LinearMethod)
  : res Qwen2MoeDecoderLayer :=
  self_attn ← Attention.init tp_size (hidden_size config)
                 (num_attention_heads config) (num_key_value_heads config);
  sparse ← match num_experts config with
           | None => Done None
           | Some n =>
               m ← pymod (layer_idx + 1) (decoder_sparse_step config);
               Done (if m =? 0 then Some n else None)
           end;
  mlp ← match sparse with
        | Some n =>
            block ← lift (MoeInit.init rank tp_size (moe_config config n)
                            linear_method);
            Done (SparseMoeBlock block)
        | None =>
            _ ← lift (MoeInit.Qwen2MoeMLP_init (hidden_act config));
            Done DenseMLP
        end;
  Done {| self_attn := self_attn; mlp := mlp |}.

(** The comprehension [[Qwen2MoeDecoderLayer(config, layer_idx, ...)
     for layer_idx in range(config.num_hidden_layers)]]. *)
Fixpoint build_layers (mk : nat → res Qwen2MoeDecoderLayer)
    (idxs : list nat) : res (list Qwen2MoeDecoderLayer) :=
  match idxs with
  | [] => Done []
  | layer_idx :: rest =>
      layer ← mk layer_idx;
      layers ← build_layers mk rest;
      Done (layer :: layers)
  end.

(** [Qwen2MoeModel.__init__]: the decoder layers. *)
Definition Model_init (rank tp_size : nat) (config : Config)
    (linear_method : option LinearMethod) : res (list Qwen2MoeDecoderLayer) :=
  build_layers (fun layer_idx =>
                  DecoderLayer_init rank tp_size config layer_idx linear_method)
               (seq 0 (num_hidden_layers config)).

Section Forward.
Context {Ids Pos H KV Meta : Type}.

(** The forward of a decoder layer: (hidden_states, residual) from the
    positions, the hidden states, the cache of the layer, the attention
    metadata and the residual, [None] before the first layer. *)
Definition Layer : Type := Pos → H → KV → Meta → option H → result (H * H).

Variable embed_tokens : Ids → result H.
Variable norm : H → option H → result (H * H).

(** The loop [for i in range(len(self.layers))], from layer [i] on. *)
Fixpoint layers_loop (layers : list Layer) (i : nat) (positions : Pos)
    (hidden_states : H) (kv_caches : list KV) (attn_metadata : Meta)
    (residual : option H) : result (H * option H) :=
  match layers with
  | [] => Ok (hidden_states, residual)
  | layer :: rest =>
      let* kv_cache := getitem kv_caches i in
      let* '(hidden_states, residual) :=
        layer positions hidden_states kv_cache attn_metadata residual in
      layers_loop rest (S i) positions hidden_states kv_caches attn_metadata
                  (Some residual)
  end.

(** [Qwen2MoeModel.forward] *)
Definition Model_forward (layers : list Layer) (input_ids : Ids)
    (positions : Pos) (kv_caches : list KV) (attn_metadata : Meta)
  : result H :=
  let* hidden_states := embed_tokens input_ids in
  let* '(hidden_states, residual) :=
    layers_loop layers 0 positions hidden_states kv_caches attn_metadata None in
  let* '(hidden_states, _) := norm hidden_states residual in
  Ok hidden_states.

End Forward.

End Decoder.

(** * Definitions used in the statements

    Closed forms, observations on results, side conditions on strings,
    and the concrete data on which the properties are run. *)

(** The [i]-th cut point of the split of [n] elements in [k] sections. *)
Definition shard_start (n k i : nat) : nat := i * (n / k) + i `min` (n `mod` k).

(** The number of elements of section [i]. *)
Definition shard_size (n k i : nat) : nat :=
  n / k + (if i <? n `mod` k then 1 else 0).

(** The result is an exception that [P] recognizes. *)
Definition fails_with {A} (P : exn → bool) (r : result A) : bool :=
  match r with
  | Raise e => P e
  | Ok _ => false
  end.

(** The [ValueError] of lines 145-148. *)
Definition is_tp_exceeds_experts (e : exn) : bool :=
  match e with
  | ValueError_tp_exceeds_experts _ _ => true
  | _ => false
  end.

(** The [ValueError] of lines 178-180. *)
Definition is_no_experts (e : exn) : bool :=
  match e with
  | ValueError_no_experts _ => true
  | _ => false
  end.

(** The two configuration errors of the constructor. *)
Definition is_configuration_error (e : exn) : bool :=
  is_tp_exceeds_experts e || is_no_experts e.

Definition succeeds {A} (r : result A) : bool :=
  match r with
  | Ok _ => true
  | Raise _ => false
  end.

(** A configuration with 8 experts and a shared expert. *)
Definition config_8 : PretrainedConfig :=
  {| num_experts := 8; num_experts_per_tok := 2; hidden_size := 16;
     moe_intermediate_size := 32; shared_expert_intermediate_size := 64;
     hidden_act := "silu"; norm_topk_prob := false |}.

(** A reference instance of the kernels over [Z], on which the linear
    method is run on concrete inputs. The rotation matrices are taken to
    be the identity ([Some tt] stands for it where one is configured), so
    that the rotations only pad. *)
Module Reference.
Import Tensor.

Fixpoint pow2_ge (fuel p n : nat) : nat :=
  match fuel with
  | O => p
  | S fuel' => if n <=? p then p else pow2_ge fuel' (2 * p) n
  end.

Definition next_pow2 (n : nat) : nat := pow2_ge n 1 n.

(** Modelled from the spec: [get_hadK], of [quip_utils] (not among the
    sources). A power of two is a supported transform block: no rotation
    matrix and no padding; another size is padded to the next power of two
    (100 to 128). *)
Definition get_hadK (n : nat) : option (option unit * nat * nat) :=
  Some (if next_pow2 n =? n then None else Some tt, 1, next_pow2 n).

(** Modelled from the spec: [matmul_hadUt_cuda] and [matmul_hadU_cuda],
    of [quip_utils] (not among the sources): zero-padding of the last
    dimension to [n], then the rotation, here by the identity. *)
Definition pad_rotate (x : Mat Z) (had : option unit) (K n : nat)
  : result (Mat Z) :=
  if ncols x <=? n
  then Ok (mkMat n (map (fun r => take n (r ++ replicate n 0%Z)) (rows x)))
  else Raise (RuntimeError "input wider than the padded size").

(** Modelled from the spec: the codebook kernels of [vllm._C.ops] (not
    among the sources). A codebook maps a packed index to its [pack]
    weights; the dense matrix has them side by side. *)
Definition decode (Qidxs : Mat Z) (grid : Z → list Z) : Mat Z :=
  mkMat (ncols Qidxs * 8) (map (flat_map grid) (rows Qidxs)).

Definition kernels : Quip.Kernels (T := Z) (Had := unit) (Grid := Z → list Z) :=
  {| Quip.get_hadK := get_hadK;
     Quip.matmul_hadUt_cuda := pad_rotate;
     Quip.matmul_hadU_cuda := pad_rotate;
     Quip.quip_gemv := fun x Qidxs grid =>
       matmul_T 0%Z Z.add Z.mul x (decode Qidxs grid);
     Quip.quip_decompress := fun Qidxs grid m n => Ok (decode Qidxs grid) |}.

Definition grid (i : Z) : list Z :=
  if (i =? 0)%Z then [1; 0; 0; 0; 0; 0; 0; 0]%Z
  else if (i =? 1)%Z then [0; 1; 0; 0; 0; 0; 0; 1]%Z
  else [1; 1; 1; 1; 1; 1; 1; 1]%Z.

(** 8 input features, 3 output features padded to 4. *)
Definition weights : Quip.Weights (T := Z) (Had := unit) :=
  {| Quip.K_left := 1; Quip.K_right := 1;
     Quip.q_in_features := 8; Quip.q_out_features := 4;
     Quip.had_left := None; Quip.had_right := Some tt;
     Quip.Qidxs := mkMat 1 [[0]; [1]; [2]; [0]]%Z;
     Quip.SU := [1; 1; 1; 1; 2; 2; 2; 2]%Z;
     Quip.SV := [1; 10; 100]%Z |}.

(** An input of shape [2, 1, 8]. *)
Definition x : ND Z :=
  mkND [2; 1] (mkMat 8 [[1; 2; 3; 4; 5; 6; 7; 8]; [1; 0; 0; 0; 0; 0; 0; 1]]%Z).

Definition bias : list Z := [5; 5; 5]%Z.

End Reference.

(** Rows, entries and shapes of a 2-D tensor. *)
Definition row {A} (m : Tensor.Mat A) (t : nat) : list A :=
  default [] (Tensor.rows m !! t).

Definition entry {A} (d : A) (m : Tensor.Mat A) (t j : nat) : A :=
  default d (row m t !! j).

Definition has_shape {A} (m : Tensor.Mat A) (n c : nat) : Prop :=
  Tensor.nrows m = n ∧ Tensor.ncols m = c ∧ Tensor.wf m.

(** The weight of expert [e] for a token, as the loop computes it: the sum
    over the top-k slots of the routing weight times the mask, which is 1
    where the slot selected [e] and 0 elsewhere. *)
Definition masked_weight {T} (zero one : T) (add mul : T → T → T)
    (weights_row : list T) (selected_row : list nat) (e : nat) : T :=
  Tensor.sum_row zero add
    (zip_with (fun w s => mul w (MoeForward.of_bool zero one (s =? e)))
              weights_row selected_row).

(** The contribution of expert [e] to entry [j] of token [t]: the expert's
    output there, times the weight of the expert for the token. *)
Definition expert_term {T} (zero one : T) (add mul : T → T → T)
    (outs : nat → Tensor.Mat T) (routing_weights : Tensor.Mat T)
    (selected_experts : Tensor.Mat nat) (t j e : nat) : T :=
  mul (entry zero (outs e) t j)
      (masked_weight zero one add mul (row routing_weights t)
         (row selected_experts t) e).

(** The sum of the terms in the order of the loop: the first term, and
    each next one added to what has been summed. *)
Definition sum_in_order {T} (add : T → T → T) (d : T) (terms : list T) : T :=
  match terms with
  | [] => d
  | x :: rest => foldl add x rest
  end.

(** Expert [e] is present on this rank and its feed-forward output on the
    batch is [outs e], of the shape of the batch. *)
Definition expert_runs {T} (mul : T → T → T) (silu : T → T)
    (experts : list (option (MoeForward.ExpertMLP (T := T))))
    (hidden_states : Tensor.Mat T) (N H : nat) (outs : nat → Tensor.Mat T)
    (e : nat) : Prop :=
  ∃ layer, experts !! e = Some (Some layer)
           ∧ MoeForward.ExpertMLP_forward mul silu layer hidden_states = Ok (outs e)
           ∧ has_shape (outs e) N H.

(** A batch of two tokens routed over four experts, of which this rank
    holds experts 0 and 1: token 0 selects expert 0 in both of its slots,
    token 1 selects experts 2 and 3. *)
Module MoeExample.
Import Tensor.

Definition silu (v : Z) : Z := v.

Definition scale (c : Z) (m : Mat Z) : Mat Z := map_mat (fun v => (v * c)%Z) m.

(** An expert whose feed-forward output is its input times [c]. *)
Definition expert (c : Z) : MoeForward.ExpertMLP (T := Z) :=
  {| MoeForward.gate_proj := fun m => Ok (scale c m);
     MoeForward.up_proj := fun m => Ok (map_mat (fun _ => 1%Z) m);
     MoeForward.down_proj := fun m => Ok m |}.

Definition experts : list (option (MoeForward.ExpertMLP (T := Z))) :=
  [Some (expert 1); Some (expert 2); None; None].

Definition hidden_states : Mat Z := mkMat 2 [[1; 2]; [3; 4]]%Z.

Definition routing_weights : Mat Z := mkMat 2 [[3; 5]; [7; 11]]%Z.

Definition selected_experts : Mat nat := mkMat 2 [[0; 0]; [2; 3]].

Definition router_logits : Mat Z := mkMat 4 [[9; 8; 0; 0]; [0; 0; 9; 8]]%Z.

(** A routing decision, given as such. *)
Definition fused_topk (router_logits : Mat Z) (top_k : nat) (renormalize : bool)
  : result (Mat Z * Mat nat) :=
  Ok (routing_weights, selected_experts).

End MoeExample.

(** IEEE 754 binary16, the [torch.half] of the activations: the floats of
    [SpecFloat] with 11 bits of precision and exponents below 16, with
    the operations rounded to nearest even. *)
Module Half.

Definition prec : Z := 11.
Definition emax : Z := 16.

Definition add : SpecFloat.spec_float → SpecFloat.spec_float → SpecFloat.spec_float :=
  SpecFloat.SFadd prec emax.
Definition mul : SpecFloat.spec_float → SpecFloat.spec_float → SpecFloat.spec_float :=
  SpecFloat.SFmul prec emax.

Definition zero : SpecFloat.spec_float := SpecFloat.S754_zero false.
Definition one : SpecFloat.spec_float := SpecFloat.S754_finite false 1024 (-10).

(** Neither an infinity nor a NaN. *)
Definition finite (x : SpecFloat.spec_float) : bool :=
  match x with
  | SpecFloat.S754_zero _ | SpecFloat.S754_finite _ _ _ => true
  | _ => false
  end.

(** A zero of either sign. *)
Definition is_zero (x : SpecFloat.spec_float) : bool :=
  match x with
  | SpecFloat.S754_zero _ => true
  | _ => false
  end.

End Half.

(** The batch of [MoeExample] in half precision: token 0 is 0 and selects
    expert 0 in both of its slots, token 1 is 300 and selects experts 2
    and 3, which this rank does not hold; the routing weights are 1/2.
    SiLU is the identity on 0 and on 300, where the sigmoid rounds to 1. *)
Module HalfExample.
Import Tensor.

Definition v300 : SpecFloat.spec_float := SpecFloat.S754_finite false 1200 (-2).
Definition v1406 : SpecFloat.spec_float := SpecFloat.S754_finite false 1406 0.
Definition half : SpecFloat.spec_float := SpecFloat.S754_finite false 1024 (-11).
Definition v1_64 : SpecFloat.spec_float := SpecFloat.S754_finite false 1024 (-16).

Definition silu (v : SpecFloat.spec_float) : SpecFloat.spec_float := v.

(** An expert whose three projections are the identity: its output is
    [silu x * x], which overflows to infinity at 300. *)
Definition expert_square : MoeForward.ExpertMLP (T := SpecFloat.spec_float) :=
  {| MoeForward.gate_proj := fun m => Ok m;
     MoeForward.up_proj := fun m => Ok m;
     MoeForward.down_proj := fun m => Ok m |}.

(** The same with an up projection by 1/64: the output at 300 is 1406. *)
Definition expert_small : MoeForward.ExpertMLP (T := SpecFloat.spec_float) :=
  {| MoeForward.gate_proj := fun m => Ok m;
     MoeForward.up_proj := fun m => Ok (map_mat (fun v => Half.mul v v1_64) m);
     MoeForward.down_proj := fun m => Ok m |}.

Definition experts (e : MoeForward.ExpertMLP (T := SpecFloat.spec_float))
  : list (option (MoeForward.ExpertMLP (T := SpecFloat.spec_float))) :=
  [Some e; Some e; None; None].

Definition hidden_states : Mat SpecFloat.spec_float :=
  mkMat 2 [[Half.zero; Half.zero]; [v300; v300]].

Definition routing_weights : Mat SpecFloat.spec_float :=
  mkMat 2 [[half; half]; [half; half]].

Definition selected_experts : Mat nat := mkMat 2 [[0; 0]; [2; 3]].

Definition outs_small (e : nat) : Mat SpecFloat.spec_float :=
  mkMat 2 [[Half.zero; Half.zero]; [v1406; v1406]].

Definition router_logits : Mat SpecFloat.spec_float :=
  mkMat 4 [[Half.one; Half.one; Half.zero; Half.zero];
           [Half.zero; Half.zero; Half.one; Half.one]].

(** A routing decision, given as such. *)
Definition fused_topk (router_logits : Mat SpecFloat.spec_float) (top_k : nat)
    (renormalize : bool) : result (Mat SpecFloat.spec_float * Mat nat) :=
  Ok (routing_weights, selected_experts).

Definition block (e : MoeForward.ExpertMLP (T := SpecFloat.spec_float))
  : MoeForward.Block (T := SpecFloat.spec_float) :=
  {| MoeForward.tp_size := 2;
     MoeForward.top_k := 2;
     MoeForward.norm_topk_prob := false;
     MoeForward.linear_method := QuantizedLinearMethod false;
     MoeForward.gate := fun _ => Ok router_logits;
     MoeForward.shared_expert := None;
     MoeForward.shared_expert_gate := fun m => Ok m;
     MoeForward.routed := MoeForward.LocalExperts [0; 1] (experts e) |}.

End HalfExample.

(** Characters of a string, for the side conditions on patterns. *)
Fixpoint mem_char (c : ascii) (s : string) : bool :=
  match s with
  | EmptyString => false
  | String x s' => Ascii.eqb c x || mem_char c s'
  end.

Fixpoint last_char (s : string) : option ascii :=
  match s with
  | EmptyString => None
  | String x EmptyString => Some x
  | String _ s' => last_char s'
  end.

Definition head_char (s : string) : option ascii :=
  match s with
  | EmptyString => None
  | String x _ => Some x
  end.

Definition tail_str (s : string) : string :=
  match s with
  | EmptyString => EmptyString
  | String _ s' => s'
  end.

(** The last character of [old] does not occur in [suf]: no occurrence of
    [old] can reach into a final [suf]. *)
Definition ends_outside (old suf : string) : bool :=
  match last_char old with
  | Some c => negb (mem_char c suf)
  | None => false
  end.

(** The first character of [m] does not occur in [old] after its first
    character: no occurrence of [old] that starts before [m] reaches
    into it. *)
Definition starts_outside (old m : string) : bool :=
  match head_char m with
  | Some c => negb (mem_char c (tail_str old))
  | None => false
  end.

(** [old] and [v] agree on their common length. *)
Definition compat (old v : string) : bool :=
  PyStr.is_prefix old v || PyStr.is_prefix v old.

(** At every position of [m], an occurrence of [old] is either impossible
    or replaced by something that starts with the rest of [m]. *)
Fixpoint marker_ok (old new m : string) : bool :=
  match m with
  | EmptyString => true
  | String _ m' => (negb (compat old m) || PyStr.is_prefix m new) && marker_ok old new m'
  end.

(** The names that the loop over [stacked_params_mapping] assigns to
    [name] when it never breaks, and the last of them. *)
Fixpoint stacked_names (mapping : list (string * string * Loader.shard_id))
    (name : string) : list string :=
  match mapping with
  | [] => []
  | (param_name, weight_name, _) :: rest =>
      if PyStr.contains weight_name name
      then let name := PyStr.replace weight_name param_name name in
           name :: stacked_names rest name
      else stacked_names rest name
  end.

Fixpoint stacked_final (mapping : list (string * string * Loader.shard_id))
    (name : string) : string :=
  match mapping with
  | [] => name
  | (param_name, weight_name, _) :: rest =>
      if PyStr.contains weight_name name
      then stacked_final rest (PyStr.replace weight_name param_name name)
      else stacked_final rest name
  end.

(** The same for the loop over [expert_params_mapping]. *)
Fixpoint expert_names (mapping : list (string * string * option nat * nat))
    (name : string) : list string :=
  match mapping with
  | [] => []
  | (param_name, weight_name, _, _) :: rest =>
      if PyStr.contains weight_name name
      then let name := PyStr.replace weight_name param_name name in
           name :: expert_names rest name
      else expert_names rest name
  end.

Fixpoint expert_final (mapping : list (string * string * option nat * nat))
    (name : string) : string :=
  match mapping with
  | [] => name
  | (param_name, weight_name, _, _) :: rest =>
      if PyStr.contains weight_name name
      then expert_final rest (PyStr.replace weight_name param_name name)
      else expert_final rest name
  end.

(** Every name under which the entry [name] of the stream can be looked
    up in [params_dict]: the rewritten names of both loops, in order, and
    the name that reaches the default load. *)
Definition destinations (experts_mapping : list (string * string * option nat * nat))
    (name : string) : list string :=
  let name1 := stacked_final Loader.stacked_params_mapping name in
  stacked_names Loader.stacked_params_mapping name
  ++ expert_names experts_mapping name1
  ++ [expert_final experts_mapping name1].

(** No pattern of the table occurs in [name]. *)
Definition no_stacked_match (name : string) : bool :=
  forallb (fun e : string * string * Loader.shard_id =>
             negb (PyStr.contains e.1.2 name))
          Loader.stacked_params_mapping.

Definition no_expert_match (mapping : list (string * string * option nat * nat))
    (name : string) : bool :=
  forallb (fun e : string * string * option nat * nat =>
             negb (PyStr.contains e.1.1.2 name))
          mapping.

(** Every occurrence of [old] in [a +:+ t] that starts in [a] ends in [a]. *)
Definition stays (old a t : string) : Prop :=
  ∀ a1 a2, a = a1 +:+ a2 → a2 ≠ "" →
    PyStr.is_prefix old (a2 +:+ t) = true → String.length old ≤ String.length a2.

(** The side conditions under which rewriting by an entry of the stacked
    table keeps a final ".bias" and an occurrence of either expert marker. *)
Definition rewrite_ok (old new : string) : bool :=
  negb (String.eqb old "")
  && ends_outside old ".bias"
  && starts_outside old "mlp.experts." && marker_ok old new "mlp.experts."
  && starts_outside old "mlp.shared_expert."
  && marker_ok old new "mlp.shared_expert.".

(** A parameter dictionary of one rank of a model without fused MoE: the
    attention projections of layer 0 and expert 6 of its MoE block. *)
Definition params_rank : gmap string Loader.Param :=
  list_to_map
    [ ("model.layers.0.self_attn.qkv_proj.weight", {| Loader.has_weight_loader := true |});
      ("model.layers.0.self_attn.o_proj.weight", {| Loader.has_weight_loader := true |});
      ("model.layers.0.mlp.experts.6.gate_proj.weight", {| Loader.has_weight_loader := true |});
      ("model.norm.weight", {| Loader.has_weight_loader := false |}) ].

(** The entry fails because a destination is not in [params_dict]. *)
Definition raises_key_error {W} (o : Loader.outcome W) : bool :=
  match o with
  | Loader.Failed (KeyError _) => true
  | _ => false
  end.

(** How a loop ends on a name that stays a bias or expert name: by a
    loader call, by exhaustion with such a name, or by an exception other
    than [KeyError]. *)
Definition guarded_exit {W} (inv : string → Prop) (x : Loader.loop_exit W) : Prop :=
  match x with
  | Loader.Break _ => True
  | Loader.Exhausted name => inv name
  | Loader.LoopRaise e => ∀ key, e ≠ KeyError key
  end.


(** ** Definitions used in the statements on the rest of the code *)

(** The parts of [QuipLinearMethod.apply_weights] before and after the
    quantized matmul: lines 145-150, the flattened input scaled by [SU]
    and rotated, and lines 167-172, the backward rotation, the scaling by
    [SV], the reshape and the bias. *)
Definition rotated_input {T Had Grid} (mul : T → T → T)
    (k : Quip.Kernels (T := T) (Had := Had) (Grid := Grid))
    (weights : Quip.Weights (T := T) (Had := Had)) (x : Tensor.ND T)
  : result (Tensor.Mat T) :=
  let* reshaped_x := Tensor.reshape_rows x in
  let* reshaped_x := Tensor.broadcast2 mul reshaped_x (Tensor.vec (Quip.SU weights)) in
  Quip.matmul_hadUt_cuda k reshaped_x (Quip.had_left weights)
    (Quip.K_left weights) (Quip.q_in_features weights).

Definition rotated_output {T Had Grid} (add mul : T → T → T)
    (k : Quip.Kernels (T := T) (Had := Had) (Grid := Grid))
    (weights : Quip.Weights (T := T) (Had := Had)) (x : Tensor.ND T)
    (bias : option (list T)) (out : Tensor.Mat T) : result (Tensor.ND T) :=
  let* out :=
    Quip.matmul_hadU_cuda k out (Quip.had_right weights) (Quip.K_right weights)
      (Quip.q_out_features weights) in
  let out := Tensor.slice_last (length (Quip.SV weights)) out in
  let* out := Tensor.broadcast2 mul out (Tensor.vec (Quip.SV weights)) in
  let* out := Tensor.view_lead (Tensor.lead x) out in
  match bias with
  | Some b => Tensor.nd_broadcast_vec add out b
  | None => Ok out
  end.

(** The kernels with another gemv, and with another decompression. *)
Definition with_gemv {T Had Grid}
    (k : Quip.Kernels (T := T) (Had := Had) (Grid := Grid))
    (gemv : Tensor.Mat T → Tensor.Mat Z → Grid → result (Tensor.Mat T))
  : Quip.Kernels (T := T) (Had := Had) (Grid := Grid) :=
  {| Quip.get_hadK := Quip.get_hadK k;
     Quip.matmul_hadUt_cuda := Quip.matmul_hadUt_cuda k;
     Quip.matmul_hadU_cuda := Quip.matmul_hadU_cuda k;
     Quip.quip_gemv := gemv;
     Quip.quip_decompress := Quip.quip_decompress k |}.

Definition with_decompress {T Had Grid}
    (k : Quip.Kernels (T := T) (Had := Had) (Grid := Grid))
    (decompress : Tensor.Mat Z → Grid → nat → nat → result (Tensor.Mat T))
  : Quip.Kernels (T := T) (Had := Had) (Grid := Grid) :=
  {| Quip.get_hadK := Quip.get_hadK k;
     Quip.matmul_hadUt_cuda := Quip.matmul_hadUt_cuda k;
     Quip.matmul_hadU_cuda := Quip.matmul_hadU_cuda k;
     Quip.quip_gemv := Quip.quip_gemv k;
     Quip.quip_decompress := decompress |}.

(** A rotation returns as many rows as it is given. *)
Definition keeps_rows {T Had}
    (f : Tensor.Mat T → option Had → nat → nat → result (Tensor.Mat T)) : Prop :=
  ∀ m had K n m', f m had K n = Ok m' → Tensor.nrows m' = Tensor.nrows m.

(** A layer keeps well-formedness: given a tensor whose rows all have the
    width of the tensor, what it returns is such a tensor. *)
Definition keeps_wf {T} (f : Tensor.Mat T → result (Tensor.Mat T)) : Prop :=
  ∀ m y, Tensor.wf m → f m = Ok y → Tensor.wf y.

Definition expert_keeps_wf {T} (e : MoeForward.ExpertMLP (T := T)) : Prop :=
  keeps_wf (MoeForward.gate_proj e)
  ∧ keeps_wf (MoeForward.up_proj e)
  ∧ keeps_wf (MoeForward.down_proj e).

Definition mlp_keeps_wf {T} (m : MoeForward.MLP (T := T)) : Prop :=
  keeps_wf (MoeForward.gate_up_proj m)
  ∧ keeps_wf (MoeForward.act_fn m)
  ∧ keeps_wf (MoeForward.mlp_down_proj m).

(** All the layers of a block keep well-formedness. *)
Definition block_keeps_wf {T} (b : MoeForward.Block (T := T)) : Prop :=
  keeps_wf (MoeForward.gate b)
  ∧ keeps_wf (MoeForward.shared_expert_gate b)
  ∧ (∀ mlp, MoeForward.shared_expert b = Some mlp → mlp_keeps_wf mlp)
  ∧ match MoeForward.routed b with
    | MoeForward.LocalExperts _ experts =>
        ∀ e layer, experts !! e = Some (Some layer) → expert_keeps_wf layer
    | MoeForward.FusedExperts apply_moe_weights =>
        ∀ hidden_states router_logits top_k renormalize y,
          Tensor.wf hidden_states → Tensor.wf router_logits →
          apply_moe_weights hidden_states router_logits top_k renormalize = Ok y →
          Tensor.wf y
    end.

(** What a loader call is: the destination is a parameter of the model,
    called with its own [weight_loader] if it has one and with
    [default_weight_loader], without shard and expert, otherwise. *)
Definition sound_call {W} (params_dict : gmap string Loader.Param)
    (c : Loader.LoaderCall W) : Prop :=
  ∃ param,
    params_dict !! Loader.call_param c = Some param
    ∧ Loader.call_loader c
      = (if Loader.has_weight_loader param
         then Loader.ParamWeightLoader else Loader.DefaultWeightLoader)
    ∧ (Loader.call_loader c = Loader.DefaultWeightLoader →
       Loader.call_shard c = None ∧ Loader.call_expert c = None).

(** How a loop over a mapping may end: a call that it makes is sound and
    passes the tensor of the entry. *)
Definition sound_exit {W} (params_dict : gmap string Loader.Param) (w : W)
    (x : Loader.loop_exit W) : Prop :=
  match x with
  | Loader.Break c => sound_call params_dict c ∧ Loader.call_weight c = w
  | Loader.Exhausted _ => True
  | Loader.LoopRaise _ => True
  end.

(** The positions at which [sub] occurs in [s], counted from [i]. *)
Fixpoint occurrences_from (sub s : string) (i : nat) : list nat :=
  (if PyStr.is_prefix sub s then [i] else [])
  ++ match s with
     | EmptyString => []
     | String _ s' => occurrences_from sub s' (S i)
     end.

Definition occurrences (sub s : string) : list nat := occurrences_from sub s 0.

(** Decimal digits. *)
Definition is_digit (c : ascii) : bool := mem_char c "0123456789".

Fixpoint digits_only (s : string) : bool :=
  match s with
  | EmptyString => true
  | String c s' => is_digit c && digits_only s'
  end.

(** A parameter dictionary of a model with fused MoE: the stacked expert
    weights of the block of layer 0 and its shared expert. *)
Definition params_fused : gmap string Loader.Param :=
  list_to_map
    [ ("model.layers.0.mlp.w1.weight", {| Loader.has_weight_loader := true |});
      ("model.layers.0.mlp.w2.weight", {| Loader.has_weight_loader := true |});
      ("model.layers.0.mlp.shared_expert.gate_up_proj.weight",
       {| Loader.has_weight_loader := true |});
      ("model.layers.0.mlp.gate.weight", {| Loader.has_weight_loader := false |}) ].

(** The sizes of an attention with 2 heads and 1 KV head of dimension 2
    on one rank, and a batch of one token at the output of its QKV
    projection. *)
Definition attention_2_1 : Attention.Qwen2MoeAttention :=
  {| Attention.hidden_size := 4;
     Attention.total_num_heads := 2; Attention.num_heads := 2;
     Attention.total_num_kv_heads := 1; Attention.num_kv_heads := 1;
     Attention.head_dim := 2;
     Attention.q_size := 4; Attention.kv_size := 2 |}.

Definition qkv_2_1 : Tensor.Mat Z :=
  Tensor.mkMat 8 [[1; 2; 3; 4; 5; 6; 7; 8]]%Z.

(** The layer holds a mixture-of-experts block. *)
Definition is_sparse (layer : Decoder.Qwen2MoeDecoderLayer) : bool :=
  match Decoder.mlp layer with
  | Decoder.SparseMoeBlock _ => true
  | Decoder.DenseMLP => false
  end.

Definition count_sparse (layers : list Decoder.Qwen2MoeDecoderLayer) : nat :=
  length (List.filter is_sparse layers).

(** A configuration with 24 layers, of which every fourth is sparse. *)
Definition config_24 : Decoder.Config :=
  {| Decoder.hidden_size := 64;
     Decoder.num_attention_heads := 16;
     Decoder.num_key_value_heads := 16;
     Decoder.num_experts := Some 60;
     Decoder.num_experts_per_tok := 4;
     Decoder.decoder_sparse_step := 4;
     Decoder.intermediate_size := 128;
     Decoder.moe_intermediate_size := 32;
     Decoder.shared_expert_intermediate_size := 128;
     Decoder.hidden_act := "silu";
     Decoder.norm_topk_prob := false;
     Decoder.num_hidden_layers := 24 |}.

(** The configuration with another activation name. *)
Definition with_hidden_act (config : PretrainedConfig) (act : string)
  : PretrainedConfig :=
  {| num_experts := num_experts config;
     num_experts_per_tok := num_experts_per_tok config;
     hidden_size := hidden_size config;
     moe_intermediate_size := moe_intermediate_size config;
     shared_expert_intermediate_size := shared_expert_intermediate_size config;
     hidden_act := act;
     norm_topk_prob := norm_topk_prob config |}.

(** The block of [MoeExample] on one rank, with a shared expert that
    returns its input and a gate of 2 for every token; the sigmoid is
    taken to be the identity. *)
Module MoeShared.
Import Tensor.

Definition sigmoid (v : Z) : Z := v.

Definition shared_mlp : MoeForward.MLP (T := Z) :=
  {| MoeForward.gate_up_proj := fun m => Ok m;
     MoeForward.mlp_down_proj := fun m => Ok m;
     MoeForward.act_fn := fun m => Ok m |}.

Definition gate_values : Mat Z := mkMat 1 [[2]; [2]]%Z.

Definition block : MoeForward.Block (T := Z) :=
  {| MoeForward.tp_size := 1;
     MoeForward.top_k := 2;
     MoeForward.norm_topk_prob := false;
     MoeForward.linear_method := QuantizedLinearMethod false;
     MoeForward.gate := fun _ => Ok MoeExample.router_logits;
     MoeForward.shared_expert := Some shared_mlp;
     MoeForward.shared_expert_gate := fun _ => Ok gate_values;
     MoeForward.routed := MoeForward.LocalExperts [0; 1] MoeExample.experts |}.

End MoeShared.

(** * Properties *)

(** ** The expert partition *)

Section PartitionFacts.

Lemma cumsum_from_nth (l : list nat) : ∀ acc i,
  i < length l → nth i (Partition.cumsum_from acc l) 0 = acc + sum_list (take (S i) l).
Proof.
  induction l as [|x l IH]; intros acc i Hi; simpl in *; [lia|].
  destruct i as [|i]; simpl.
  - lia.
  - rewrite IH by lia. simpl. lia.
Qed.

Lemma section_sizes_length n k :
  n `mod` k ≤ k → length (Partition.section_sizes n k) = S k.
Proof.
  intros H. unfold Partition.section_sizes. simpl.
  rewrite length_app, !length_replicate. lia.
Qed.

Lemma div_points_nth n k i :
  0 < k → i ≤ k →
  nth i (Partition.cumsum (Partition.section_sizes n k)) 0 = shard_start n k i.
Proof.
  intros Hk Hi.
  assert (He : n `mod` k < k) by (apply Nat.mod_upper_bound; lia).
  unfold Partition.cumsum.
  rewrite cumsum_from_nth by (rewrite section_sizes_length; lia).
  unfold Partition.section_sizes, shard_start. simpl.
  rewrite take_app, !take_replicate, length_replicate.
  rewrite sum_list_with_app, !sum_list_replicate.
  destruct (decide (i ≤ n `mod` k)).
  - replace (i - n `mod` k) with 0 by lia.
    rewrite Nat.min_0_l, (Nat.min_l i) by lia. lia.
  - rewrite (Nat.min_r i), (Nat.min_l (i - _)) by lia.
    rewrite Nat.mul_sub_distr_r.
    assert (n `mod` k * (n / k) ≤ i * (n / k)) by (apply Nat.mul_le_mono_r; lia).
    lia.
Qed.

Lemma shard_start_succ n k i :
  shard_start n k (i + 1) = shard_start n k i + shard_size n k i.
Proof.
  unfold shard_start, shard_size.
  destruct (Nat.ltb_spec i (n `mod` k)); lia.
Qed.

Lemma shard_start_0 n k : shard_start n k 0 = 0.
Proof. unfold shard_start. lia. Qed.

Lemma shard_start_last n k : 0 < k → shard_start n k k = n.
Proof.
  intros Hk. unfold shard_start.
  assert (n `mod` k < k) by (apply Nat.mod_upper_bound; lia).
  pose proof (Nat.div_mod_eq n k). lia.
Qed.

Lemma shard_start_mono n k i j : i ≤ j → shard_start n k i ≤ shard_start n k j.
Proof.
  intros Hij. unfold shard_start.
  assert (i * (n / k) ≤ j * (n / k)) by (apply Nat.mul_le_mono_r; lia).
  lia.
Qed.

Lemma slice_seq n a b :
  a ≤ b → b ≤ n → Partition.slice (seq 0 n) a b = seq a (b - a).
Proof.
  intros Hab Hbn. unfold Partition.slice.
  rewrite drop_seq, take_seq. f_equal. lia.
Qed.

(** The sections of [range(n)] in closed form. *)
Lemma array_split_seq n k :
  0 < k →
  Partition.array_split (seq 0 n) k
  = Ok (map (fun i => seq (shard_start n k i) (shard_size n k i)) (seq 0 k)).
Proof.
  intros Hk. unfold Partition.array_split.
  destruct (Nat.eqb_spec k 0) as [|_]; [lia|].
  f_equal. apply map_ext_in. intros i Hi%in_seq.
  rewrite length_seq, !div_points_nth by lia.
  rewrite slice_seq.
  - f_equal. rewrite shard_start_succ. lia.
  - apply shard_start_mono. lia.
  - rewrite <- (shard_start_last n k) at 2 by lia. apply shard_start_mono. lia.
Qed.

Lemma array_split_lookup n k parts r s :
  Partition.array_split (seq 0 n) k = Ok parts →
  parts !! r = Some s →
  r < k ∧ s = seq (shard_start n k r) (shard_size n k r).
Proof.
  intros Hsplit Hr.
  destruct (decide (k = 0)) as [->|Hk]; [discriminate|].
  rewrite array_split_seq in Hsplit by lia. injection Hsplit as <-.
  rewrite list_lookup_fmap in Hr.
  destruct (seq 0 k !! r) as [i|] eqn:Hi; [|discriminate].
  apply lookup_seq in Hi as [-> ?]. simpl in Hr. injection Hr as <-. done.
Qed.

Lemma shard_size_pos n k i : 0 < k → k ≤ n → 0 < shard_size n k i.
Proof.
  intros Hk Hkn. unfold shard_size.
  assert (1 ≤ n / k) by (apply Nat.div_le_lower_bound; lia). lia.
Qed.

(** Every id below [n] lies in the interval of exactly one section. *)
Lemma shard_interval_exists n k e :
  0 < k → e < n →
  ∃ r, r < k ∧ shard_start n k r ≤ e < shard_start n k (r + 1).
Proof.
  intros Hk He.
  assert (∀ j, j ≤ k → e < shard_start n k j →
               ∃ r, r < j ∧ shard_start n k r ≤ e < shard_start n k (r + 1)) as H.
  { induction j as [|j IH]; intros Hj Hlt.
    - rewrite shard_start_0 in Hlt. lia.
    - destruct (decide (e < shard_start n k j)) as [Hlt'|Hge].
      + destruct (IH ltac:(lia) Hlt') as (r & ? & ?). exists r. split; [lia|done].
      + exists j. replace (j + 1) with (S j) by lia. split; [lia|]. lia. }
  apply (H k); [lia|]. rewrite shard_start_last by lia. done.
Qed.

Lemma shard_interval_unique n k e r r' :
  shard_start n k r ≤ e < shard_start n k (r + 1) →
  shard_start n k r' ≤ e < shard_start n k (r' + 1) →
  r = r'.
Proof.
  intros [H1 H2] [H3 H4].
  destruct (Nat.lt_trichotomy r r') as [Hlt|[->|Hlt]]; [|done|].
  - pose proof (shard_start_mono n k (r + 1) r' ltac:(lia)). lia.
  - pose proof (shard_start_mono n k (r' + 1) r ltac:(lia)). lia.
Qed.

End PartitionFacts.

Lemma ceil_div_extra n k r :
  0 < k → r < n `mod` k → (n + k - 1) / k = n / k + 1.
Proof.
  intros Hk Hr.
  assert (He : n `mod` k < k) by (apply Nat.mod_upper_bound; lia).
  symmetry. apply (Nat.div_unique _ _ _ (n `mod` k - 1)); [lia|].
  pose proof (Nat.div_mod_eq n k). lia.
Qed.

(** C6. For [nExperts >= nRanks >= 1] the partition succeeds with one
    shard per rank; every expert id below [nExperts] is in the shard of
    exactly one rank; every shard is non-empty, without repetition, and
    holds only ids below [nExperts]; the shards of the first
    [nExperts mod nRanks] ranks have [ceil(nExperts / nRanks)] ids and the
    others [floor(nExperts / nRanks)]; the shards in rank order make up
    [0 .. nExperts - 1]. *)
Theorem partition_balanced_cover (nExperts nRanks : nat) :
  1 ≤ nRanks → nRanks ≤ nExperts →
  ∃ shards,
    Partition.partition nExperts nRanks = Ok shards ∧
    length shards = nRanks ∧
    concat shards = seq 0 nExperts ∧
    (∀ e, e < nExperts →
       ∃ r, (∃ s, shards !! r = Some s ∧ e ∈ s) ∧
            ∀ r' s', shards !! r' = Some s' → e ∈ s' → r' = r) ∧
    (∀ r s, shards !! r = Some s →
       s ≠ [] ∧ NoDup s ∧ (∀ e, e ∈ s → e < nExperts) ∧
       length s = if r <? nExperts `mod` nRanks
                  then (nExperts + nRanks - 1) / nRanks
                  else nExperts / nRanks).
Proof.
  intros Hk Hkn. unfold Partition.partition.
  assert (Hsplit := array_split_seq nExperts nRanks ltac:(lia)).
  eexists. split; [exact Hsplit|].
  set (shards := map _ _) in *.
  assert (Hlook : ∀ r s, shards !! r = Some s →
            r < nRanks ∧ s = seq (shard_start nExperts nRanks r)
                                 (shard_size nExperts nRanks r)).
  { intros r s. apply array_split_lookup. exact Hsplit. }
  assert (Hget : ∀ r, r < nRanks →
            shards !! r = Some (seq (shard_start nExperts nRanks r)
                                    (shard_size nExperts nRanks r))).
  { intros r Hr. unfold shards. rewrite list_lookup_fmap.
    rewrite lookup_seq_lt by lia. done. }
  split; [unfold shards; rewrite length_map, length_seq; done|].
  split.
  { (* the sections, in order, are the range itself *)
    unfold shards.
    assert (∀ j, j ≤ nRanks →
              concat (map (fun i => seq (shard_start nExperts nRanks i)
                                        (shard_size nExperts nRanks i)) (seq 0 j))
              = seq 0 (shard_start nExperts nRanks j)) as Hpre.
    { induction j as [|j IH]; intros Hj.
      - rewrite shard_start_0. done.
      - rewrite seq_S, map_app, concat_app, IH by lia. simpl.
        rewrite app_nil_r.
        replace (S j) with (j + 1) by lia. rewrite shard_start_succ.
        rewrite seq_app. done. }
    rewrite Hpre by lia. rewrite shard_start_last by lia. done. }
  split.
  - intros e He.
    destruct (shard_interval_exists nExperts nRanks e ltac:(lia) He) as (r & Hr & Hint).
    exists r. split.
    + eexists. split; [apply Hget; done|].
      apply elem_of_seq. rewrite shard_start_succ in Hint. lia.
    + intros r' s' Hs' Hin.
      apply Hlook in Hs' as [Hr' ->]. apply elem_of_seq in Hin.
      apply (shard_interval_unique nExperts nRanks e); [|done].
      rewrite shard_start_succ. lia.
  - intros r s Hs. apply Hlook in Hs as [Hr ->].
    pose proof (shard_size_pos nExperts nRanks r ltac:(lia) Hkn) as Hpos.
    split; [|split; [|split]].
    + intros Hnil. apply (f_equal length) in Hnil.
      rewrite length_seq in Hnil. simpl in Hnil. lia.
    + apply NoDup_seq.
    + intros e He%elem_of_seq.
      pose proof (shard_start_mono nExperts nRanks (r + 1) nRanks ltac:(lia)) as Hm.
      rewrite shard_start_succ, shard_start_last in Hm by lia. lia.
    + rewrite length_seq. unfold shard_size.
      destruct (Nat.ltb_spec r (nExperts `mod` nRanks)) as [Hlt|Hge]; [|lia].
      rewrite (ceil_div_extra _ _ r) by lia. done.
Qed.

(** The split of 8 experts over 3 ranks has shard sizes 3/3/2. *)
Lemma partition_balanced_cover_witness :
  (1 ≤ 3 ∧ 3 ≤ 8) ∧
  Partition.partition 8 3 = Ok [[0; 1; 2]; [3; 4; 5]; [6; 7]] ∧
  ∃ shards,
    Partition.partition 8 3 = Ok shards ∧
    length shards = 3 ∧
    concat shards = seq 0 8 ∧
    (∀ e, e < 8 →
       ∃ r, (∃ s, shards !! r = Some s ∧ e ∈ s) ∧
            ∀ r' s', shards !! r' = Some s' → e ∈ s' → r' = r) ∧
    (∀ r s, shards !! r = Some s →
       s ≠ [] ∧ NoDup s ∧ (∀ e, e ∈ s → e < 8) ∧
       length s = if r <? 8 `mod` 3 then (8 + 3 - 1) / 3 else 8 / 3).
Proof.
  split; [lia|]. split; [reflexivity|].
  apply (partition_balanced_cover 8 3); lia.
Defined.

(** ** The errors of the MoE block constructor *)

Lemma expert_indicies_nonempty n tp rank s :
  tp ≤ n → Partition.expert_indicies n tp rank = Ok s → s ≠ [].
Proof.
  intros Hle H. unfold Partition.expert_indicies in H.
  destruct (Partition.array_split (seq 0 n) tp) as [parts|] eqn:Hsplit;
    simpl in H; [|discriminate].
  unfold getitem in H.
  destruct (parts !! rank) as [s'|] eqn:Hr; [|discriminate].
  injection H as ->.
  destruct (decide (tp = 0)) as [->|Hk]; [discriminate|].
  apply (array_split_lookup _ _ _ _ _ Hsplit) in Hr as [_ ->].
  pose proof (shard_size_pos n tp rank ltac:(lia) Hle).
  intros Hnil. apply (f_equal length) in Hnil. rewrite length_seq in Hnil.
  simpl in Hnil. lia.
Qed.



Lemma shared_expert_init_error (config : PretrainedConfig) (e : exn) :
  MoeInit.shared_expert_init config = Raise e →
  e = ValueError_unsupported_activation (hidden_act config).
Proof.
  unfold MoeInit.shared_expert_init, MoeInit.Qwen2MoeMLP_init, bind.
  repeat case_match; intros; simplify_eq/=; done.
Qed.

Lemma expert_indicies_error (n tp rank : nat) (e : exn) :
  Partition.expert_indicies n tp rank = Raise e →
  e = ValueError_number_sections ∨ e = IndexError.
Proof.
  unfold Partition.expert_indicies, Partition.array_split, getitem, bind.
  repeat case_match; intros; simplify_eq/=; auto.
Qed.

(** C7. The constructor fails with one of its two configuration errors
    exactly when the rank count exceeds the expert count, or when it gets
    to compute the local shard (the earlier steps passed and the experts
    are kept per rank) and that shard is empty; the rank-count error is
    raised exactly when [tp_size > num_experts]; with
    [tp_size <= num_experts] and a non-empty local shard neither error is
    raised. Any other exception of the constructor is the unsupported
    activation of the shared expert, or comes from the split itself (no
    section, or a rank beyond the sections). *)
Theorem init_configuration_error_iff (rank tp_size : nat)
    (config : PretrainedConfig) (lm : option LinearMethod) :
  (fails_with is_configuration_error (MoeInit.init rank tp_size config lm) = true
   ↔ num_experts config < tp_size
     ∨ (tp_size ≤ num_experts config
        ∧ succeeds (MoeInit.shared_expert_init config) = true
        ∧ MoeInit.local_experts_mode (default UnquantizedLinearMethod lm) = true
        ∧ Partition.expert_indicies (num_experts config) tp_size rank = Ok []))
  ∧ (fails_with is_tp_exceeds_experts (MoeInit.init rank tp_size config lm) = true
     ↔ num_experts config < tp_size)
  ∧ (tp_size ≤ num_experts config →
     (∀ s, Partition.expert_indicies (num_experts config) tp_size rank = Ok s →
           s ≠ []) →
     fails_with is_configuration_error (MoeInit.init rank tp_size config lm) = false)
  ∧ (∀ e, MoeInit.init rank tp_size config lm = Raise e →
          is_configuration_error e = true
          ∨ e = ValueError_unsupported_activation (hidden_act config)
          ∨ e = ValueError_number_sections ∨ e = IndexError).
Proof.
  unfold MoeInit.init.
  destruct (Nat.ltb_spec (num_experts config) tp_size) as [Hlt|Hge].
  { (* the rank-count check fails *)
    simpl. repeat split; intros; simplify_eq/=; auto; lia. }
  destruct (MoeInit.shared_expert_init config) as [shared|e] eqn:Hshared; simpl.
  2:{ (* the shared expert is refused *)
      apply shared_expert_init_error in Hshared as ->. simpl.
      repeat split; intros; simplify_eq/=; auto; try lia;
        intuition (done || lia). }
  destruct (MoeInit.local_experts_mode _) eqn:Hmode; simpl.
  2:{ (* fused experts: no shard is computed *)
      repeat split; intros; simplify_eq/=; auto; try lia;
        intuition (done || lia). }
  destruct (Partition.expert_indicies _ _ _) as [[|i s]|e] eqn:Hs; simpl.
  - (* an empty shard *)
    repeat split; intros; simplify_eq/=; auto; try lia;
      by match goal with H : ∀ s, _ → s ≠ [] |- _ => destruct (H [] eq_refl) end.
  - (* a non-empty shard *)
    repeat split; intros; simplify_eq/=; auto; try lia;
      intuition (done || lia).
  - (* the split raises *)
    apply expert_indicies_error in Hs as [->| ->]; simpl;
      repeat split; intros; simplify_eq/=; auto; try lia;
      intuition (done || lia).
Qed.

Lemma init_configuration_error_iff_witness :
  fails_with is_configuration_error
    (MoeInit.init 0 9 config_8 (Some (QuantizedLinearMethod false))) = true ∧
  fails_with is_configuration_error
    (MoeInit.init 2 3 config_8 (Some (QuantizedLinearMethod false))) = false.
Proof.
  split.
  - apply (init_configuration_error_iff 0 9 config_8). left. simpl. lia.
  - apply (init_configuration_error_iff 2 3 config_8); [simpl; lia|].
    intros s Hs. vm_compute in Hs. injection Hs as <-. done.
Defined.

(** ** Broadcasting against a vector *)

Lemma zip_with_replicate_map {A B C} (g : A → B → C) (l : list A) (b : B) :
  zip_with g l (replicate (length l) b) = map (fun a => g a b) l.
Proof. induction l as [|a l IH]; simpl; [done|]. by rewrite IH. Qed.

Section TensorFacts.
Import Tensor.
Context {A B : Type}.

Lemma bcast_dim_same n : bcast_dim n n = Ok n.
Proof. unfold bcast_dim. by rewrite Nat.eqb_refl. Qed.

Lemma bcast_dim_one n : bcast_dim n 1 = Ok n.
Proof.
  unfold bcast_dim. destruct (Nat.eqb_spec n 1) as [->|]; [done|].
  by rewrite Nat.eqb_refl.
Qed.

Lemma expand_same {C} n (l : list C) : length l = n → expand n l = l.
Proof. intros <-. unfold expand. by rewrite Nat.eqb_refl. Qed.

Lemma expand_singleton {C} n (a : C) : expand n [a] = replicate n a.
Proof.
  unfold expand. destruct n as [|[|n]]; done.
Qed.

(** A well-formed matrix times a vector of its width: row by row. *)
Lemma broadcast2_vec (f : A → B → A) (a : Mat A) (v : list B) :
  wf a → ncols a = length v →
  broadcast2 f a (vec v)
  = Ok (mkMat (ncols a) (map (fun r => zip_with f r v) (rows a))).
Proof.
  intros Hwf Hc. unfold broadcast2, vec. simpl.
  rewrite <- Hc, bcast_dim_same. simpl.
  unfold nrows at 1 2. simpl. rewrite bcast_dim_one. simpl.
  rewrite (expand_same _ (rows a)) by done.
  rewrite expand_singleton, zip_with_replicate_map.
  do 2 f_equal. apply map_ext_in. intros r Hr.
  rewrite (expand_same _ r), (expand_same _ v); [done..|].
  unfold wf in Hwf. rewrite Forall_forall in Hwf. apply Hwf.
  by apply list_elem_of_In.
Qed.

Lemma wf_zip_rows (f : A → B → A) (a : Mat A) (v : list B) :
  wf a → ncols a = length v →
  wf (mkMat (ncols a) (map (fun r => zip_with f r v) (rows a))).
Proof.
  intros Hwf Hc. unfold wf in *. simpl. rewrite Forall_map.
  eapply Forall_impl; [exact Hwf|]. intros r Hr. simpl in *.
  rewrite length_zip_with. lia.
Qed.

Lemma wf_slice_last k (a : Mat A) : wf a → wf (slice_last k a).
Proof.
  intros Hwf. unfold wf, slice_last in *. simpl. rewrite Forall_map.
  eapply Forall_impl; [exact Hwf|]. intros r Hr. simpl in *.
  rewrite length_take. lia.
Qed.

(** Against a vector, the rows of the result are those of the matrix. *)
Lemma broadcast2_vec_nrows {C} (f : A → B → C) (a : Mat A) (v : list B)
    (r : Mat C) :
  broadcast2 f a (vec v) = Ok r → nrows r = nrows a.
Proof.
  unfold broadcast2, vec. simpl.
  destruct (bcast_dim (ncols a) (length v)) as [c|]; [|discriminate]. simpl.
  unfold nrows at 1 2. simpl. rewrite bcast_dim_one. simpl.
  intros [= <-]. unfold nrows. simpl.
  rewrite (expand_same _ (rows a)) by done.
  rewrite expand_singleton, length_zip_with, length_replicate. lia.
Qed.

End TensorFacts.

(** ** QuipLinearMethod.create_weights *)

Section QuipFacts.
Import Tensor Quip.
Context {T Had Grid : Type}.
Variables (zero : T) (add mul : T → T → T).
Variable k : Kernels (T := T) (Had := Had) (Grid := Grid).

(** The quantized matmul on the rotated input, with the row count of the
    input in the place of that of the rotated input. *)
Lemma quant_matmul_by_rows (g : Grid) (weights : Weights (T := T) (Had := Had))
    (k' : Kernels (T := T) (Had := Had) (Grid := Grid)) (x2 : Mat T) (N : nat) :
  nrows x2 = N →
  quant_matmul zero add mul k' g weights x2
  = if N <? 32
    then quip_gemv k' x2 (Qidxs weights) g
    else let* W_decompressed :=
           quip_decompress k' (Qidxs weights) g
             (nrows (Qidxs weights)) (ncols (Qidxs weights) * 8) in
         matmul_T zero add mul x2 W_decompressed.
Proof.
  intros <-. unfold quant_matmul, select_strategy.
  by destruct (nrows x2 <? 32).
Qed.

Lemma rotated_input_rows (weights : Weights (T := T) (Had := Had))
    (x : ND T) (x2 : Mat T) :
  wf_nd x → keeps_rows (matmul_hadUt_cuda k) →
  rotated_input mul k weights x = Ok x2 →
  nrows x2 = numel (lead x).
Proof.
  intros [_ Hrows] Hkeep. unfold rotated_input, reshape_rows.
  destruct (ncols (mat x) =? 0); [discriminate|]. simpl.
  destruct (broadcast2 mul (mat x) (vec (SU weights))) as [x1|] eqn:Hx1;
    [|discriminate].
  simpl. intros Hx2. rewrite (Hkeep _ _ _ _ _ Hx2).
  rewrite (broadcast2_vec_nrows _ _ _ _ Hx1). exact Hrows.
Qed.

(** X1. [apply_weights] chooses between its two strategies by the number
    of rows of the flattened input, the product of the leading dimensions
    of [x], given that the forward rotation returns as many rows as it is
    given: the result is the rotated input passed to [quip_gemv] when
    there are fewer than 32 rows, and multiplied by the transpose of the
    decompressed matrix when there are 32 or more, followed by the rest
    of the operation. So with fewer than 32 rows the result does not
    depend on the decompression kernel, and from 32 rows on it does not
    depend on the gemv kernel. *)
Theorem apply_weights_strategy_by_rows (grid_packed_abs : Grid)
    (weights : Weights (T := T) (Had := Had)) (x : ND T)
    (bias : option (list T)) :
  wf_nd x →
  keeps_rows (matmul_hadUt_cuda k) →
  apply_weights zero add mul k grid_packed_abs weights x bias
  = (let* reshaped_x := rotated_input mul k weights x in
     let* out :=
       if numel (lead x) <? 32
       then quip_gemv k reshaped_x (Qidxs weights) grid_packed_abs
       else let* W_decompressed :=
              quip_decompress k (Qidxs weights) grid_packed_abs
                (nrows (Qidxs weights)) (ncols (Qidxs weights) * 8) in
            matmul_T zero add mul reshaped_x W_decompressed in
     rotated_output add mul k weights x bias out)
  ∧ (numel (lead x) < 32 →
     ∀ decompress,
       apply_weights zero add mul (with_decompress k decompress)
         grid_packed_abs weights x bias
       = apply_weights zero add mul k grid_packed_abs weights x bias)
  ∧ (32 ≤ numel (lead x) →
     ∀ gemv,
       apply_weights zero add mul (with_gemv k gemv)
         grid_packed_abs weights x bias
       = apply_weights zero add mul k grid_packed_abs weights x bias).
Proof.
  intros Hwf Hkeep.
  assert (Hstep : ∀ k' : Kernels (T := T) (Had := Had) (Grid := Grid),
            matmul_hadUt_cuda k' = matmul_hadUt_cuda k →
            apply_weights zero add mul k' grid_packed_abs weights x bias
            = (let* reshaped_x := rotated_input mul k weights x in
               let* out :=
                 if numel (lead x) <? 32
                 then quip_gemv k' reshaped_x (Qidxs weights) grid_packed_abs
                 else let* W_decompressed :=
                        quip_decompress k' (Qidxs weights) grid_packed_abs
                          (nrows (Qidxs weights)) (ncols (Qidxs weights) * 8) in
                      matmul_T zero add mul reshaped_x W_decompressed in
               rotated_output add mul k' weights x bias out)).
  { intros k' Hk'.
    pose proof (rotated_input_rows weights x) as Hrows.
    unfold apply_weights, rotated_input, rotated_output in *. rewrite Hk'.
    destruct (reshape_rows x) as [x0|]; [|done]. simpl in *.
    destruct (broadcast2 mul x0 (vec (SU weights))) as [x1|]; [|done].
    simpl in *.
    destruct (matmul_hadUt_cuda k x1 _ _ _) as [x2|]; [|done]. simpl.
    by rewrite (quant_matmul_by_rows _ _ _ x2 (numel (lead x)))
      by (by apply Hrows). }
  split; [by apply Hstep|]. split.
  - intros Hlt decompress. rewrite !Hstep by done.
    apply Nat.ltb_lt in Hlt. by rewrite Hlt.
  - intros Hge gemv. rewrite !Hstep by done.
    apply Nat.ltb_ge in Hge. by rewrite Hge.
Qed.

(** C9. [create_weights] raises the tensor-parallel configuration error
    exactly when a per-partition size differs from the full size; with
    both per-partition sizes equal to the full sizes it does not. *)
Theorem create_weights_sharding_error_iff
    (input_size_per_partition output_size_per_partition
     input_size output_size : nat) :
  create_weights k input_size_per_partition output_size_per_partition
                 input_size output_size
  = Raise ValueError_tensor_parallel
  ↔ (input_size ≠ input_size_per_partition
     ∨ output_size ≠ output_size_per_partition).
Proof.
  unfold create_weights.
  destruct (Nat.eqb_spec input_size input_size_per_partition) as [Hi|Hi];
    destruct (Nat.eqb_spec output_size output_size_per_partition) as [Ho|Ho];
    simpl; try (split; [intros _; tauto | done]).
  split; [|intros [?|?]; done].
  unfold call_get_hadK, bind.
  repeat case_match; simplify_eq/=; done.
Qed.

(** C5, as the code has it. [create_weights] checks no geometry: for
    unsharded sizes that [get_hadK] supports it returns normally, with
    packed indices of [q_out_features] rows and
    [q_in_features // pack] columns, so the geometry agrees with the
    padded sizes exactly when [pack] divides [q_in_features]. *)
Theorem create_weights_geometry (input_size output_size : nat)
    (hl hr : option Had) (Kl Kr q_in q_out : nat) :
  get_hadK k input_size = Some (hl, Kl, q_in) →
  get_hadK k output_size = Some (hr, Kr, q_out) →
  ∃ ws,
    create_weights k input_size output_size input_size output_size = Ok ws ∧
    ws_q_in_features ws = q_in ∧ ws_q_out_features ws = q_out ∧
    ws_Qidxs ws = (q_out, q_in / pack) ∧
    ((ws_Qidxs ws).2 * pack = q_in ↔ q_in `mod` pack = 0).
Proof.
  intros Hl Hr. unfold create_weights, call_get_hadK.
  rewrite !Nat.eqb_refl, Hl. cbn [negb orb bind]. rewrite Hr. cbn [bind].
  eexists. split; [reflexivity|].
  cbn [ws_q_in_features ws_q_out_features ws_Qidxs snd].
  repeat split; unfold pack; intros.
  all: pose proof (Nat.div_mod_eq q_in 8); pose proof (Nat.mod_upper_bound q_in 8); lia.
Qed.

End QuipFacts.

Lemma apply_weights_strategy_by_rows_witness :
  Tensor.numel (Tensor.lead Reference.x) = 2
  ∧ Tensor.wf_nd Reference.x
  ∧ keeps_rows (Quip.matmul_hadUt_cuda Reference.kernels)
  ∧ ∀ decompress,
      Quip.apply_weights 0%Z Z.add Z.mul
        (with_decompress Reference.kernels decompress)
        Reference.grid Reference.weights Reference.x (Some Reference.bias)
      = Quip.apply_weights 0%Z Z.add Z.mul Reference.kernels
          Reference.grid Reference.weights Reference.x (Some Reference.bias).
Proof.
  assert (Hwf : Tensor.wf_nd Reference.x).
  { split; [repeat constructor|reflexivity]. }
  assert (Hkeep : keeps_rows (Quip.matmul_hadUt_cuda Reference.kernels)).
  { intros m had K n m'. simpl. unfold Reference.pad_rotate.
    destruct (Tensor.ncols m <=? n); [|discriminate].
    intros Hm. injection Hm as <-. unfold Tensor.nrows. simpl.
    by rewrite length_map. }
  split; [reflexivity|]. split; [exact Hwf|]. split; [exact Hkeep|].
  apply (proj1 (proj2 (apply_weights_strategy_by_rows 0%Z Z.add Z.mul
                         Reference.kernels Reference.grid Reference.weights
                         Reference.x (Some Reference.bias) Hwf Hkeep))).
  simpl. lia.
Defined.

Lemma create_weights_geometry_witness :
  ∃ ws,
    Quip.create_weights Reference.kernels 100 3 100 3 = Ok ws ∧
    Quip.ws_q_in_features ws = 128 ∧ Quip.ws_q_out_features ws = 4 ∧
    Quip.ws_Qidxs ws = (4, 128 / Quip.pack) ∧
    ((Quip.ws_Qidxs ws).2 * Quip.pack = 128 ↔ 128 `mod` Quip.pack = 0).
Proof.
  apply (create_weights_geometry Reference.kernels 100 3 (Some tt) (Some tt) 1 1);
    reflexivity.
Defined.

(** C5, as stated, fails: for an input and output size of 4 (a power of
    two, so not padded) the weights are created without any error although
    the packed indices have 0 columns and [0 * pack] is not 4. *)
Lemma create_weights_no_shape_error :
  ∃ ws,
    Quip.create_weights Reference.kernels 4 4 4 4 = Ok ws ∧
    Quip.ws_q_in_features ws = 4 ∧
    Quip.ws_Qidxs ws = (4, 0) ∧
    ((Quip.ws_Qidxs ws).2 * Quip.pack =? Quip.ws_q_in_features ws) = false.
Proof. eexists. repeat split. Qed.

(** ** QuipLinearMethod.apply_weights *)

Section ViewFacts.
Import Tensor.
Context {A : Type}.

Lemma view_lead_shape (dims : list nat) (out : Mat A) (t : ND A) :
  view_lead dims out = Ok t →
  lead t = dims ∧ ncols (mat t) = ncols out ∧ (wf out → wf (mat t)).
Proof.
  unfold view_lead. intros H.
  destruct (Nat.eqb_spec (nrows out * ncols out) (numel dims * ncols out))
    as [Hn|]; [|discriminate].
  injection H as <-. simpl. split; [done|]. split; [done|].
  intros Hwf. unfold wf. simpl.
  destruct (Nat.eqb_spec (nrows out) (numel dims)) as [|Hne]; [done|].
  assert (ncols out = 0) as -> by nia.
  apply Forall_replicate. done.
Qed.

(** Adding a bias of the width of the tensor commutes with the reshape of
    the leading dimensions. *)
Lemma view_lead_bias {B} (f : A → B → A) (dims : list nat) (y : Mat A)
    (bias : option (list B)) :
  wf y →
  (∀ b, bias = Some b → length b = ncols y) →
  (let* out := view_lead dims y in
   match bias with
   | Some b => nd_broadcast_vec f out b
   | None => Ok out
   end)
  = (let* y' := match bias with
                | Some b => broadcast2 f y (vec b)
                | None => Ok y
                end in
     view_lead dims y').
Proof.
  intros Hwf Hb. destruct bias as [b|]; simpl.
  2:{ by destruct (view_lead dims y). }
  specialize (Hb b eq_refl).
  rewrite (broadcast2_vec f y b) by done. simpl.
  unfold view_lead, nrows. simpl. rewrite length_map.
  destruct (Nat.eqb_spec (length (rows y) * ncols y) (numel dims * ncols y))
    as [Hn|]; simpl; [|done].
  unfold nd_broadcast_vec. simpl.
  destruct (Nat.eqb_spec (length (rows y)) (numel dims)) as [Heq|Hne].
  - rewrite (broadcast2_vec f (mkMat (ncols y) (rows y)) b) by done. done.
  - assert (Hc : ncols y = 0) by nia.
    rewrite (broadcast2_vec f (mkMat (ncols y) (replicate (numel dims) [])) b).
    + simpl. do 3 f_equal. rewrite fmap_replicate. done.
    + unfold wf. simpl. apply Forall_replicate. simpl. lia.
    + simpl. lia.
Qed.

End ViewFacts.

Section ApplyFacts.
Import Tensor Quip.
Context {T Had Grid : Type}.
Variables (zero : T) (add mul : T → T → T).
Variable k : Kernels (T := T) (Had := Had) (Grid := Grid).
Variable grid_packed_abs : Grid.
Variable weights : Weights (T := T) (Had := Had).

(** What the backward rotation is relied on for: its result has the padded
    width it was asked for, in every row. *)
Hypothesis hadU_shape : ∀ y had K n out,
  matmul_hadU_cuda k y had K n = Ok out → ncols out = n ∧ wf out.

(** The padded output width is at least the output size. *)
Hypothesis padded_out : length (SV weights) ≤ q_out_features weights.

Local Abbreviation scaled_output := (scaled_output zero add mul k grid_packed_abs weights).

Lemma scaled_output_shape (x : ND T) (y : Mat T) :
  scaled_output x = Ok y → ncols y = length (SV weights) ∧ wf y.
Proof.
  unfold Quip.scaled_output, bind. intros H.
  repeat case_match; simplify_eq/=.
  match goal with
  | Hu : matmul_hadU_cuda _ _ _ _ _ = Ok ?o |- _ =>
      destruct (hadU_shape _ _ _ _ _ Hu) as [Hc Hw]; set (out := o) in *
  end.
  assert (Hs : ncols (slice_last (length (SV weights)) out) = length (SV weights)).
  { unfold slice_last. simpl. lia. }
  rewrite (broadcast2_vec mul _ (SV weights)) in H;
    [|by apply wf_slice_last|exact Hs].
  injection H as <-. split; [exact Hs|].
  apply (wf_zip_rows mul (slice_last (length (SV weights)) out) (SV weights));
    [by apply wf_slice_last|exact Hs].
Qed.

Lemma apply_weights_unfold (x : ND T) (bias : option (list T)) :
  apply_weights zero add mul k grid_packed_abs weights x bias
  = (let* y := scaled_output x in
     let* out := view_lead (lead x) y in
     match bias with
     | Some b => nd_broadcast_vec add out b
     | None => Ok out
     end).
Proof.
  unfold apply_weights, Quip.scaled_output, bind. repeat case_match; simplify_eq/=; done.
Qed.

Lemma apply_steps_unfold (x : ND T) (bias : option (list T)) :
  apply_steps zero add mul k grid_packed_abs weights x bias
  = (let* y := scaled_output x in
     let* y' := match bias with
                | Some b => broadcast2 add y (vec b)
                | None => Ok y
                end in
     view_lead (lead x) y').
Proof.
  unfold apply_steps, Quip.scaled_output, bind. repeat case_match; simplify_eq/=; done.
Qed.

(** C2. [apply_weights] returns what the seven steps of the specification
    compute, in their order: flatten, scale by [SU], forward rotation,
    quantized matmul, backward rotation truncated to the output size,
    scale by [SV], bias when present, reshape to the leading dimensions
    of [x]; and the result has the leading dimensions of [x] and a last
    dimension equal to the length of [SV], in every row. *)
Theorem apply_weights_steps (x : ND T) (bias : option (list T)) :
  (∀ b, bias = Some b → length b = length (SV weights)) →
  apply_weights zero add mul k grid_packed_abs weights x bias
  = apply_steps zero add mul k grid_packed_abs weights x bias
  ∧ ∀ y, apply_weights zero add mul k grid_packed_abs weights x bias = Ok y →
         lead y = lead x ∧ ncols (mat y) = length (SV weights) ∧ wf (mat y).
Proof.
  intros Hb.
  rewrite apply_steps_unfold, apply_weights_unfold.
  destruct (scaled_output x) as [y2|e] eqn:Hy2; simpl; [|done].
  destruct (scaled_output_shape _ _ Hy2) as [Hc Hwf].
  assert (Hb' : ∀ b, bias = Some b → length b = ncols y2).
  { intros b ->. rewrite Hc. by apply Hb. }
  split; [by apply view_lead_bias|].
  intros y. rewrite (view_lead_bias add (lead x) y2 bias Hwf Hb').
  destruct bias as [b|]; simpl.
  - rewrite (broadcast2_vec add y2 b); [|done|by rewrite Hb']. simpl. intros Hv.
    apply view_lead_shape in Hv as (Hl & Hn & Hw). simpl in *.
    split; [done|]. split; [lia|]. apply Hw.
    apply (wf_zip_rows add y2 b); [done|by rewrite Hb'].
  - intros Hv. apply view_lead_shape in Hv as (Hl & Hn & Hw).
    split; [done|]. split; [lia|]. by apply Hw.
Qed.

End ApplyFacts.

Lemma pad_rotate_shape (y : Tensor.Mat Z) (had : option unit) (K n : nat)
    (out : Tensor.Mat Z) :
  Reference.pad_rotate y had K n = Ok out →
  Tensor.ncols out = n ∧ Tensor.wf out.
Proof.
  unfold Reference.pad_rotate. case_match; [|discriminate].
  intros [= <-]. split; [done|]. unfold Tensor.wf. simpl.
  rewrite Forall_map. apply Forall_forall. intros r _. simpl.
  rewrite length_take, length_app, length_replicate. lia.
Qed.

Lemma apply_weights_steps_witness :
  Quip.apply_weights 0%Z Z.add Z.mul Reference.kernels Reference.grid
    Reference.weights Reference.x (Some Reference.bias)
  = Ok (Tensor.mkND [2; 1]
          (Tensor.mkMat 3 [[6; 185; 6205]; [6; 25; 305]]%Z))
  ∧ (Quip.apply_weights 0%Z Z.add Z.mul Reference.kernels Reference.grid
       Reference.weights Reference.x (Some Reference.bias)
     = Quip.apply_steps 0%Z Z.add Z.mul Reference.kernels Reference.grid
         Reference.weights Reference.x (Some Reference.bias)
     ∧ ∀ y, Quip.apply_weights 0%Z Z.add Z.mul Reference.kernels Reference.grid
              Reference.weights Reference.x (Some Reference.bias) = Ok y →
            Tensor.lead y = Tensor.lead Reference.x
            ∧ Tensor.ncols (Tensor.mat y) = length (Quip.SV Reference.weights)
            ∧ Tensor.wf (Tensor.mat y)).
Proof.
  split; [vm_compute; reflexivity|].
  apply (apply_weights_steps 0%Z Z.add Z.mul Reference.kernels Reference.grid
           Reference.weights).
  - exact pad_rotate_shape.
  - simpl. lia.
  - intros b [= <-]. reflexivity.
Defined.

(** ** apply_weights returns under the contracts of the kernels *)

Section ApplyTotal.
Import Tensor Quip.
Context {T Had Grid : Type}.
Variables (zero : T) (add mul : T → T → T).
Variable k : Kernels (T := T) (Had := Had) (Grid := Grid).
Variable grid_packed_abs : Grid.
Variable weights : Weights (T := T) (Had := Had).

(** The rotations pad the last dimension to the size they are given and
    keep the rows. *)
Hypothesis hadUt_ok : ∀ x had K n,
  wf x → ncols x ≤ n →
  ∃ y, matmul_hadUt_cuda k x had K n = Ok y ∧ has_shape y (nrows x) n.
Hypothesis hadU_ok : ∀ x had K n,
  wf x → ncols x ≤ n →
  ∃ y, matmul_hadU_cuda k x had K n = Ok y ∧ has_shape y (nrows x) n.

(** The codebook kernels on packed indices of shape [(m, n)]: gemv takes
    rows of [n * 8] features to rows of [m] features, and the
    decompression fills the [(m, n * 8)] buffer. *)
Hypothesis gemv_ok : ∀ x,
  wf x → ncols x = ncols (Qidxs weights) * 8 →
  ∃ y, quip_gemv k x (Qidxs weights) grid_packed_abs = Ok y
       ∧ has_shape y (nrows x) (nrows (Qidxs weights)).
Hypothesis decompress_ok :
  ∃ W, quip_decompress k (Qidxs weights) grid_packed_abs
         (nrows (Qidxs weights)) (ncols (Qidxs weights) * 8) = Ok W
       ∧ has_shape W (nrows (Qidxs weights)) (ncols (Qidxs weights) * 8).

(** The geometry of the packed indices agrees with the padded sizes, which
    are at least the sizes of the scales. *)
Hypothesis geometry_in : ncols (Qidxs weights) * pack = q_in_features weights.
Hypothesis geometry_out : nrows (Qidxs weights) = q_out_features weights.
Hypothesis padded_in : length (SU weights) ≤ q_in_features weights.
Hypothesis padded_out : length (SV weights) ≤ q_out_features weights.

Lemma has_shape_vec_rows (f : T → T → T) (a : Mat T) (v : list T) n :
  has_shape a n (length v) →
  broadcast2 f a (vec v) = Ok (mkMat (length v) (map (fun r => zip_with f r v) (rows a)))
  ∧ has_shape (mkMat (length v) (map (fun r => zip_with f r v) (rows a))) n (length v).
Proof.
  intros (Hn & Hc & Hw). split.
  - rewrite (broadcast2_vec f a v) by done. by rewrite Hc.
  - split; [unfold nrows in *; simpl; by rewrite length_map|]. split; [done|].
    rewrite <- Hc. by apply wf_zip_rows.
Qed.

Lemma matmul_T_shape (x w : Mat T) n m c :
  has_shape x n c → has_shape w m c →
  ∃ y, matmul_T zero add mul x w = Ok y ∧ has_shape y n m.
Proof.
  intros (Hn & Hc & _) (Hm & Hc' & _). unfold matmul_T.
  rewrite Hc, Hc', Nat.eqb_refl. eexists. split; [done|].
  unfold has_shape, nrows, wf in *. simpl.
  rewrite length_map. split; [done|]. split; [done|].
  rewrite Forall_map. apply Forall_forall. intros r _. simpl.
  by rewrite length_map.
Qed.

Lemma quant_matmul_shape (x : Mat T) n :
  has_shape x n (q_in_features weights) →
  ∃ y, quant_matmul zero add mul k grid_packed_abs weights x = Ok y
       ∧ has_shape y n (q_out_features weights).
Proof.
  intros Hx. pose proof Hx as (Hn & Hc & Hw). unfold quant_matmul.
  unfold pack in geometry_in.
  destruct (select_strategy x).
  - destruct (gemv_ok x Hw ltac:(lia)) as (y & -> & Hy).
    exists y. split; [done|]. by rewrite <- Hn, <- geometry_out.
  - destruct decompress_ok as (W & -> & HW). simpl.
    rewrite <- geometry_out.
    apply (matmul_T_shape x W n _ (q_in_features weights)); [done|].
    by rewrite <- geometry_in.
Qed.

(** X3. With packed indices whose geometry agrees with the padded sizes,
    and kernels that keep their shape contracts, [apply_weights] returns
    a tensor, of the leading dimensions of [x] and with the length of
    [SV] as last dimension, for every well-formed input of the input size
    and with either strategy: no shape error is raised. *)
Theorem apply_weights_returns (x : ND T) (bias : option (list T)) :
  wf_nd x → ncols (mat x) = length (SU weights) → ncols (mat x) ≠ 0 →
  (∀ b, bias = Some b → length b = length (SV weights)) →
  ∃ y, apply_weights zero add mul k grid_packed_abs weights x bias = Ok y
       ∧ lead y = lead x
       ∧ has_shape (mat y) (numel (lead x)) (length (SV weights)).
Proof.
  intros [Hwf Hrows] Hcols Hne Hbias.
  remember (numel (lead x)) as N eqn:HN.
  unfold apply_weights, reshape_rows.
  destruct (Nat.eqb_spec (ncols (mat x)) 0) as [|_]; [done|]. simpl.
  (* scale by SU *)
  destruct (has_shape_vec_rows mul (mat x) (SU weights) N) as [-> H1].
  { split; [done|]. by split. }
  simpl.
  (* forward rotation *)
  destruct H1 as (Hn1 & Hc1 & Hw1).
  destruct (hadUt_ok _ (had_left weights) (K_left weights)
              (q_in_features weights) Hw1 padded_in) as (x2 & -> & H2).
  simpl. rewrite Hn1 in H2.
  (* quantized matmul *)
  destruct (quant_matmul_shape x2 N H2) as (y & -> & Hy). simpl.
  (* backward rotation and truncation *)
  destruct Hy as (Hny & Hcy & Hwy).
  destruct (hadU_ok y (had_right weights) (K_right weights)
              (q_out_features weights) Hwy ltac:(lia)) as (y1 & -> & H3).
  simpl. rewrite Hny in H3. destruct H3 as (Hn3 & Hc3 & Hw3).
  (* scale by SV *)
  destruct (has_shape_vec_rows mul (slice_last (length (SV weights)) y1)
              (SV weights) N) as [-> H4].
  { split; [unfold nrows, slice_last in *; simpl; by rewrite length_map|].
    split; [unfold slice_last; simpl; lia|]. by apply wf_slice_last. }
  cbn [bind].
  set (z := mkMat (length (SV weights)) _) in *.
  destruct H4 as (Hn4 & Hc4 & Hw4).
  (* reshape to the leading dimensions, bias *)
  unfold view_lead. rewrite Hn4, Hc4, <- HN, !Nat.eqb_refl. cbn [bind].
  destruct bias as [b|].
  - unfold nd_broadcast_vec. cbn [mat lead].
    specialize (Hbias b eq_refl).
    destruct (has_shape_vec_rows add (mkMat (length (SV weights)) (rows z))
                b N) as [Hb H5].
    { rewrite Hbias. split; [exact Hn4|]. split; [done|]. exact Hw4. }
    rewrite Hbias in Hb, H5. rewrite Hb. cbn [bind].
    eexists. split; [done|]. split; [done|]. exact H5.
  - eexists. split; [done|]. split; [done|]. cbn [mat].
    split; [exact Hn4|]. split; [done|]. exact Hw4.
Qed.

End ApplyTotal.

Lemma pad_rotate_returns (x : Tensor.Mat Z) (had : option unit) (K n : nat) :
  Tensor.wf x → Tensor.ncols x ≤ n →
  ∃ y, Reference.pad_rotate x had K n = Ok y ∧ has_shape y (Tensor.nrows x) n.
Proof.
  intros _ Hle. unfold Reference.pad_rotate.
  destruct (Nat.leb_spec (Tensor.ncols x) n) as [_|]; [|lia].
  eexists. split; [done|]. split; [|split; [done|]].
  - unfold Tensor.nrows. simpl. by rewrite length_map.
  - unfold Tensor.wf. simpl. rewrite Forall_map. apply Forall_forall.
    intros r _. simpl. rewrite length_take, length_app, length_replicate. lia.
Qed.

Lemma reference_gemv_returns (x : Tensor.Mat Z) :
  Tensor.wf x →
  Tensor.ncols x = Tensor.ncols (Quip.Qidxs Reference.weights) * 8 →
  ∃ y, Quip.quip_gemv Reference.kernels x (Quip.Qidxs Reference.weights)
         Reference.grid = Ok y
       ∧ has_shape y (Tensor.nrows x)
           (Tensor.nrows (Quip.Qidxs Reference.weights)).
Proof.
  intros _ Hc. cbn [Quip.quip_gemv Reference.kernels]. unfold Tensor.matmul_T.
  replace (Tensor.ncols (Reference.decode _ _)) with (Tensor.ncols x)
    by (rewrite Hc; reflexivity).
  rewrite Nat.eqb_refl. eexists. split; [done|].
  split; [|split; [reflexivity|]].
  - unfold Tensor.nrows. simpl. by rewrite length_map.
  - unfold Tensor.wf. cbn [Tensor.rows Tensor.ncols]. rewrite Forall_map.
    apply Forall_forall. intros r _. unfold Tensor.nrows.
    by rewrite length_map.
Qed.

Lemma apply_weights_returns_witness :
  ∃ y, Quip.apply_weights 0%Z Z.add Z.mul Reference.kernels Reference.grid
         Reference.weights Reference.x (Some Reference.bias) = Ok y
       ∧ Tensor.lead y = [2; 1]
       ∧ has_shape (Tensor.mat y) 2 3.
Proof.
  apply (apply_weights_returns 0%Z Z.add Z.mul Reference.kernels Reference.grid
           Reference.weights).
  - exact pad_rotate_returns.
  - exact pad_rotate_returns.
  - exact reference_gemv_returns.
  - eexists. split; [reflexivity|].
    split; [reflexivity|]. split; [reflexivity|].
    unfold Tensor.wf. simpl. repeat constructor.
  - reflexivity.
  - reflexivity.
  - simpl. lia.
  - simpl. lia.
  - split; [|reflexivity]. unfold Tensor.wf. simpl. repeat constructor.
  - reflexivity.
  - simpl. lia.
  - intros b [= <-]. reflexivity.
Defined.

(** ** Elementwise operations on tensors of known shape *)

Lemma zip_with_ext_Forall2 {A B C} (f g : A → B → C) (l : list A) (k : list B) (P : A → Prop)
    (Q : B → Prop) :
  Forall P l → Forall Q k →
  (∀ a b, P a → Q b → f a b = g a b) →
  zip_with f l k = zip_with g l k.
Proof.
  intros Hl. revert k. induction Hl as [|a l Ha Hl IH]; intros k Hk Hfg; [done|].
  destruct Hk as [|b k Hb Hk]; [done|]. simpl. f_equal; [by apply Hfg|by apply IH].
Qed.

Section ShapeFacts.
Import Tensor.
Context {A B C : Type}.

Lemma has_shape_row (m : Mat A) n c t :
  has_shape m n c → t < n →
  ∃ r, rows m !! t = Some r ∧ row m t = r ∧ length r = c.
Proof.
  intros (Hn & Hc & Hwf) Ht. unfold nrows in Hn.
  destruct (lookup_lt_is_Some_2 (rows m) t ltac:(lia)) as [r Hr].
  exists r. unfold row. rewrite Hr. split; [done|]. split; [done|].
  unfold wf in Hwf. rewrite Forall_lookup in Hwf.
  rewrite (Hwf _ _ Hr). done.
Qed.

Lemma broadcast2_same (f : A → B → C) (a : Mat A) (b : Mat B) n c :
  has_shape a n c → has_shape b n c →
  broadcast2 f a b = Ok (mkMat c (zip_with (zip_with f) (rows a) (rows b))).
Proof.
  intros (Hna & Hca & Hwa) (Hnb & Hcb & Hwb). unfold broadcast2.
  rewrite Hca, Hcb, Hna, Hnb, !bcast_dim_same. simpl.
  rewrite !expand_same by done. do 2 f_equal.
  apply (zip_with_ext_Forall2 _ _ _ _ (fun r => length r = c) (fun r => length r = c)).
  - unfold wf in Hwa. by rewrite Hca in Hwa.
  - unfold wf in Hwb. by rewrite Hcb in Hwb.
  - intros ra rb Hra Hrb. by rewrite !expand_same.
Qed.

(** A tensor of shape [n, c] against one of shape [n, 1]. *)
Lemma broadcast2_col (f : A → B → C) (a : Mat A) (ws : list B) n c :
  has_shape a n c → length ws = n →
  broadcast2 f a (mkMat 1 (map (fun w => [w]) ws))
  = Ok (mkMat c (zip_with (fun ra w => map (fun v => f v w) ra) (rows a) ws)).
Proof.
  intros (Hna & Hca & Hwa) Hws. unfold broadcast2, nrows in *. simpl.
  rewrite Hca, bcast_dim_one, length_map, Hna, Hws, bcast_dim_same. simpl.
  rewrite !expand_same by (rewrite ?length_map; done). do 2 f_equal.
  rewrite zip_with_fmap_r.
  apply (zip_with_ext_Forall2 _ _ _ _ (fun r => length r = c) (fun _ => True)).
  - unfold wf in Hwa. by rewrite Hca in Hwa.
  - by apply Forall_true.
  - intros ra w Hra _. rewrite (expand_same _ ra) by done.
    rewrite expand_singleton, <- Hra. apply zip_with_replicate_map.
Qed.

End ShapeFacts.

Section EntryFacts.
Import Tensor.
Context {A B : Type}.

Lemma has_shape_zip2 (f : A → B → A) (a : Mat A) (b : Mat B) n c :
  has_shape a n c → has_shape b n c →
  has_shape (mkMat c (zip_with (zip_with f) (rows a) (rows b))) n c.
Proof.
  intros (Hna & Hca & Hwa) (Hnb & Hcb & Hwb). unfold has_shape, nrows, wf in *.
  simpl. split; [rewrite length_zip_with; lia|]. split; [done|].
  rewrite Forall_lookup. intros t r Hr.
  apply lookup_zip_with_Some in Hr as (ra & rb & -> & Hra & Hrb).
  rewrite Forall_lookup in Hwa. rewrite Forall_lookup in Hwb.
  rewrite length_zip_with, (Hwa _ _ Hra), (Hwb _ _ Hrb). lia.
Qed.

Lemma entry_zip2 (f : A → B → A) (a : Mat A) (b : Mat B) n c t j d da db :
  has_shape a n c → has_shape b n c → t < n → j < c →
  entry d (mkMat c (zip_with (zip_with f) (rows a) (rows b))) t j
  = f (entry da a t j) (entry db b t j).
Proof.
  intros Ha Hb Ht Hj.
  destruct (has_shape_row a n c t Ha Ht) as (ra & Hra & Hra' & Hla).
  destruct (has_shape_row b n c t Hb Ht) as (rb & Hrb & Hrb' & Hlb).
  unfold entry. rewrite Hra', Hrb'. unfold row. simpl.
  rewrite lookup_zip_with, Hra, Hrb. simpl.
  destruct (lookup_lt_is_Some_2 ra j ltac:(lia)) as [x Hx].
  destruct (lookup_lt_is_Some_2 rb j ltac:(lia)) as [y Hy].
  rewrite lookup_zip_with, Hx, Hy. done.
Qed.

Lemma has_shape_scale (f : A → B → A) (a : Mat A) (ws : list B) n c :
  has_shape a n c → length ws = n →
  has_shape (mkMat c (zip_with (fun ra w => map (fun v => f v w) ra) (rows a) ws)) n c.
Proof.
  intros (Hna & Hca & Hwa) Hws. unfold has_shape, nrows, wf in *.
  simpl. split; [rewrite length_zip_with; lia|]. split; [done|].
  rewrite Forall_lookup. intros t r Hr.
  apply lookup_zip_with_Some in Hr as (ra & w & -> & Hra & Hw).
  rewrite Forall_lookup in Hwa. rewrite length_map, (Hwa _ _ Hra). done.
Qed.

Lemma entry_scale (f : A → B → A) (a : Mat A) (ws : list B) n c t j d w :
  has_shape a n c → ws !! t = Some w → t < n → j < c →
  entry d (mkMat c (zip_with (fun ra w => map (fun v => f v w) ra) (rows a) ws)) t j
  = f (entry d a t j) w.
Proof.
  intros Ha Hw Ht Hj.
  destruct (has_shape_row a n c t Ha Ht) as (ra & Hra & Hra' & Hla).
  unfold entry. rewrite Hra'. unfold row. simpl.
  rewrite lookup_zip_with, Hra, Hw. simpl.
  destruct (lookup_lt_is_Some_2 ra j ltac:(lia)) as [x Hx].
  rewrite list_lookup_fmap, Hx. done.
Qed.

End EntryFacts.

(** ** The local experts loop of Qwen2MoeSparseMoeBlock.forward *)

Section MoeFacts.
Import Tensor MoeForward.
Context {T : Type}.
Variables (zero one : T) (add mul : T → T → T) (silu : T → T).

(** No law of the arithmetic is used for the sums. For the tokens that
    selected none of the experts, the scalars that are neither infinite
    nor NaN, and the zeros of either sign, are taken with the three
    properties that they have in IEEE arithmetic. *)
Variables (finite is_zero : T → Prop).
Hypothesis is_zero_zero : is_zero zero.
Hypothesis mul_is_zero : ∀ x z, finite x → is_zero z → is_zero (mul x z).
Hypothesis add_is_zero : ∀ a b, is_zero a → is_zero b → is_zero (add a b).

Variables (experts : list (option (ExpertMLP (T := T)))).
Variables (hidden_states routing_weights : Mat T) (selected_experts : Mat nat).
Variables (N H K : nat).
Variable outs : nat → Mat T.

Hypothesis routing_shape : has_shape routing_weights N K.
Hypothesis selected_shape : has_shape selected_experts N K.

Local Abbreviation expert_runs :=
  (expert_runs mul silu experts hidden_states N H outs).

Local Abbreviation term :=
  (expert_term zero one add mul outs routing_weights selected_experts).
Local Abbreviation loop :=
  (local_experts_loop zero one add mul silu experts hidden_states
     routing_weights selected_experts).

Lemma expert_weights_of_eq (e : nat) :
  ∃ ws, expert_weights_of zero one add mul routing_weights selected_experts e
        = Ok (mkMat 1 (map (fun w => [w]) ws))
        ∧ length ws = N
        ∧ ∀ t, t < N →
            ws !! t = Some (masked_weight zero one add mul
                              (row routing_weights t)
                              (row selected_experts t) e).
Proof.
  unfold expert_weights_of.
  set (mask := map_mat (fun s => s =? e) selected_experts).
  assert (Hmask : has_shape mask N K).
  { destruct selected_shape as (Hn & Hc & Hw).
    unfold has_shape, mask, map_mat, nrows, wf in *. simpl.
    rewrite length_map. split; [done|]. split; [done|].
    rewrite Forall_map. eapply Forall_impl; [exact Hw|].
    intros r Hr. simpl in *. by rewrite length_map. }
  rewrite (broadcast2_same _ routing_weights mask N K) by done. simpl.
  unfold sum_last_keepdim. simpl.
  eexists (map (sum_row zero add) _). split.
  { rewrite <- list_fmap_compose. reflexivity. }
  destruct routing_shape as (Hn & _ & _). destruct selected_shape as (Hn' & _ & _).
  unfold nrows in *.
  split; [rewrite length_map, length_zip_with, length_map; lia|].
  intros t Ht.
  destruct (has_shape_row routing_weights N K t routing_shape Ht)
    as (rw & Hrw & -> & _).
  destruct (has_shape_row selected_experts N K t selected_shape Ht)
    as (rs & Hrs & -> & _).
  rewrite list_lookup_fmap, lookup_zip_with, Hrw. simpl.
  unfold mask, map_mat. simpl. rewrite list_lookup_fmap, Hrs. simpl.
  f_equal. unfold masked_weight. f_equal.
  apply (zip_with_fmap_r (fun w b => mul w (of_bool zero one b))).
Qed.

(** One iteration: the expert's output scaled, row by row, by its weights. *)
Lemma scaled_expert_output (e : nat) :
  expert_runs e →
  ∃ layer current,
    getitem experts e = Ok (Some layer)
    ∧ (let* expert_weights :=
         expert_weights_of zero one add mul routing_weights selected_experts e in
       let* out := ExpertMLP_forward mul silu layer hidden_states in
       inplace2 mul out expert_weights) = Ok current
    ∧ has_shape current N H
    ∧ ∀ t j, t < N → j < H → entry zero current t j = term t j e.
Proof.
  intros (layer & Hl & Hout & Hshape).
  destruct (expert_weights_of_eq e) as (ws & -> & Hlen & Hws).
  exists layer. eexists. split; [unfold getitem; by rewrite Hl|].
  simpl. rewrite Hout. simpl. unfold inplace2.
  rewrite (broadcast2_col mul (outs e) ws N H) by done. simpl.
  pose proof (has_shape_scale mul (outs e) ws N H Hshape Hlen) as Hcur.
  destruct Hshape as (Hn & Hc & Hw). destruct Hcur as (Hn' & Hc' & Hw').
  rewrite Hc, Hn, Nat.eqb_refl. unfold nrows in Hn'. simpl in Hn'.
  unfold nrows at 1. simpl. rewrite Hn', Nat.eqb_refl. simpl.
  split; [reflexivity|]. split; [done|].
  intros t j Ht Hj. unfold expert_term.
  apply (entry_scale mul (outs e) ws N H); [done|by apply Hws|done..].
Qed.

Lemma loop_from_accumulator (idxs : list nat) : ∀ (F : Mat T),
  has_shape F N H →
  (∀ e, e ∈ idxs → expert_runs e) →
  ∃ final,
    loop idxs (Some F) = Ok (Some final)
    ∧ has_shape final N H
    ∧ ∀ t j, t < N → j < H →
        entry zero final t j
        = foldl add (entry zero F t j) (map (term t j) idxs).
Proof.
  induction idxs as [|e idxs IH]; intros F HF Hruns.
  { exists F. done. }
  destruct (scaled_expert_output e) as (layer & cur & Hget & Hcur & Hshape & Hentry).
  { apply Hruns. by left. }
  simpl. rewrite Hget. simpl.
  unfold bind in Hcur.
  destruct (expert_weights_of _ _ _ _ _ _ e) as [ew|]; [|discriminate]; simpl.
  destruct (ExpertMLP_forward _ _ _ _) as [out|]; [|discriminate]; simpl.
  rewrite Hcur. simpl. unfold inplace2.
  rewrite (broadcast2_same add F cur N H) by done. simpl.
  pose proof (has_shape_zip2 add F cur N H HF Hshape) as Hsum.
  destruct HF as (HnF & HcF & HwF).
  rewrite HcF, HnF, Nat.eqb_refl.
  destruct Hsum as (Hn' & Hc' & Hw'). unfold nrows in Hn'. simpl in Hn'.
  unfold nrows at 1. simpl. rewrite Hn', Nat.eqb_refl. simpl.
  destruct (IH (mkMat H (zip_with (zip_with add) (rows F) (rows cur))))
    as (final & Hfinal & Hfs & Hfe).
  { by split. }
  { intros e' He'. apply Hruns. by right. }
  exists final. split; [exact Hfinal|]. split; [done|].
  intros t j Ht Hj. rewrite (Hfe t j Ht Hj). simpl. f_equal.
  rewrite (entry_zip2 add F cur N H t j zero zero zero); [|by split|done..].
  by rewrite Hentry.
Qed.

(** The weight of an expert that no slot of the token selected is a sum
    of products by the mask 0. *)
Lemma masked_weight_unselected (e : nat) (ws : list T) : ∀ ss : list nat,
  e ∉ ss → Forall finite ws →
  ∀ acc, is_zero acc →
    is_zero (foldl add acc
               (zip_with (fun w s => mul w (of_bool zero one (s =? e))) ws ss)).
Proof.
  induction ws as [|w ws IH]; intros ss He Hfin acc Hacc; [done|].
  destruct ss as [|s ss]; [done|]. simpl.
  apply Forall_cons in Hfin as [Hw Hfin].
  apply IH; [intros Hin; apply He; by right|done|].
  apply add_is_zero; [done|].
  destruct (Nat.eqb_spec s e) as [->|_]; [exfalso; apply He; by left|].
  simpl. by apply mul_is_zero.
Qed.

Lemma foldl_add_is_zero (l : list T) : ∀ acc,
  is_zero acc → Forall is_zero l → is_zero (foldl add acc l).
Proof.
  induction l as [|x l IH]; intros acc Hacc Hl; [done|].
  apply Forall_cons in Hl as [Hx Hl]. simpl. apply IH; [|done].
  by apply add_is_zero.
Qed.

(** The loop, started without accumulator, over a non-empty list of
    experts that all run on the batch. *)
Lemma local_experts_loop_sum (expert_indicies : list nat) :
  expert_indicies ≠ [] →
  (∀ e, e ∈ expert_indicies → expert_runs e) →
  ∃ final,
    loop expert_indicies None = Ok (Some final)
    ∧ has_shape final N H
    ∧ (∀ t j, t < N → j < H →
         entry zero final t j
         = sum_in_order add zero (map (term t j) expert_indicies))
    ∧ (∀ t, t < N →
         (∀ e, e ∈ expert_indicies → e ∉ row selected_experts t) →
         Forall finite (row routing_weights t) →
         (∀ e j, e ∈ expert_indicies → j < H →
                 finite (entry zero (outs e) t j)) →
         Forall is_zero (row final t))
    ∧ (∀ e a b, masked_weight zero one add mul [a; b] [e; e] e
                = add (add zero (mul a one)) (mul b one)).
Proof.
  intros Hne Hruns. destruct expert_indicies as [|e idxs]; [done|].
  destruct (scaled_expert_output e) as (layer & cur & Hget & Hcur & Hshape & Hentry).
  { apply Hruns. by left. }
  destruct (loop_from_accumulator idxs cur Hshape) as (final & Hfinal & Hfs & Hfe).
  { intros e' He'. apply Hruns. by right. }
  assert (Hall : ∀ t j, t < N → j < H →
            entry zero final t j
            = sum_in_order add zero (map (term t j) (e :: idxs))).
  { intros t j Ht Hj. rewrite (Hfe t j Ht Hj), Hentry by done. done. }
  exists final. split; [|split; [done|split; [exact Hall|split]]].
  - simpl. rewrite Hget. simpl. unfold bind in Hcur.
    destruct (expert_weights_of _ _ _ _ _ _ e) as [ew|]; [|discriminate]; simpl.
    destruct (ExpertMLP_forward _ _ _ _) as [out|]; [|discriminate]; simpl.
    rewrite Hcur. simpl. exact Hfinal.
  - intros t Ht Hnone Hweights Houts.
    destruct (has_shape_row final N H t Hfs Ht) as (r & Hr & -> & Hlen).
    apply Forall_lookup. intros j x Hx.
    assert (Hj : j < H) by (apply lookup_lt_Some in Hx; lia).
    specialize (Hall t j Ht Hj).
    unfold entry at 1, row at 1 in Hall.
    rewrite Hr in Hall. simpl in Hall. rewrite Hx in Hall. simpl in Hall.
    rewrite Hall.
    assert (Hterm : ∀ e', e' ∈ e :: idxs → is_zero (term t j e')).
    { intros e' He'. unfold expert_term.
      apply mul_is_zero; [by apply Houts|].
      unfold masked_weight, sum_row.
      apply masked_weight_unselected; [by apply Hnone|done|done]. }
    simpl. apply foldl_add_is_zero; [apply Hterm; by left|].
    rewrite Forall_map. apply Forall_forall. intros e' He'.
    apply Hterm. by right.
  - intros e' a b. unfold masked_weight, sum_row. simpl.
    by rewrite Nat.eqb_refl.
Qed.

Variable fused_topk : Mat T → nat → bool → result (Mat T * Mat nat).


End MoeFacts.

(** The three properties of the zeros hold in half precision. *)
Lemma half_mul_is_zero (x z : SpecFloat.spec_float) :
  Half.finite x = true → Half.is_zero z = true →
  Half.is_zero (Half.mul x z) = true.
Proof. by destruct x, z. Qed.

Lemma half_add_is_zero (a b : SpecFloat.spec_float) :
  Half.is_zero a = true → Half.is_zero b = true →
  Half.is_zero (Half.add a b) = true.
Proof. destruct a as [[]| | |], b as [[]| | |]; done. Qed.



(** ** Strings: prefixes, occurrences and [replace] *)

Section StringFacts.
Local Arguments String.append !_ _ / : simpl nomatch.

Lemma str_app_cons (x : ascii) (a b : string) :
  String x a +:+ b = String x (a +:+ b).
Proof. done. Qed.

Lemma str_app_nil_r (s : string) : s +:+ "" = s.
Proof. induction s as [|c s IH]; simpl; [done|]. by rewrite IH. Qed.

Lemma str_app_assoc (a b c : string) : (a +:+ b) +:+ c = a +:+ b +:+ c.
Proof. induction a as [|x a IH]; simpl; [done|]. by rewrite IH. Qed.

Lemma str_length_app (a b : string) :
  String.length (a +:+ b) = String.length a + String.length b.
Proof. induction a as [|x a IH]; simpl; [done|]. by rewrite IH. Qed.

Lemma prefix_cons (x y : ascii) (p s : string) :
  PyStr.is_prefix (String x p) (String y s) = true ↔ x = y ∧ PyStr.is_prefix p s = true.
Proof.
  simpl. rewrite andb_true_iff, Ascii.eqb_eq. done.
Qed.

Lemma prefix_app (p s : string) : PyStr.is_prefix p (p +:+ s) = true.
Proof.
  induction p as [|x p IH]; [done|]. simpl.
  by rewrite Ascii.eqb_refl.
Qed.

Lemma prefix_inv (p s : string) :
  PyStr.is_prefix p s = true → ∃ r, s = p +:+ r.
Proof.
  revert s. induction p as [|x p IH]; intros s H; [by exists s|].
  destruct s as [|y s]; [done|].
  apply prefix_cons in H as [-> H]. destruct (IH s H) as [r ->]. by exists r.
Qed.

Lemma prefix_length (p s : string) :
  PyStr.is_prefix p s = true → String.length p ≤ String.length s.
Proof. intros [r ->]%prefix_inv. rewrite str_length_app. lia. Qed.

(** A prefix of [a +:+ t] no longer than [a] is a prefix of [a]. *)
Lemma prefix_app_le (p a t : string) :
  PyStr.is_prefix p (a +:+ t) = true → String.length p ≤ String.length a →
  PyStr.is_prefix p a = true.
Proof.
  revert a. induction p as [|x p IH]; intros a H Hlen; [done|].
  destruct a as [|y a]; [simpl in Hlen; lia|]. simpl in Hlen.
  change (String y a +:+ t) with (String y (a +:+ t)) in H.
  apply prefix_cons in H as [-> H]. apply prefix_cons.
  split; [done|]. apply IH; [done|lia].
Qed.

Lemma prefix_app_r (p a t : string) :
  PyStr.is_prefix p a = true → PyStr.is_prefix p (a +:+ t) = true.
Proof.
  intros [r ->]%prefix_inv. rewrite str_app_assoc. apply prefix_app.
Qed.

Lemma contains_prefix (m s : string) :
  PyStr.is_prefix m s = true → PyStr.contains m s = true.
Proof. intros H. destruct s; simpl; by rewrite H. Qed.

Lemma contains_spec (m s : string) :
  PyStr.contains m s = true ↔ ∃ a b, s = a +:+ m +:+ b.
Proof.
  split.
  - induction s as [|x s IH]; simpl; intros H.
    + rewrite orb_false_r in H. apply prefix_inv in H as [r Hr].
      by exists "", r.
    + apply orb_true_iff in H as [H|H].
      * apply prefix_inv in H as [r Hr]. by exists "", r.
      * destruct (IH H) as (a & b & ->). by exists (String x a), b.
  - intros (a & b & ->). induction a as [|x a IH]; simpl.
    + apply contains_prefix, prefix_app.
    + by rewrite IH, orb_true_r.
Qed.

Lemma endswith_unfold (s suf : string) :
  PyStr.endswith s suf
  = String.eqb s suf || match s with
                        | EmptyString => false
                        | String _ s' => PyStr.endswith s' suf
                        end.
Proof. by destruct s. Qed.

Lemma endswith_spec (s suf : string) :
  PyStr.endswith s suf = true ↔ ∃ a, s = a +:+ suf.
Proof.
  split.
  - induction s as [|x s IH]; rewrite endswith_unfold; intros H;
      apply orb_true_iff in H as [H|H]; try done.
    + apply String.eqb_eq in H as <-. by exists "".
    + apply String.eqb_eq in H as <-. by exists "".
    + destruct (IH H) as [a ->]. by exists (String x a).
  - intros [a ->]. induction a as [|x a IH]; rewrite endswith_unfold.
    + simpl. by rewrite String.eqb_refl.
    + rewrite str_app_cons. by rewrite IH, orb_true_r.
Qed.

Lemma mem_char_app (c : ascii) (a b : string) :
  mem_char c (a +:+ b) = mem_char c a || mem_char c b.
Proof.
  induction a as [|x a IH]; simpl; [done|]. by rewrite IH, orb_assoc.
Qed.

Lemma last_char_app (a b : string) :
  b ≠ "" → last_char (a +:+ b) = last_char b.
Proof.
  intros Hb. induction a as [|x a IH]; simpl; [done|].
  rewrite IH. destruct (a +:+ b) eqn:E; [|done].
  destruct a; simpl in E; [done|discriminate].
Qed.

(** A non-empty prefix of [t] has its last character in [t]. *)
Lemma prefix_last_mem (old t : string) (c : ascii) :
  PyStr.is_prefix old t = true → last_char old = Some c → mem_char c t = true.
Proof.
  revert t. induction old as [|x old IH]; intros t Hp Hl; [done|].
  destruct t as [|y t]; [done|]. apply prefix_cons in Hp as [-> Hp].
  simpl. destruct old as [|x' old].
  - injection Hl as ->. by rewrite Ascii.eqb_refl.
  - rewrite (IH t Hp Hl). apply orb_true_r.
Qed.

(** An occurrence of [old] that starts in [a] and ends in [t] has its last
    character in [t]. *)
Lemma overlap_last_mem (old a t : string) (c : ascii) :
  PyStr.is_prefix old (a +:+ t) = true → String.length a < String.length old →
  last_char old = Some c → mem_char c t = true.
Proof.
  revert old. induction a as [|x a IH]; intros old Hp Hlen Hl.
  - by apply (prefix_last_mem old).
  - destruct old as [|y old]; [done|]. simpl in Hlen.
    change (String x a +:+ t) with (String x (a +:+ t)) in Hp.
    apply prefix_cons in Hp as [-> Hp].
    apply (IH old Hp); [lia|].
    destruct old as [|y' old]; [simpl in Hlen; lia|done].
Qed.

(** An occurrence of [old] that starts in a non-empty [a] and ends in [t]
    has the first character of [t] after its own first character. *)
Lemma overlap_head_mem (old a t : string) (c : ascii) :
  PyStr.is_prefix old (a +:+ t) = true → String.length a < String.length old →
  a ≠ "" → head_char t = Some c → mem_char c (tail_str old) = true.
Proof.
  revert old. induction a as [|x a IH]; intros old Hp Hlen Ha Hh; [done|].
  destruct old as [|y old]; [simpl in Hlen; lia|]. simpl in Hlen.
  change (String x a +:+ t) with (String x (a +:+ t)) in Hp.
  apply prefix_cons in Hp as [-> Hp]. simpl.
  destruct a as [|x' a].
  - simpl in Hp. destruct old as [|y' old]; [simpl in Hlen; lia|].
    destruct t as [|z t]; [done|]. injection Hh as ->.
    apply prefix_cons in Hp as [-> _]. simpl.
    by rewrite Ascii.eqb_refl.
  - assert (Hm := IH old Hp ltac:(lia) ltac:(done) Hh).
    destruct old as [|y' old]; [done|]. simpl in *. by rewrite Hm, orb_true_r.
Qed.

End StringFacts.

Section ReplaceFacts.
Local Arguments String.append !_ _ / : simpl nomatch.
Variables old new : string.
Hypothesis old_nonempty : old ≠ "".

Lemma replace_nonempty (s : string) :
  PyStr.replace old new s = PyStr.replace_scan old new 0 s.
Proof using old_nonempty. unfold PyStr.replace. by destruct old. Qed.

Lemma replace_scan_nil (skip : nat) : PyStr.replace_scan old new skip "" = "".
Proof. done. Qed.

Lemma old_length_pos : 0 < String.length old.
Proof using old_nonempty. destruct old; [done|simpl; lia]. Qed.

Local Abbreviation stays := (stays old).

Lemma stays_tail (x : ascii) (a t : string) : stays (String x a) t → stays a t.
Proof.
  intros H a1 a2 -> Ha2 Hp. apply (H (String x a1) a2); done.
Qed.

(** The scan of [a +:+ t] is the scan of [a] followed by the scan of [t]. *)
Lemma replace_scan_app (a t : string) : ∀ skip,
  skip ≤ String.length a → stays a t →
  PyStr.replace_scan old new skip (a +:+ t)
  = PyStr.replace_scan old new skip a +:+ PyStr.replace_scan old new 0 t.
Proof using old_nonempty.
  induction a as [|x a IH]; intros skip Hskip Hstays.
  { simpl in Hskip. by replace skip with 0 by lia. }
  rewrite str_app_cons. destruct skip as [|k].
  - cbn [PyStr.replace_scan].
    destruct (PyStr.is_prefix old (String x (a +:+ t))) eqn:Hp.
    + assert (Hlen : String.length old ≤ String.length (String x a)).
      { apply (Hstays "" (String x a)); done. }
      rewrite (prefix_app_le old (String x a) t) by done.
      simpl in Hlen. rewrite IH; [|lia|by apply (stays_tail x)].
      by rewrite str_app_assoc.
    + destruct (PyStr.is_prefix old (String x a)) eqn:Hp'.
      * apply (prefix_app_r _ _ t) in Hp'. rewrite str_app_cons in Hp'. congruence.
      * rewrite IH; [done|lia|by apply (stays_tail x)].
  - cbn [PyStr.replace_scan]. simpl in Hskip.
    apply IH; [lia|by apply (stays_tail x)].
Qed.

(** A string without occurrence of [old] is left as it is. *)
Lemma replace_scan_id (t : string) :
  (∀ t1 t2, t = t1 +:+ t2 → PyStr.is_prefix old t2 = false) →
  PyStr.replace_scan old new 0 t = t.
Proof.
  induction t as [|x t IH]; intros H; [done|].
  cbn [PyStr.replace_scan]. rewrite (H "" (String x t)) by done.
  f_equal. apply IH. intros t1 t2 -> . apply (H (String x t1) t2). done.
Qed.

Lemma ends_outside_no_match (suf t1 t2 : string) :
  ends_outside old suf = true → suf = t1 +:+ t2 →
  PyStr.is_prefix old t2 = false.
Proof.
  unfold ends_outside. destruct (last_char old) as [c|] eqn:Hl; [|done].
  intros Hm -> . destruct (PyStr.is_prefix old t2) eqn:Hp; [|done].
  apply (prefix_last_mem old t2 c) in Hp; [|done].
  rewrite mem_char_app, Hp, orb_true_r in Hm. done.
Qed.

Lemma ends_outside_stays (a suf : string) :
  ends_outside old suf = true → stays a suf.
Proof.
  unfold ends_outside. destruct (last_char old) as [c|] eqn:Hl; [|done].
  intros Hm a1 a2 -> Ha2 Hp.
  destruct (decide (String.length old ≤ String.length a2)) as [|Hgt]; [done|].
  rewrite (overlap_last_mem old a2 suf c) in Hm; [done|done|lia|done].
Qed.

(** [replace] keeps a suffix that no occurrence of [old] can reach. *)
Lemma replace_keeps_suffix (s suf : string) :
  ends_outside old suf = true →
  PyStr.endswith s suf = true →
  PyStr.endswith (PyStr.replace old new s) suf = true.
Proof using old_nonempty.
  intros Hout [a ->]%endswith_spec. rewrite replace_nonempty.
  rewrite replace_scan_app; [|lia|by apply ends_outside_stays].
  rewrite (replace_scan_id suf).
  - apply endswith_spec. by eexists.
  - intros t1 t2. by apply ends_outside_no_match.
Qed.

Lemma prefix_app_compat (m b : string) : ∀ o,
  PyStr.is_prefix o (m +:+ b) = true → compat o m = true.
Proof.
  induction m as [|x m IH]; intros o Hp.
  - unfold compat. by destruct o.
  - destruct o as [|y o]; [done|]. rewrite str_app_cons in Hp.
    apply prefix_cons in Hp as [-> Hp]. specialize (IH o Hp).
    unfold compat in *. simpl. by rewrite Ascii.eqb_refl.
Qed.

(** Scanning from the start of [m], the result starts with [m]. *)
Lemma replace_scan_emits (m b : string) :
  marker_ok old new m = true →
  ∃ r, PyStr.replace_scan old new 0 (m +:+ b) = m +:+ r.
Proof.
  induction m as [|x m IH]; intros Hok.
  { by eexists. }
  cbn [marker_ok] in Hok. apply andb_true_iff in Hok as [Hhere Hrest].
  rewrite str_app_cons. cbn [PyStr.replace_scan].
  destruct (PyStr.is_prefix old (String x (m +:+ b))) eqn:Hp.
  - rewrite <- str_app_cons in Hp.
    rewrite (prefix_app_compat _ _ _ Hp) in Hhere. cbn [negb orb] in Hhere.
    apply prefix_inv in Hhere as [n' ->]. rewrite str_app_assoc. by eexists.
  - destruct (IH Hrest) as [r ->]. by exists r.
Qed.

Lemma starts_outside_stays (a m b : string) :
  starts_outside old m = true → stays a (m +:+ b).
Proof.
  unfold starts_outside. destruct (head_char m) as [c|] eqn:Hh; [|done].
  intros Hm a1 a2 -> Ha2 Hp.
  destruct (decide (String.length old ≤ String.length a2)) as [|Hgt]; [done|].
  rewrite (overlap_head_mem old a2 (m +:+ b) c) in Hm; [done|done|lia|done|].
  destruct m; [done|]. done.
Qed.

(** [replace] keeps an occurrence of [m] that occurrences of [old] cannot
    break. *)
Lemma replace_keeps_marker (m s : string) :
  starts_outside old m = true → marker_ok old new m = true →
  PyStr.contains m s = true →
  PyStr.contains m (PyStr.replace old new s) = true.
Proof using old_nonempty.
  intros Hstart Hok (a & b & ->)%contains_spec. rewrite replace_nonempty.
  rewrite replace_scan_app; [|lia|by apply starts_outside_stays].
  destruct (replace_scan_emits m b Hok) as [r ->].
  apply contains_spec. by eexists _, _.
Qed.

End ReplaceFacts.

(** ** Qwen2MoeForCausalLM.load_weights *)

Section LoaderFacts.
Import Loader.
Context {W : Type}.
Variable params_dict : gmap string Param.

Lemma stacked_entries_ok :
  forallb (fun e : string * string * shard_id => rewrite_ok e.1.2 e.1.1)
          stacked_params_mapping = true.
Proof. vm_compute. reflexivity. Qed.

Lemma rewrite_ok_inv (old new : string) :
  rewrite_ok old new = true →
  old ≠ ""
  ∧ ends_outside old ".bias" = true
  ∧ (starts_outside old "mlp.experts." = true
     ∧ marker_ok old new "mlp.experts." = true)
  ∧ (starts_outside old "mlp.shared_expert." = true
     ∧ marker_ok old new "mlp.shared_expert." = true).
Proof.
  unfold rewrite_ok. rewrite !andb_true_iff, negb_true_iff.
  intros [[[[[Hne ?] ?] ?] ?] ?]. repeat split; try done.
  intros ->. done.
Qed.

Lemma rewrite_keeps_bias (old new s : string) :
  rewrite_ok old new = true → is_bias s = true →
  is_bias (PyStr.replace old new s) = true.
Proof.
  intros (Hne & Hb & _)%rewrite_ok_inv Hs. unfold is_bias in *.
  by apply replace_keeps_suffix.
Qed.

Lemma rewrite_keeps_expert (old new s : string) :
  rewrite_ok old new = true → names_expert s = true →
  names_expert (PyStr.replace old new s) = true.
Proof.
  intros (Hne & _ & [H1 H1'] & [H2 H2'])%rewrite_ok_inv Hs.
  unfold names_expert in *. apply orb_true_iff in Hs as [Hs|Hs].
  - rewrite (replace_keeps_marker old new Hne "mlp.experts.") by done. done.
  - rewrite (replace_keeps_marker old new Hne "mlp.shared_expert.") by done.
    apply orb_true_r.
Qed.

Lemma missing_true (name : string) :
  params_dict !! name = None → missing params_dict name = true.
Proof. intros H. unfold missing. by apply bool_decide_eq_true. Qed.

(** A name that keeps being a bias or expert name, and whose rewritten
    names are all absent from the dictionary, goes through the whole
    stacked loop without a loader call and without an exception. *)
Lemma stacked_loop_exhausts (inv : string → Prop) (w : W) :
  (∀ s, inv s → is_bias s || names_expert s = true) →
  ∀ mapping : list (string * string * shard_id),
    (∀ e s, e ∈ mapping → inv s → inv (PyStr.replace e.1.2 e.1.1 s)) →
    ∀ name, inv name →
      (∀ d, d ∈ stacked_names mapping name → params_dict !! d = None) →
      stacked_loop params_dict mapping name w
      = Exhausted (stacked_final mapping name)
      ∧ inv (stacked_final mapping name).
Proof.
  intros Hinv. induction mapping as [|[[p o] sid] mapping IH];
    intros Hkeep name Hname Hmiss; [done|].
  cbn [stacked_loop stacked_final stacked_names] in *.
  destruct (PyStr.contains o name) eqn:Hc; cbn [negb].
  - assert (Hname' : inv (PyStr.replace o p name)).
    { apply (Hkeep (p, o, sid)); [by left|done]. }
    assert (Hm : missing params_dict (PyStr.replace o p name) = true).
    { apply missing_true, Hmiss. by left. }
    rewrite Hm, !andb_true_r.
    assert (Hrest : stacked_loop params_dict mapping (PyStr.replace o p name) w
                    = Exhausted (stacked_final mapping (PyStr.replace o p name))
                    ∧ inv (stacked_final mapping (PyStr.replace o p name))).
    { apply IH; [|done|].
      - intros e s He. apply Hkeep. by right.
      - intros d Hd. apply Hmiss. by right. }
    specialize (Hinv _ Hname').
    destruct (is_bias (PyStr.replace o p name)); [done|].
    simpl in Hinv. rewrite Hinv. done.
  - apply IH; [|done|done]. intros e s He. apply Hkeep. by right.
Qed.

Lemma expert_loop_exhausts (w : W) :
  ∀ mapping : list (string * string * option nat * nat),
    (∀ e s, e ∈ mapping → is_bias s = true →
            is_bias (PyStr.replace e.1.1.2 e.1.1.1 s) = true) →
    ∀ name, is_bias name = true →
      (∀ d, d ∈ expert_names mapping name → params_dict !! d = None) →
      expert_loop params_dict mapping name w
      = Exhausted (expert_final mapping name)
      ∧ is_bias (expert_final mapping name) = true.
Proof.
  induction mapping as [|[[[p o] sid] eid] mapping IH];
    intros Hkeep name Hname Hmiss; [done|].
  cbn [expert_loop expert_final expert_names] in *.
  destruct (PyStr.contains o name) eqn:Hc; cbn [negb].
  - assert (Hname' : is_bias (PyStr.replace o p name) = true).
    { apply (Hkeep (p, o, sid, eid)); [by left|done]. }
    assert (Hm : missing params_dict (PyStr.replace o p name) = true).
    { apply missing_true, Hmiss. by left. }
    rewrite Hm, Hname'. cbn [andb].
    apply IH; [|done|].
    + intros e s He. apply Hkeep. by right.
    + intros d Hd. apply Hmiss. by right.
  - apply IH; [|done|done]. intros e s He. apply Hkeep. by right.
Qed.

(** A name that no pattern of the table occurs in goes through the loop
    unchanged. *)
Lemma stacked_loop_no_match (w : W) (name : string) :
  ∀ mapping : list (string * string * shard_id),
    forallb (fun e => negb (PyStr.contains e.1.2 name)) mapping = true →
    stacked_loop params_dict mapping name w = Exhausted name
    ∧ stacked_final mapping name = name ∧ stacked_names mapping name = [].
Proof.
  induction mapping as [|[[p o] sid] mapping IH]; intros H; [done|].
  cbn [forallb] in H. apply andb_true_iff in H as [Hhere Hrest].
  cbn [stacked_loop stacked_final stacked_names fst snd] in *.
  rewrite Hhere. apply negb_true_iff in Hhere. rewrite Hhere. by apply IH.
Qed.

Lemma expert_loop_no_match (w : W) (name : string) :
  ∀ mapping : list (string * string * option nat * nat),
    no_expert_match mapping name = true →
    expert_loop params_dict mapping name w = Exhausted name
    ∧ expert_final mapping name = name ∧ expert_names mapping name = [].
Proof.
  unfold no_expert_match.
  induction mapping as [|[[[p o] sid] eid] mapping IH]; intros H; [done|].
  cbn [forallb] in H. apply andb_true_iff in H as [Hhere Hrest].
  cbn [expert_loop expert_final expert_names fst snd] in *.
  rewrite Hhere. apply negb_true_iff in Hhere. rewrite Hhere. by apply IH.
Qed.

Lemma default_load_skips (w : W) (name : string) :
  is_bias name || names_expert name = true →
  params_dict !! name = None →
  default_load params_dict name w = Skipped.
Proof.
  intros Hn Hm%missing_true. unfold default_load. rewrite Hm, !andb_true_r.
  destruct (is_bias name); [done|]. simpl in Hn. by rewrite Hn.
Qed.

End LoaderFacts.

Section ExpertTableFacts.
Import Loader.
Local Arguments String.append !_ _ / : simpl nomatch.

Lemma expert_table_entries (n : nat) (e : string * string * option nat * nat) :
  e ∈ expert_table n →
  ∃ id wn sh, id < n ∧ (wn, sh) ∈ expert_weight_names
              ∧ e = expert_entry id (wn, sh).
Proof.
  unfold expert_table. intros He%list_elem_of_In.
  apply in_flat_map in He as (id & Hid%in_seq & He).
  apply in_map_iff in He as ([wn sh] & <- & Hw%list_elem_of_In).
  exists id, wn, sh. split; [lia|done].
Qed.

Lemma expert_table_mem (n id : nat) (ws : string * option nat) :
  id < n → ws ∈ expert_weight_names → expert_entry id ws ∈ expert_table n.
Proof.
  intros Hid Hw. unfold expert_table. apply list_elem_of_In, in_flat_map.
  exists id. split; [apply in_seq; lia|].
  apply in_map. by apply list_elem_of_In.
Qed.

Lemma expert_pattern_ends_outside (id : nat) (wn : string) (sh : option nat) :
  (wn, sh) ∈ expert_weight_names →
  (expert_entry id (wn, sh)).1.1.2 ≠ ""
  ∧ ends_outside (expert_entry id (wn, sh)).1.1.2 ".bias" = true.
Proof.
  intros Hw. cbn [expert_entry fst snd]. split; [done|].
  unfold ends_outside.
  rewrite last_char_app; [|by destruct (PyStr.str_of_nat id)].
  rewrite last_char_app by done.
  unfold expert_weight_names in Hw.
  repeat (apply elem_of_cons in Hw as [[= -> _]|Hw]; [done|]).
  by apply elem_of_nil in Hw.
Qed.

Lemma expert_table_keeps_bias (n : nat) (e : string * string * option nat * nat)
    (s : string) :
  e ∈ expert_table n → is_bias s = true →
  is_bias (PyStr.replace e.1.1.2 e.1.1.1 s) = true.
Proof.
  intros (id & wn & sh & _ & Hw & ->)%expert_table_entries Hs.
  destruct (expert_pattern_ends_outside id wn sh Hw) as [Hne Hout].
  unfold is_bias in *. by apply replace_keeps_suffix.
Qed.

Lemma expert_params_mapping_cases (lm : option LinearMethod) (n : nat)
    (tier2 : list (string * string * option nat * nat)) :
  expert_params_mapping lm n = Ok tier2 →
  (tier2 = expert_table n
   ∧ (lm = None ∨ lm = Some (QuantizedLinearMethod true)))
  ∨ (tier2 = [] ∧ lm = Some (QuantizedLinearMethod false)).
Proof.
  unfold expert_params_mapping.
  destruct lm as [[|[|]]|]; intros [= <-]; auto.
Qed.

Lemma expert_table_nonempty (n : nat) : expert_table n ≠ [] ↔ 0 < n.
Proof.
  destruct n as [|n]; [split; [done|lia]|].
  split; [lia|]. intros _ H.
  assert (Hin := expert_table_mem (S n) 0 ("gate_proj", Some 0) ltac:(lia)
                   ltac:(by left)).
  rewrite H in Hin. by apply elem_of_nil in Hin.
Qed.

End ExpertTableFacts.

Section SkipRules.
Import Loader.
Context {W : Type}.

(** C8. An entry of the stream whose name ends in ".bias", or names an
    expert or the shared expert and is not rewritten by the expert table
    (which is empty when the experts are kept per rank), and none of whose
    destination names is in [params_dict], is skipped: no loader is
    called, no exception is raised, and the loading goes on with the
    calls made so far unchanged. *)
Theorem skip_rules_silent (params_dict : gmap string Param)
    (linear_method : option LinearMethod) (config : PretrainedConfig)
    (experts_mapping : list (string * string * option nat * nat))
    (name : string) (loaded_weight : W)
    (calls : list (LoaderCall W)) (rest : list (string * W)) :
  expert_params_mapping linear_method (num_experts config) = Ok experts_mapping →
  (∀ d, d ∈ destinations experts_mapping name → params_dict !! d = None) →
  (is_bias name = true
   ∨ (names_expert name = true
      ∧ no_expert_match experts_mapping
          (stacked_final stacked_params_mapping name) = true)) →
  load_entry params_dict experts_mapping name loaded_weight = Skipped
  ∧ load_stream params_dict experts_mapping calls ((name, loaded_weight) :: rest)
    = load_stream params_dict experts_mapping calls rest.
Proof.
  intros Htable Hmiss Hkind.
  assert (Hentry : load_entry params_dict experts_mapping name loaded_weight
                   = Skipped).
  2:{ split; [done|]. cbn [load_stream]. by rewrite Hentry. }
  unfold load_entry.
  destruct (PyStr.contains "rotary_emb.inv_freq" name); [done|].
  assert (Hok : ∀ e, e ∈ stacked_params_mapping → rewrite_ok e.1.2 e.1.1 = true).
  { intros e He. pose proof stacked_entries_ok as H.
    rewrite forallb_forall in H. apply H. by apply list_elem_of_In. }
  unfold destinations in Hmiss.
  destruct Hkind as [Hbias|[Hexp Hno]].
  - destruct (stacked_loop_exhausts params_dict (fun s => is_bias s = true)
                loaded_weight) with (mapping := stacked_params_mapping)
                                    (name := name) as [-> Hb1]; try done.
    { intros s ->. done. }
    { intros e s He Hs. apply rewrite_keeps_bias; auto. }
    { intros d Hd. apply Hmiss. apply elem_of_app. by left. }
    destruct (expert_loop_exhausts params_dict loaded_weight experts_mapping)
      with (name := stacked_final stacked_params_mapping name) as [-> Hb2];
      try done.
    { intros e s He Hs.
      apply expert_params_mapping_cases in Htable as [[-> _]|[-> _]].
      - by apply (expert_table_keeps_bias (num_experts config)).
      - by apply elem_of_nil in He. }
    { intros d Hd. apply Hmiss. rewrite !elem_of_app. right. by left. }
    apply default_load_skips; [by rewrite Hb2|].
    apply Hmiss. rewrite !elem_of_app. right. right. by left.
  - destruct (stacked_loop_exhausts params_dict (fun s => names_expert s = true)
                loaded_weight) with (mapping := stacked_params_mapping)
                                    (name := name) as [-> He1]; try done.
    { intros s ->. apply orb_true_r. }
    { intros e s He Hs. apply rewrite_keeps_expert; auto. }
    { intros d Hd. apply Hmiss. apply elem_of_app. by left. }
    destruct (expert_loop_no_match params_dict loaded_weight _ _ Hno)
      as (-> & Hfin & _).
    apply default_load_skips; [by rewrite He1, orb_true_r|].
    apply Hmiss. rewrite !elem_of_app. right. right. rewrite Hfin. by left.
Qed.

End SkipRules.

Section NoKeyError.
Import Loader.
Context {W : Type}.
Variable params_dict : gmap string Param.

Lemma lookup_guarded (name : string) (mk : Param → loop_exit W) (inv : string → Prop) :
  missing params_dict name = false →
  (∀ param, guarded_exit inv (mk param)) →
  guarded_exit inv match params_dict !! name with
                   | None => LoopRaise (KeyError name)
                   | Some param => mk param
                   end.
Proof.
  intros Hm Hmk. unfold missing in Hm. apply bool_decide_eq_false in Hm.
  destruct (params_dict !! name) as [param|]; [apply Hmk|done].
Qed.

Lemma stacked_loop_guarded (inv : string → Prop) (w : W) :
  (∀ s, inv s → is_bias s || names_expert s = true) →
  ∀ mapping : list (string * string * shard_id),
    (∀ e s, e ∈ mapping → inv s → inv (PyStr.replace e.1.2 e.1.1 s)) →
    ∀ name, inv name →
      guarded_exit inv (stacked_loop params_dict mapping name w).
Proof.
  intros Hinv. induction mapping as [|[[p o] sid] mapping IH];
    intros Hkeep name Hname; [done|].
  assert (Hrest : ∀ s, inv s → guarded_exit inv (stacked_loop params_dict mapping s w)).
  { intros s Hs. apply IH; [|done]. intros e s' He. apply Hkeep. by right. }
  cbn [stacked_loop].
  destruct (PyStr.contains o name); cbn [negb]; [|by apply Hrest].
  assert (Hname' : inv (PyStr.replace o p name)).
  { apply (Hkeep (p, o, sid)); [by left|done]. }
  specialize (Hinv _ Hname').
  destruct (missing params_dict (PyStr.replace o p name)) eqn:Hm.
  - rewrite !andb_true_r.
    destruct (is_bias (PyStr.replace o p name)); [by apply Hrest|].
    simpl in Hinv. rewrite Hinv. by apply Hrest.
  - rewrite !andb_false_r. apply lookup_guarded; [done|].
    intros param. by destruct (has_weight_loader param).
Qed.

Lemma expert_loop_guarded (w : W) :
  ∀ mapping : list (string * string * option nat * nat),
    (∀ e s, e ∈ mapping → is_bias s = true →
            is_bias (PyStr.replace e.1.1.2 e.1.1.1 s) = true) →
    ∀ name, is_bias name = true →
      guarded_exit (fun s => is_bias s = true)
                   (expert_loop params_dict mapping name w).
Proof.
  induction mapping as [|[[[p o] sid] eid] mapping IH];
    intros Hkeep name Hname; [done|].
  assert (Hrest : ∀ s, is_bias s = true →
            guarded_exit (fun s => is_bias s = true)
                         (expert_loop params_dict mapping s w)).
  { intros s Hs. apply IH; [|done]. intros e s' He. apply Hkeep. by right. }
  cbn [expert_loop].
  destruct (PyStr.contains o name); cbn [negb]; [|by apply Hrest].
  assert (Hname' : is_bias (PyStr.replace o p name) = true).
  { apply (Hkeep (p, o, sid, eid)); [by left|done]. }
  rewrite Hname'. cbn [andb].
  destruct (missing params_dict (PyStr.replace o p name)) eqn:Hm;
    [by apply Hrest|].
  apply lookup_guarded; [done|].
  intros param. by destruct (has_weight_loader param).
Qed.

Lemma failed_guarded (e : exn) :
  (∀ key, e ≠ KeyError key) → raises_key_error (Failed (W := W) e) = false.
Proof. intros H. destruct e; try done. by destruct (H key). Qed.

Lemma default_load_guarded (w : W) (name : string) :
  is_bias name || names_expert name = true →
  raises_key_error (default_load params_dict name w) = false.
Proof.
  intros Hn. unfold default_load.
  destruct (missing params_dict name) eqn:Hm.
  - rewrite !andb_true_r. destruct (is_bias name); [done|].
    simpl in Hn. by rewrite Hn.
  - rewrite !andb_false_r. unfold missing in Hm.
    apply bool_decide_eq_false in Hm.
    by destruct (params_dict !! name).
Qed.

(** X2. Whatever the parameters are, an entry whose name ends in ".bias",
    or (with an empty expert table) names an expert or the shared expert,
    never fails for a missing destination. *)
Theorem skipped_names_never_missing (linear_method : option LinearMethod)
    (config : PretrainedConfig)
    (experts_mapping : list (string * string * option nat * nat))
    (name : string) (loaded_weight : W) :
  expert_params_mapping linear_method (num_experts config) = Ok experts_mapping →
  (is_bias name = true ∨ (names_expert name = true ∧ experts_mapping = [])) →
  raises_key_error (load_entry params_dict experts_mapping name loaded_weight)
  = false.
Proof.
  intros Htable Hkind. unfold load_entry.
  destruct (PyStr.contains "rotary_emb.inv_freq" name); [done|].
  assert (Hok : ∀ e, e ∈ stacked_params_mapping → rewrite_ok e.1.2 e.1.1 = true).
  { intros e He. pose proof stacked_entries_ok as H.
    rewrite forallb_forall in H. apply H. by apply list_elem_of_In. }
  destruct Hkind as [Hbias|[Hexp ->]].
  - pose proof (stacked_loop_guarded (fun s => is_bias s = true) loaded_weight
                  ltac:(by intros s ->) stacked_params_mapping
                  ltac:(intros e s He Hs; apply rewrite_keeps_bias; auto)
                  name Hbias) as H1.
    destruct (stacked_loop _ _ _ _) as [c|name1|e]; simpl in H1;
      [done| |by apply failed_guarded].
    pose proof (expert_loop_guarded loaded_weight experts_mapping) as H2.
    specialize (H2 ltac:(intros e s He Hs;
      apply expert_params_mapping_cases in Htable as [[-> _]|[-> _]];
      [by apply (expert_table_keeps_bias (num_experts config))
      |by apply elem_of_nil in He]) name1 H1).
    destruct (expert_loop _ _ _ _) as [c|name2|e]; simpl in H2;
      [done| |by apply failed_guarded].
    apply default_load_guarded. by rewrite H2.
  - pose proof (stacked_loop_guarded (fun s => names_expert s = true) loaded_weight
                  ltac:(intros s ->; apply orb_true_r) stacked_params_mapping
                  ltac:(intros e s He Hs; apply rewrite_keeps_expert; auto)
                  name Hexp) as H1.
    destruct (stacked_loop _ _ _ _) as [c|name1|e]; simpl in H1;
      [done| |by apply failed_guarded].
    cbn [expert_loop]. apply default_load_guarded. by rewrite H1, orb_true_r.
Qed.

End NoKeyError.

Lemma skipped_names_never_missing_witness :
  raises_key_error
    (Loader.load_entry params_rank (Loader.expert_table 8)
       "model.layers.0.mlp.experts.5.gate_proj.bias" 7) = false
  ∧ raises_key_error
      (Loader.load_entry params_rank []
         "model.layers.0.mlp.shared_expert.down_proj.weight" 7) = false.
Proof.
  split.
  - apply (skipped_names_never_missing params_rank None config_8);
      [reflexivity|left; reflexivity].
  - apply (skipped_names_never_missing params_rank
             (Some (QuantizedLinearMethod false)) config_8);
      [reflexivity|right; split; reflexivity].
Defined.

Lemma skip_rules_silent_witness :
  (Loader.load_entry params_rank [] "model.layers.0.mlp.gate_proj.bias" 7
   = Loader.Skipped
   ∧ Loader.load_stream params_rank [] []
       [("model.layers.0.mlp.gate_proj.bias", 7)]
     = Loader.load_stream params_rank [] [] [])
  ∧ (Loader.load_entry params_rank []
       "model.layers.0.mlp.experts.5.gate_proj.weight" 7
     = Loader.Skipped
     ∧ Loader.load_stream params_rank [] []
         [("model.layers.0.mlp.experts.5.gate_proj.weight", 7)]
       = Loader.load_stream params_rank [] [] []).
Proof.
  split.
  - apply (skip_rules_silent params_rank (Some (QuantizedLinearMethod false))
             config_8 []); [reflexivity| |left; reflexivity].
    intros d Hd.
    assert (Hdest : destinations [] "model.layers.0.mlp.gate_proj.bias"
                    = ["model.layers.0.mlp.gate_up_proj.bias";
                       "model.layers.0.mlp.gate_up_proj.bias"])
      by (vm_compute; reflexivity).
    rewrite Hdest in Hd.
    repeat (apply elem_of_cons in Hd as [->|Hd]; [vm_compute; reflexivity|]).
    by apply elem_of_nil in Hd.
  - apply (skip_rules_silent params_rank (Some (QuantizedLinearMethod false))
             config_8 []); [reflexivity| |right; split; reflexivity].
    intros d Hd.
    assert (Hdest : destinations [] "model.layers.0.mlp.experts.5.gate_proj.weight"
                    = ["model.layers.0.mlp.experts.5.gate_proj.weight"])
      by (vm_compute; reflexivity).
    rewrite Hdest in Hd.
    repeat (apply elem_of_cons in Hd as [->|Hd]; [vm_compute; reflexivity|]).
    by apply elem_of_nil in Hd.
Defined.

Section TableFacts.
Import Loader.
Context {W : Type}.

(** C4, as the code has it. The expert table is non-empty exactly when no
    linear method is given or the quantization backend supports fused MoE
    (and there is at least one expert); without fused MoE support it is
    empty; when non-empty it holds, for every expert and each of its three
    projections, the entry that rewrites the per-expert name to w1 or w2
    with the expert id; and a name in which no pattern of the stacked
    table and of the expert table occurs goes to the default load, under
    its own name, as a whole tensor without shard or expert id. *)
Theorem expert_table_active_iff_fused :
  (∀ lm n tier2,
     expert_params_mapping lm n = Ok tier2 →
     (tier2 ≠ [] ↔ (lm = None ∨ lm = Some (QuantizedLinearMethod true)) ∧ 0 < n))
  ∧ (∀ n, expert_params_mapping (Some (QuantizedLinearMethod false)) n = Ok [])
  ∧ (∀ lm n tier2 id ws,
       expert_params_mapping lm n = Ok tier2 → tier2 ≠ [] →
       id < n → ws ∈ expert_weight_names → expert_entry id ws ∈ tier2)
  ∧ (∀ (params_dict : gmap string Param) tier2 name (w : W),
       PyStr.contains "rotary_emb.inv_freq" name = false →
       no_stacked_match name = true →
       no_expert_match tier2 name = true →
       load_entry params_dict tier2 name w = default_load params_dict name w)
  ∧ (∀ (params_dict : gmap string Param) name (w : W) c,
       default_load params_dict name w = Loaded c →
       call_param c = name ∧ call_weight c = w
       ∧ call_shard c = None ∧ call_expert c = None
       ∧ is_Some (params_dict !! name)).
Proof.
  split; [|split; [|split; [|split]]].
  - intros lm n tier2 H.
    apply expert_params_mapping_cases in H as [[-> Hlm]|[-> ->]].
    + rewrite expert_table_nonempty. tauto.
    + split; [done|]. intros [[?|?] _]; done.
  - done.
  - intros lm n tier2 id ws H Hne Hid Hws.
    apply expert_params_mapping_cases in H as [[-> _]|[-> _]]; [|done].
    by apply expert_table_mem.
  - intros params_dict tier2 name w Hrot Hs He. unfold load_entry.
    rewrite Hrot.
    destruct (stacked_loop_no_match params_dict w name stacked_params_mapping Hs)
      as (-> & _ & _).
    destruct (expert_loop_no_match params_dict w name tier2 He) as (-> & _ & _).
    done.
  - intros params_dict name w c. unfold default_load.
    repeat case_match; intros [= <-]; simpl; eauto 10.
Qed.

End TableFacts.

(** C4, as stated, fails: with a quantization backend that does not
    support fused MoE the expert table of a model with 60 experts is
    empty. *)
Lemma expert_table_empty_without_fused :
  Loader.expert_params_mapping (Some (QuantizedLinearMethod false)) 60 = Ok [].
Proof. reflexivity. Qed.

Lemma expert_table_active_iff_fused_witness :
  (∃ tier2, Loader.expert_params_mapping (Some (QuantizedLinearMethod true)) 60
            = Ok tier2
            ∧ tier2 ≠ []
            ∧ Loader.expert_entry 59 ("down_proj", None) ∈ tier2)
  ∧ Loader.load_entry params_rank [] "model.norm.weight" 7
    = Loader.default_load params_rank "model.norm.weight" 7.
Proof.
  destruct (expert_table_active_iff_fused (W := nat))
    as (Hiff & _ & Hmem & Hdefault & _).
  split.
  - eexists. split; [reflexivity|].
    assert (Hne : Loader.expert_table 60 ≠ []).
    { apply (Hiff (Some (QuantizedLinearMethod true)) 60); [reflexivity|].
      split; [by right|lia]. }
    split; [exact Hne|].
    apply (Hmem (Some (QuantizedLinearMethod true)) 60); [reflexivity|exact Hne|lia|].
    apply list_elem_of_In. simpl. tauto.
  - apply Hdefault; reflexivity.
Defined.

(** ** The experts that a rank builds *)

Section InitFacts.

Lemma lookup_map_seq_decide (P : nat → Prop) `{∀ i, Decision (P i)} (n idx : nat) :
  idx < n →
  map (fun i => bool_decide (P i)) (seq 0 n) !! idx = Some (bool_decide (P idx)).
Proof.
  intros Hlt. rewrite list_lookup_fmap, lookup_seq_lt by done. reflexivity.
Qed.

(** X4. A block that [Qwen2MoeSparseMoeBlock.__init__] returns keeps the
    rank, the world size and the number of experts, with at most as many
    ranks as experts. Without fused MoE the rank owns the contiguous,
    non-empty range of experts that starts at [shard_start] and has
    [shard_size] elements, the module list has one entry per expert, and
    the entry is an expert MLP exactly on the owned range: every owned
    index is in range and is not [None]. Otherwise the fused weights are
    built. *)
Theorem init_builds_owned_experts (rank tp_size : nat)
    (config : PretrainedConfig) (lm : option LinearMethod)
    (blk : MoeInit.SparseMoeBlock) :
  MoeInit.init rank tp_size config lm = Ok blk →
  let n := num_experts config in
  let start := shard_start n tp_size rank in
  let size := shard_size n tp_size rank in
  MoeInit.rank blk = rank ∧ MoeInit.tp_size blk = tp_size
  ∧ MoeInit.n_routed_experts blk = n ∧ tp_size ≤ n
  ∧ match MoeInit.routed blk with
    | MoeInit.LocalExperts expert_indicies experts =>
        MoeInit.local_experts_mode (default UnquantizedLinearMethod lm) = true
        ∧ rank < tp_size
        ∧ expert_indicies = seq start size
        ∧ 0 < size ∧ start + size ≤ n
        ∧ length experts = n
        ∧ (∀ idx, idx < n →
             experts !! idx = Some (bool_decide (start ≤ idx < start + size)))
        ∧ (∀ idx, idx ∈ expert_indicies → experts !! idx = Some true)
    | MoeInit.FusedExperts =>
        MoeInit.local_experts_mode (default UnquantizedLinearMethod lm) = false
    end.
Proof.
  intros Hinit n start size. unfold MoeInit.init in Hinit. fold n in Hinit.
  destruct (Nat.ltb_spec n tp_size) as [|Hle]; [discriminate|].
  destruct (MoeInit.shared_expert_init config) as [shared|]; [|discriminate].
  cbn [bind] in Hinit.
  destruct (MoeInit.local_experts_mode _) eqn:Hmode.
  - unfold Partition.expert_indicies in Hinit.
    destruct (Partition.array_split (seq 0 n) tp_size) as [parts|] eqn:Hsplit;
      [|discriminate].
    cbn [bind] in Hinit. unfold getitem in Hinit.
    destruct (parts !! rank) as [s|] eqn:Hs; [|discriminate].
    destruct (array_split_lookup n tp_size parts rank s Hsplit Hs) as [Hr ->].
    fold start size in Hinit.
    assert (Hsize : 0 < size) by (apply shard_size_pos; lia).
    assert (Hend : start + size ≤ n).
    { unfold start, size. rewrite <- shard_start_succ.
      rewrite <- (shard_start_last n tp_size) at 2 by lia.
      apply shard_start_mono. lia. }
    assert (Hmem : ∀ idx, idx ∈ seq start size ↔ start ≤ idx < start + size).
    { intros idx. apply elem_of_seq. }
    destruct (seq start size) as [|i0 rest] eqn:Hseq.
    { apply (f_equal length) in Hseq. rewrite length_seq in Hseq.
      simpl in Hseq. lia. }
    injection Hinit as <-. cbn [MoeInit.rank MoeInit.tp_size
      MoeInit.n_routed_experts MoeInit.routed].
    repeat split; try done.
    + by rewrite length_map, length_seq.
    + intros idx Hidx.
      rewrite (lookup_map_seq_decide (fun i => i ∈ i0 :: rest)) by done.
      f_equal. apply bool_decide_ext, Hmem.
    + intros idx Hin.
      assert (idx < n) by (apply Hmem in Hin; lia).
      rewrite (lookup_map_seq_decide (fun i => i ∈ i0 :: rest)) by done.
      by rewrite bool_decide_eq_true_2.
  - injection Hinit as <-. cbn [MoeInit.rank MoeInit.tp_size
      MoeInit.n_routed_experts MoeInit.routed]. done.
Qed.

End InitFacts.

Lemma init_builds_owned_experts_witness :
  ∃ blk,
    MoeInit.init 2 3 config_8 (Some (QuantizedLinearMethod false)) = Ok blk
    ∧ MoeInit.routed blk
      = MoeInit.LocalExperts [6; 7]
          [false; false; false; false; false; false; true; true]
    ∧ MoeInit.rank blk = 2 ∧ MoeInit.tp_size blk = 3
    ∧ MoeInit.n_routed_experts blk = 8 ∧ 3 ≤ 8
    ∧ match MoeInit.routed blk with
      | MoeInit.LocalExperts expert_indicies experts =>
          MoeInit.local_experts_mode
            (default UnquantizedLinearMethod (Some (QuantizedLinearMethod false)))
          = true
          ∧ 2 < 3
          ∧ expert_indicies = seq (shard_start 8 3 2) (shard_size 8 3 2)
          ∧ 0 < shard_size 8 3 2
          ∧ shard_start 8 3 2 + shard_size 8 3 2 ≤ 8
          ∧ length experts = 8
          ∧ (∀ idx, idx < 8 →
               experts !! idx
               = Some (bool_decide (shard_start 8 3 2 ≤ idx
                                    < shard_start 8 3 2 + shard_size 8 3 2)))
          ∧ (∀ idx, idx ∈ expert_indicies → experts !! idx = Some true)
      | MoeInit.FusedExperts =>
          MoeInit.local_experts_mode
            (default UnquantizedLinearMethod (Some (QuantizedLinearMethod false)))
          = false
      end.
Proof.
  eexists. split; [vm_compute; reflexivity|]. split; [reflexivity|].
  apply (init_builds_owned_experts 2 3 config_8
           (Some (QuantizedLinearMethod false))).
  vm_compute. reflexivity.
Defined.

(** ** The constructor and the loader agree on the layout of the experts *)

Lemma init_routed_mode (rank tp_size : nat) (config : PretrainedConfig)
    (lm : option LinearMethod) (blk : MoeInit.SparseMoeBlock) :
  MoeInit.init rank tp_size config lm = Ok blk →
  MoeInit.local_experts_mode (default UnquantizedLinearMethod lm)
  = match MoeInit.routed blk with
    | MoeInit.LocalExperts _ _ => true
    | MoeInit.FusedExperts => false
    end.
Proof.
  unfold MoeInit.init. case_match; [discriminate|].
  destruct (MoeInit.shared_expert_init config); [|discriminate]. cbn [bind].
  destruct (MoeInit.local_experts_mode _).
  - destruct (Partition.expert_indicies _ _ _) as [[|i0 rest]|];
      try discriminate.
    cbn [bind]. by intros [= <-].
  - by intros [= <-].
Qed.

(** X5. For a linear method with which both the constructor of the
    block and [load_weights] go through, the loader has the expert table,
    which sends the weights of the experts to [w1] and [w2], exactly when
    the constructor built the fused [w1] and [w2]; when the constructor
    built the experts of the rank one by one, the table is empty and the
    weights of the experts are loaded under their own names. *)
Theorem loader_table_matches_init (rank tp_size : nat)
    (config : PretrainedConfig) (lm : option LinearMethod)
    (blk : MoeInit.SparseMoeBlock)
    (tier2 : list (string * string * option nat * nat)) :
  MoeInit.init rank tp_size config lm = Ok blk →
  Loader.expert_params_mapping lm (num_experts config) = Ok tier2 →
  match MoeInit.routed blk with
  | MoeInit.FusedExperts => tier2 = Loader.expert_table (num_experts config)
  | MoeInit.LocalExperts _ _ => tier2 = []
  end.
Proof.
  intros Hinit Htab. apply init_routed_mode in Hinit.
  destruct (MoeInit.routed blk); destruct lm as [[|[]]|];
    simpl in *; congruence.
Qed.

Lemma loader_table_matches_init_witness :
  ∃ blk tier2,
    MoeInit.init 2 3 config_8 (Some (QuantizedLinearMethod false)) = Ok blk
    ∧ Loader.expert_params_mapping (Some (QuantizedLinearMethod false))
        (num_experts config_8) = Ok tier2
    ∧ match MoeInit.routed blk with
      | MoeInit.FusedExperts => tier2 = Loader.expert_table (num_experts config_8)
      | MoeInit.LocalExperts _ _ => tier2 = []
      end.
Proof.
  eexists _, _. split; [vm_compute; reflexivity|]. split; [reflexivity|].
  apply (loader_table_matches_init 2 3 config_8
           (Some (QuantizedLinearMethod false))); reflexivity.
Defined.

(** ** The activation of the configuration *)

(** X6. The constructor of the block looks at [hidden_act] only to
    build the shared expert. Without shared expert
    ([shared_expert_intermediate_size] is 0) the activation of the
    configuration plays no part: the constructor returns or raises the
    same with any other name in its place. And a block that the
    constructor returns has a shared expert exactly when
    [shared_expert_intermediate_size] is positive, in which case the
    activation of the configuration is silu. *)
Theorem init_activation_only_for_shared_expert (rank tp_size : nat)
    (config : PretrainedConfig) (lm : option LinearMethod) :
  (shared_expert_intermediate_size config = 0 →
   ∀ act, MoeInit.init rank tp_size (with_hidden_act config act) lm
          = MoeInit.init rank tp_size config lm)
  ∧ (∀ blk, MoeInit.init rank tp_size config lm = Ok blk →
       MoeInit.has_shared_expert blk
       = (0 <? shared_expert_intermediate_size config)
       ∧ (0 < shared_expert_intermediate_size config →
          hidden_act config = "silu")).
Proof.
  split.
  - intros H0 act. unfold MoeInit.init, MoeInit.shared_expert_init.
    cbn [with_hidden_act num_experts shared_expert_intermediate_size
         num_experts_per_tok]. by rewrite H0.
  - intros blk. unfold MoeInit.init.
    destruct (num_experts config <? tp_size); [discriminate|].
    unfold MoeInit.shared_expert_init, MoeInit.Qwen2MoeMLP_init.
    destruct (Nat.ltb_spec 0 (shared_expert_intermediate_size config))
      as [Hpos|Hzero].
    + destruct (String.eqb_spec (hidden_act config) "silu") as [Hact|_];
        [|discriminate].
      simpl. destruct (MoeInit.local_experts_mode _).
      * destruct (Partition.expert_indicies _ _ _) as [[|i l]|];
          [discriminate| |discriminate].
        simpl. intros Hblk. injection Hblk as <-. done.
      * intros Hblk. injection Hblk as <-. done.
    + simpl. destruct (MoeInit.local_experts_mode _).
      * destruct (Partition.expert_indicies _ _ _) as [[|i l]|];
          [discriminate| |discriminate].
        simpl. intros Hblk. injection Hblk as <-. split; [done|lia].
      * intros Hblk. injection Hblk as <-. split; [done|lia].
Qed.

(** ** The shape of the output of the mixture-of-experts block *)

Lemma bind_ok_inv {A B} (m : result A) (k : A → result B) (y : B) :
  bind m k = Ok y → ∃ a, m = Ok a ∧ k a = Ok y.
Proof. destruct m as [a|e]; [|discriminate]. intros Hk. by exists a. Qed.

Lemma chunks_length {A} (c n : nat) : ∀ l : list A,
  length (Tensor.chunks c n l) = n.
Proof. induction n as [|n IH]; intros l; simpl; [done|]. by rewrite IH. Qed.

Lemma view_2d_shape {A} (n c : nat) (m y : Tensor.Mat A) :
  Tensor.view_2d n c m = Ok y → Tensor.nrows y = n ∧ Tensor.ncols y = c.
Proof.
  unfold Tensor.view_2d. case_match; [|discriminate]. intros [= <-].
  unfold Tensor.nrows. simpl. by rewrite chunks_length.
Qed.

Section WfFacts.
Import Tensor.
Context {A B C : Type}.

Lemma Forall_expand (P : A → Prop) (n : nat) (l : list A) :
  Forall P l → Forall P (expand n l).
Proof.
  intros Hl. unfold expand. destruct (length l =? n); [done|].
  destruct l as [|a [|b l]]; [done| |done].
  apply Forall_replicate. by apply Forall_inv in Hl.
Qed.

(** A row of the width of either operand is expanded to the width of
    the broadcast. *)
Lemma expand_length_l (na nb c : nat) (r : list A) :
  bcast_dim na nb = Ok c → length r = na → length (expand c r) = c.
Proof.
  unfold bcast_dim. intros Hc Hr.
  destruct (Nat.eqb_spec na nb) as [->|Hne].
  { injection Hc as <-. by rewrite expand_same. }
  destruct (Nat.eqb_spec nb 1) as [->|Hb].
  { injection Hc as <-. by rewrite expand_same. }
  destruct (Nat.eqb_spec na 1) as [->|Ha]; [|discriminate].
  injection Hc as <-. destruct r as [|x [|y r]]; try discriminate.
  by rewrite expand_singleton, length_replicate.
Qed.

Lemma expand_length_r (na nb c : nat) (r : list A) :
  bcast_dim na nb = Ok c → length r = nb → length (expand c r) = c.
Proof.
  unfold bcast_dim. intros Hc Hr.
  destruct (Nat.eqb_spec na nb) as [->|Hne].
  { injection Hc as <-. by rewrite expand_same. }
  destruct (Nat.eqb_spec nb 1) as [->|Hb].
  { injection Hc as <-. destruct r as [|x [|y r]]; try discriminate.
    by rewrite expand_singleton, length_replicate. }
  destruct (Nat.eqb_spec na 1) as [->|Ha]; [|discriminate].
  injection Hc as <-. by rewrite expand_same.
Qed.

Lemma Forall_zip_with_both (P : A → Prop) (Q : B → Prop) (R : C → Prop)
    (g : A → B → C) (la : list A) (lb : list B) :
  (∀ x y, P x → Q y → R (g x y)) →
  Forall P la → Forall Q lb → Forall R (zip_with g la lb).
Proof.
  intros Hg Hla. revert lb.
  induction Hla as [|x la Hx _ IH]; intros lb Hlb; [done|].
  destruct Hlb as [|y lb Hy Hlb]; [done|]. simpl.
  constructor; [by apply Hg|by apply IH].
Qed.

End WfFacts.

Section WfTensor.
Import Tensor.
Context {A B C : Type}.

(** A broadcast of well-formed tensors is well-formed. *)
Lemma broadcast2_wf (f : A → B → C) (a : Mat A) (b : Mat B) (r : Mat C) :
  wf a → wf b → broadcast2 f a b = Ok r → wf r.
Proof.
  intros Ha Hb. unfold broadcast2.
  destruct (bcast_dim (ncols a) (ncols b)) as [c|] eqn:Hc; [|discriminate].
  destruct (bcast_dim (nrows a) (nrows b)) as [n|]; [|discriminate].
  simpl. intros Hr. injection Hr as <-. unfold wf. simpl.
  apply (Forall_zip_with_both (fun ra => length (expand c ra) = c)
                              (fun rb => length (expand c rb) = c)).
  - intros ra rb Hra Hrb. rewrite length_zip_with. lia.
  - apply Forall_expand. eapply Forall_impl; [exact Ha|].
    intros ra Hra. by apply (expand_length_l _ _ _ _ Hc).
  - apply Forall_expand. eapply Forall_impl; [exact Hb|].
    intros rb Hrb. by apply (expand_length_r _ _ _ _ Hc).
Qed.

Lemma wf_map_mat (h : A → B) (m : Mat A) : wf m → wf (map_mat h m).
Proof.
  unfold wf, map_mat. simpl. intros Hm. rewrite Forall_map.
  eapply Forall_impl; [exact Hm|]. intros r Hr. simpl. by rewrite length_map.
Qed.

Lemma concat_length_wf (c : nat) (rs : list (list A)) :
  Forall (fun r => length r = c) rs → length (concat rs) = length rs * c.
Proof.
  induction 1 as [|r rs Hr _ IH]; [done|]. simpl.
  rewrite length_app, IH, Hr. lia.
Qed.

Lemma chunks_wf (c n : nat) : ∀ l : list A,
  n * c ≤ length l → Forall (fun r => length r = c) (chunks c n l).
Proof.
  induction n as [|n IH]; intros l Hl; simpl; [done|].
  constructor; [rewrite length_take; lia|].
  apply IH. rewrite length_drop. lia.
Qed.

(** The view of a well-formed tensor has the shape asked for. *)
Lemma view_2d_has_shape (n c : nat) (m y : Mat A) :
  wf m → view_2d n c m = Ok y → has_shape y n c.
Proof.
  intros Hm. unfold view_2d.
  destruct (Nat.eqb_spec (nrows m * ncols m) (n * c)) as [Heq|]; [|discriminate].
  intros Hy. injection Hy as <-.
  split; [unfold nrows; simpl; apply chunks_length|]. split; [done|].
  unfold wf. simpl. apply chunks_wf.
  rewrite (concat_length_wf (ncols m)) by done. unfold nrows in Heq. lia.
Qed.

End WfTensor.

Lemma inplace2_wf {A B} (f : A → B → A) (a : Tensor.Mat A) (b : Tensor.Mat B)
    (r : Tensor.Mat A) :
  Tensor.wf a → Tensor.wf b → Tensor.inplace2 f a b = Ok r → Tensor.wf r.
Proof.
  intros Ha Hb. unfold Tensor.inplace2. intros Hr.
  apply bind_ok_inv in Hr as (r' & Hr' & Hr).
  destruct (_ && _); [|discriminate]. injection Hr as <-.
  by apply (broadcast2_wf f a b).
Qed.

Section ForwardShape.
Import Tensor MoeForward.
Context {T : Type}.
Variables (zero one : T) (add mul : T → T → T) (silu sigmoid : T → T).
Variable fused_topk : Mat T → nat → bool → result (Mat T * Mat nat).
Variable tensor_model_parallel_all_reduce : Mat T → result (Mat T).

Local Abbreviation forward :=
  (forward zero one add mul silu sigmoid fused_topk
     tensor_model_parallel_all_reduce).

Lemma ExpertMLP_forward_wf (layer : ExpertMLP (T := T)) (x y : Mat T) :
  expert_keeps_wf layer → wf x →
  ExpertMLP_forward mul silu layer x = Ok y → wf y.
Proof.
  intros (Hg & Hu & Hd) Hx. unfold ExpertMLP_forward. intros Hy.
  apply bind_ok_inv in Hy as (gate_out & Hgate & Hy).
  apply bind_ok_inv in Hy as (up_out & Hup & Hy).
  apply bind_ok_inv in Hy as (cur & Hcur & Hy).
  apply (Hd cur y); [|done].
  apply (broadcast2_wf _ _ _ _ (wf_map_mat silu _ (Hg _ _ Hx Hgate))
           (Hu _ _ Hx Hup) Hcur).
Qed.

Lemma MLP_forward_wf (mlp : MLP (T := T)) (x y : Mat T) :
  mlp_keeps_wf mlp → wf x → MLP_forward mlp x = Ok y → wf y.
Proof.
  intros (Hg & Ha & Hd) Hx. unfold MLP_forward. intros Hy.
  apply bind_ok_inv in Hy as (gate_up & Hgate & Hy).
  apply bind_ok_inv in Hy as (act & Hact & Hy).
  apply (Hd act y); [|done]. apply (Ha gate_up act); [|done].
  by apply (Hg x gate_up).
Qed.

Lemma expert_weights_of_wf (routing_weights : Mat T)
    (selected_experts : Mat nat) (e : nat) (w : Mat T) :
  expert_weights_of zero one add mul routing_weights selected_experts e = Ok w →
  wf w.
Proof.
  unfold expert_weights_of. intros Hw.
  apply bind_ok_inv in Hw as (masked & _ & Hw). injection Hw as <-.
  unfold wf, sum_last_keepdim. simpl. rewrite Forall_map.
  by apply Forall_true.
Qed.

(** The accumulator of the loop over the experts stays well-formed. *)
Lemma local_experts_loop_wf (experts : list (option (ExpertMLP (T := T))))
    (hidden_states routing_weights : Mat T) (selected_experts : Mat nat) :
  (∀ e layer, experts !! e = Some (Some layer) → expert_keeps_wf layer) →
  wf hidden_states →
  ∀ (idxs : list nat) (acc : option (Mat T)) (final : Mat T),
    (∀ f, acc = Some f → wf f) →
    local_experts_loop zero one add mul silu experts hidden_states
      routing_weights selected_experts idxs acc = Ok (Some final) →
    wf final.
Proof.
  intros Hexperts Hhs.
  induction idxs as [|e idxs IH]; intros acc final Hacc; simpl.
  { intros Hf. injection Hf as ->. by apply Hacc. }
  intros Hloop.
  apply bind_ok_inv in Hloop as (expert_layer & Hget & Hloop).
  apply bind_ok_inv in Hloop as (ew & Hew & Hloop).
  apply bind_ok_inv in Hloop as (layer & Hlayer & Hloop).
  apply bind_ok_inv in Hloop as (out & Hout & Hloop).
  apply bind_ok_inv in Hloop as (cur & Hcur & Hloop).
  apply bind_ok_inv in Hloop as (acc' & Hacc' & Hloop).
  destruct expert_layer as [layer'|]; [|discriminate].
  injection Hlayer as ->.
  unfold getitem in Hget.
  destruct (experts !! e) as [o|] eqn:Hlook; [|discriminate].
  injection Hget as ->.
  assert (Hwcur : wf cur).
  { apply (inplace2_wf mul out ew); [|by eapply expert_weights_of_wf|done].
    eapply ExpertMLP_forward_wf; [by eapply Hexperts|exact Hhs|exact Hout]. }
  apply (IH (Some acc') final); [|exact Hloop].
  intros f Hf. injection Hf as <-.
  destruct acc as [f0|].
  - apply (inplace2_wf add f0 cur); [by apply Hacc|done..].
  - by injection Hacc' as <-.
Qed.

(** X7. Given a well-formed batch, layers that keep tensors well-formed
    and an all-reduce that does, whatever else the shared expert, the
    router and the experts return, [Qwen2MoeSparseMoeBlock.forward]
    either raises or returns a tensor of the shape
    [(num_tokens, hidden_dim)] of its input: that many rows, each of the
    hidden dimension. On an input whose hidden dimension is 0 it raises
    on its first line, the [view(-1, hidden_dim)], before any layer is
    called. *)
Theorem forward_keeps_shape (b : Block (T := T)) (hidden_states : Mat T) :
  wf hidden_states →
  block_keeps_wf b →
  keeps_wf tensor_model_parallel_all_reduce →
  (ncols hidden_states = 0 →
   forward b hidden_states
   = Raise (RuntimeError "cannot reshape tensor of 0 elements into shape [-1, 0]"))
  ∧ (∀ y, forward b hidden_states = Ok y →
          has_shape y (nrows hidden_states) (ncols hidden_states)
          ∧ ncols hidden_states ≠ 0).
Proof.
  intros Hhs (Hgate & Hsgate & Hshared & Hrouted) Hreduce. split.
  - intros H0. unfold MoeForward.forward, reshape_rows. cbn [mat].
    by rewrite H0.
  - intros y Hy. unfold MoeForward.forward in Hy.
    assert (Hne : ncols hidden_states ≠ 0).
    { unfold reshape_rows in Hy. cbn [mat] in Hy.
      destruct (Nat.eqb_spec (ncols hidden_states) 0); [discriminate|done]. }
    split; [|done].
    apply bind_ok_inv in Hy as (hs & Hhs' & Hy).
    assert (hs = hidden_states) as ->.
    { unfold reshape_rows in Hhs'. cbn [mat] in Hhs'.
      destruct (ncols hidden_states =? 0); [discriminate|].
      by injection Hhs' as <-. }
    apply bind_ok_inv in Hy as (shared_output & Hso & Hy).
    apply bind_ok_inv in Hy as (router_logits & Hrl & Hy).
    apply bind_ok_inv in Hy as (f1 & Hf1 & Hy).
    apply bind_ok_inv in Hy as (f2 & Hf2 & Hy).
    apply bind_ok_inv in Hy as (f3 & Hf3 & Hy).
    destruct f3 as [f|]; [|discriminate].
    apply (view_2d_has_shape _ _ f); [|exact Hy].
    assert (Hw1 : ∀ f, f1 = Some f → wf f).
    { intros f' ->. unfold routed_output in Hf1.
      destruct (MoeInit.local_experts_mode _).
      - apply bind_ok_inv in Hf1 as ([rw se] & _ & Hf1).
        destruct (routed b) as [idxs experts|]; [|discriminate].
        eapply local_experts_loop_wf; [exact Hrouted|exact Hhs| |exact Hf1].
        intros ? [=].
      - destruct (routed b) as [|apply_moe]; [discriminate|].
        apply bind_ok_inv in Hf1 as (out & Hout & Hf1).
        injection Hf1 as <-.
        eapply Hrouted; [exact Hhs| |exact Hout].
        by apply (Hgate hidden_states). }
    assert (Hw2 : ∀ f, f2 = Some f → wf f).
    { intros f' ->. destruct shared_output as [so|].
      - destruct f1 as [f1'|]; [|discriminate].
        apply bind_ok_inv in Hf2 as (r & Hr & Hf2). injection Hf2 as <-.
        apply (broadcast2_wf add f1' so); [by apply Hw1| |done].
        destruct (shared_expert b) as [mlp|]; [|discriminate].
        apply bind_ok_inv in Hso as (so0 & Hso0 & Hso).
        apply bind_ok_inv in Hso as (g & Hg & Hso).
        apply bind_ok_inv in Hso as (so1 & Hso1 & Hso).
        injection Hso as <-.
        apply (broadcast2_wf mul (map_mat sigmoid g) so0); [| |done].
        + apply wf_map_mat. by apply (Hsgate hidden_states).
        + eapply MLP_forward_wf; [by apply Hshared|exact Hhs|exact Hso0].
      - injection Hf2 as Hf2. by apply Hw1. }
    destruct (1 <? tp_size b).
    + destruct f2 as [f2'|]; [|discriminate].
      apply bind_ok_inv in Hf3 as (r & Hr & Hf3). injection Hf3 as <-.
      apply (Hreduce f2' r); [by apply Hw2|done].
    + injection Hf3 as Hf3. by apply Hw2.
Qed.

End ForwardShape.

Lemma forward_keeps_shape_witness :
  MoeForward.forward 0%Z 1%Z Z.add Z.mul MoeExample.silu MoeShared.sigmoid
    MoeExample.fused_topk (fun m => Ok m) MoeShared.block
    MoeExample.hidden_states
  = Ok (Tensor.mkMat 2 [[10; 20]; [6; 8]]%Z)
  ∧ Tensor.wf MoeExample.hidden_states
  ∧ block_keeps_wf MoeShared.block
  ∧ ∀ y,
      MoeForward.forward 0%Z 1%Z Z.add Z.mul MoeExample.silu MoeShared.sigmoid
        MoeExample.fused_topk (fun m => Ok m) MoeShared.block
        MoeExample.hidden_states = Ok y →
      has_shape y 2 2 ∧ 2 ≠ 0.
Proof.
  assert (Hid : keeps_wf (T := Z) (fun m => Ok m)).
  { intros m y Hm Hy. by injection Hy as <-. }
  assert (Hconst : ∀ c : Tensor.Mat Z,
            Tensor.wf c → keeps_wf (T := Z) (fun _ => Ok c)).
  { intros c Hc m y _ Hy. by injection Hy as <-. }
  assert (Hhs : Tensor.wf MoeExample.hidden_states) by repeat constructor.
  assert (Hexpert : ∀ c, expert_keeps_wf (MoeExample.expert c)).
  { intros c. split; [|split; [|exact Hid]].
    - intros m y Hm Hy. injection Hy as <-. by apply wf_map_mat.
    - intros m y Hm Hy. injection Hy as <-. by apply wf_map_mat. }
  assert (Hblock : block_keeps_wf MoeShared.block).
  { split; [apply Hconst; repeat constructor|].
    split; [apply Hconst; repeat constructor|]. split.
    - intros mlp Hmlp. injection Hmlp as <-. by repeat split.
    - simpl. intros e layer He.
      destruct e as [|[|[|[|e]]]]; simpl in He; try discriminate;
        injection He as <-; apply Hexpert. }
  split; [vm_compute; reflexivity|]. split; [exact Hhs|].
  split; [exact Hblock|].
  apply (proj2 (forward_keeps_shape 0%Z 1%Z Z.add Z.mul MoeExample.silu
                  MoeShared.sigmoid MoeExample.fused_topk (fun m => Ok m)
                  MoeShared.block MoeExample.hidden_states Hhs Hblock Hid)).
Defined.

(** ** The shared expert in the output of the block *)

Section GateFacts.
Import Tensor.
Context {A B : Type}.

Lemma chunks_concat (c : nat) (rs : list (list A)) :
  Forall (fun r => length r = c) rs →
  chunks c (length rs) (concat rs) = rs.
Proof.
  induction 1 as [|r rs Hr _ IH]; [done|]. simpl.
  rewrite take_app_length', drop_app_length' by done. by rewrite IH.
Qed.

Lemma view_2d_id (n c : nat) (f : Mat A) :
  has_shape f n c → view_2d n c f = Ok f.
Proof.
  intros (Hn & Hc & Hwf). unfold view_2d. rewrite Hn, Hc, Nat.eqb_refl.
  unfold nrows in Hn. rewrite <- Hn, chunks_concat by (by rewrite <- Hc).
  destruct f. simpl in *. by rewrite Hc.
Qed.

Lemma has_shape_map_mat (h : A → B) (m : Mat A) n c :
  has_shape m n c → has_shape (map_mat h m) n c.
Proof.
  intros (Hn & Hc & Hwf). unfold has_shape, nrows, wf, map_mat in *. simpl.
  rewrite length_map. split; [done|]. split; [done|].
  rewrite Forall_map. eapply Forall_impl; [exact Hwf|].
  intros r Hr. simpl. by rewrite length_map.
Qed.

Lemma entry_map_mat (h : A → B) (m : Mat A) n c t j d d' :
  has_shape m n c → t < n → j < c →
  entry d' (map_mat h m) t j = h (entry d m t j).
Proof.
  intros Hm Ht Hj.
  destruct (has_shape_row m n c t Hm Ht) as (r & Hr & Hr' & Hl).
  unfold entry. rewrite Hr'. unfold row, map_mat. simpl.
  rewrite list_lookup_fmap, Hr. simpl.
  destruct (lookup_lt_is_Some_2 r j ltac:(lia)) as [x Hx].
  by rewrite list_lookup_fmap, Hx.
Qed.

(** A column of gates times a matrix: row [t] is scaled by gate [t]. *)
Lemma broadcast2_gate (f : A → B → B) (G : Mat A) (b : Mat B) n c dg d :
  has_shape G n 1 → has_shape b n c →
  ∃ y, broadcast2 f G b = Ok y
       ∧ has_shape y n c
       ∧ ∀ t j, t < n → j < c →
           entry d y t j = f (entry dg G t 0) (entry d b t j).
Proof.
  intros HG Hb. pose proof HG as (HnG & HcG & HwG).
  pose proof Hb as (Hnb & Hcb & Hwb).
  unfold broadcast2. rewrite HcG, Hcb, HnG, Hnb, bcast_dim_same.
  replace (bcast_dim 1 c) with (Ok (A := nat) c).
  2: { unfold bcast_dim. destruct (Nat.eqb_spec 1 c) as [<-|]; [done|].
       destruct (Nat.eqb_spec c 1); [lia|done]. }
  cbn [bind]. rewrite !expand_same by done. eexists. split; [done|].
  assert (Hrow : ∀ t, t < n →
    ∃ g rb, rows G !! t = Some [g] ∧ rows b !! t = Some rb ∧ length rb = c
            ∧ entry dg G t 0 = g).
  { intros t Ht.
    destruct (has_shape_row G n 1 t HG Ht) as (rg & Hrg & Hrg' & Hlg).
    destruct (has_shape_row b n c t Hb Ht) as (rb & Hrb & _ & Hlb).
    destruct rg as [|g [|]]; try discriminate.
    exists g, rb. repeat split; try done. unfold entry. by rewrite Hrg'. }
  split; [split; [|split; [done|]]|].
  - unfold nrows in *. simpl. rewrite length_zip_with. lia.
  - unfold wf. simpl. rewrite Forall_lookup. intros t r Hr.
    apply lookup_zip_with_Some in Hr as (rg & rb & -> & Hrg & Hrb).
    assert (Ht : t < n) by (apply lookup_lt_Some in Hrb; unfold nrows in Hnb; lia).
    destruct (Hrow t Ht) as (g & rb' & Hg & Hrb' & Hl & _).
    rewrite Hrg in Hg. rewrite Hrb in Hrb'. simplify_eq.
    rewrite expand_singleton, (expand_same _ rb') by done.
    rewrite length_zip_with, length_replicate. lia.
  - intros t j Ht Hj.
    destruct (Hrow t Ht) as (g & rb & Hg & Hrb & Hl & ->).
    unfold entry at 1. unfold row. simpl.
    rewrite lookup_zip_with, Hg, Hrb. simpl.
    rewrite expand_singleton, (expand_same _ rb) by done.
    destruct (lookup_lt_is_Some_2 rb j ltac:(lia)) as [x Hx].
    rewrite ?lookup_zip_with, ?lookup_replicate_2, ?Hx by done. simpl.
    unfold entry, row. rewrite Hrb. simpl. by rewrite Hx.
Qed.

End GateFacts.

Section ForwardShared.
Import Tensor MoeForward.
Context {T : Type}.
Variables (zero one : T) (add mul : T → T → T) (silu sigmoid : T → T).
Variable fused_topk : Mat T → nat → bool → result (Mat T * Mat nat).
Variable tensor_model_parallel_all_reduce : Mat T → result (Mat T).

Local Abbreviation forward :=
  (forward zero one add mul silu sigmoid fused_topk
     tensor_model_parallel_all_reduce).

(** X8. On a batch of [N] tokens of hidden dimension [H], with a router
    and routed experts, fused or not, that give an output [f0] of the
    shape of the batch, [Qwen2MoeSparseMoeBlock.forward] returns, or gives
    to the all-reduce when there is more than one rank, [f0] itself for a
    block without shared expert and otherwise [f0] plus the output of the
    shared expert, each row of which is scaled by the sigmoid of the gate
    of its token. *)
Theorem forward_adds_gated_shared_expert (b : Block (T := T))
    (hidden_states router_logits f0 : Mat T) (N H : nat) :
  has_shape hidden_states N H → H ≠ 0 →
  gate b hidden_states = Ok router_logits →
  routed_output zero one add mul silu fused_topk b hidden_states router_logits
  = Ok (Some f0) →
  has_shape f0 N H →
  (shared_expert b = None →
   forward b hidden_states
   = if 1 <? tp_size b
     then let* r := tensor_model_parallel_all_reduce f0 in view_2d N H r
     else Ok f0)
  ∧ (∀ mlp shared g,
       shared_expert b = Some mlp →
       MLP_forward mlp hidden_states = Ok shared → has_shape shared N H →
       shared_expert_gate b hidden_states = Ok g → has_shape g N 1 →
       ∃ f, has_shape f N H
            ∧ (∀ t j, t < N → j < H →
                 entry zero f t j
                 = add (entry zero f0 t j)
                       (mul (sigmoid (entry zero g t 0))
                            (entry zero shared t j)))
            ∧ forward b hidden_states
              = if 1 <? tp_size b
                then let* r := tensor_model_parallel_all_reduce f in
                     view_2d N H r
                else Ok f).
Proof.
  intros Hhs HH Hgate Hrouted Hf0. pose proof Hhs as (HN & HHc & _).
  unfold MoeForward.forward, reshape_rows. cbn [mat].
  rewrite HN, HHc. destruct (Nat.eqb_spec H 0) as [|_]; [done|]. cbn [bind].
  split.
  - intros ->. cbn [bind]. rewrite Hgate. cbn [bind]. rewrite Hrouted.
    cbn [bind]. destruct (1 <? tp_size b).
    + by destruct (tensor_model_parallel_all_reduce f0).
    + cbn [bind]. by apply view_2d_id.
  - intros mlp shared g -> Hshared Hs Hg HgN. rewrite Hshared. cbn [bind].
    rewrite Hg. cbn [bind].
    destruct (broadcast2_gate mul (map_mat sigmoid g) shared N H zero zero
                (has_shape_map_mat sigmoid g N 1 HgN) Hs)
      as (so & -> & Hso & Hso_entry).
    cbn [bind]. rewrite Hgate. cbn [bind]. rewrite Hrouted. cbn [bind].
    rewrite (broadcast2_same add f0 so N H Hf0 Hso). cbn [bind].
    set (f := mkMat H (zip_with (zip_with add) (rows f0) (rows so))).
    assert (Hf : has_shape f N H) by (by apply has_shape_zip2).
    exists f. split; [done|]. split.
    + intros t j Ht Hj. unfold f.
      rewrite (entry_zip2 add f0 so N H t j zero zero zero) by done.
      rewrite Hso_entry by done.
      by rewrite (entry_map_mat sigmoid g N 1 t 0 zero zero) by (done || lia).
    + destruct (1 <? tp_size b).
      * by destruct (tensor_model_parallel_all_reduce f).
      * cbn [bind]. by apply view_2d_id.
Qed.

End ForwardShared.

Lemma forward_adds_gated_shared_expert_witness :
  MoeForward.forward 0%Z 1%Z Z.add Z.mul MoeExample.silu MoeShared.sigmoid
    MoeExample.fused_topk (fun m => Ok m) MoeShared.block
    MoeExample.hidden_states
  = Ok (Tensor.mkMat 2 [[10; 20]; [6; 8]]%Z)
  ∧ (MoeForward.shared_expert MoeShared.block = None →
     MoeForward.forward 0%Z 1%Z Z.add Z.mul MoeExample.silu MoeShared.sigmoid
       MoeExample.fused_topk (fun m => Ok m) MoeShared.block
       MoeExample.hidden_states
     = if 1 <? MoeForward.tp_size MoeShared.block
       then let* r := Ok (Tensor.mkMat 2 [[8; 16]; [0; 0]]%Z) in
            Tensor.view_2d 2 2 r
       else Ok (Tensor.mkMat 2 [[8; 16]; [0; 0]]%Z))
  ∧ (∀ mlp shared g,
       MoeForward.shared_expert MoeShared.block = Some mlp →
       MoeForward.MLP_forward mlp MoeExample.hidden_states = Ok shared →
       has_shape shared 2 2 →
       MoeForward.shared_expert_gate MoeShared.block MoeExample.hidden_states
       = Ok g →
       has_shape g 2 1 →
       ∃ f, has_shape f 2 2
            ∧ (∀ t j, t < 2 → j < 2 →
                 entry 0%Z f t j
                 = (entry 0%Z (Tensor.mkMat 2 [[8; 16]; [0; 0]]%Z) t j
                    + MoeShared.sigmoid (entry 0%Z g t 0)
                      * entry 0%Z shared t j)%Z)
            ∧ MoeForward.forward 0%Z 1%Z Z.add Z.mul MoeExample.silu
                MoeShared.sigmoid MoeExample.fused_topk (fun m => Ok m)
                MoeShared.block MoeExample.hidden_states
              = if 1 <? MoeForward.tp_size MoeShared.block
                then let* r := Ok f in Tensor.view_2d 2 2 r
                else Ok f).
Proof.
  split; [vm_compute; reflexivity|].
  apply (forward_adds_gated_shared_expert 0%Z 1%Z Z.add Z.mul MoeExample.silu
           MoeShared.sigmoid MoeExample.fused_topk (fun m => Ok m)
           MoeShared.block MoeExample.hidden_states MoeExample.router_logits
           (Tensor.mkMat 2 [[8; 16]; [0; 0]]%Z) 2 2).
  - repeat split; repeat constructor.
  - lia.
  - reflexivity.
  - vm_compute. reflexivity.
  - repeat split; repeat constructor.
Defined.

(** ** The loop over the checkpoint stream *)

Section StreamFacts.
Import Loader.
Context {W : Type}.
Variable params_dict : gmap string Param.

Local Abbreviation load_stream := (load_stream (W := W) params_dict).
Local Abbreviation load_entry := (load_entry (W := W) params_dict).

(** The calls made so far are kept in front of the new ones. *)
Lemma load_stream_calls (mapping : list (string * string * option nat * nat))
    (stream : list (string * W)) : ∀ calls,
  load_stream mapping calls stream
  = (calls ++ (load_stream mapping [] stream).1,
     (load_stream mapping [] stream).2).
Proof.
  induction stream as [|[name w] rest IH]; intros calls; simpl.
  { by rewrite app_nil_r. }
  destruct (load_entry mapping name w) as [|c|e]; simpl.
  - apply IH.
  - rewrite (IH (calls ++ [c])), (IH [c]). simpl. by rewrite <- app_assoc.
  - by rewrite app_nil_r.
Qed.

Lemma load_stream_app (mapping : list (string * string * option nat * nat))
    (s1 s2 : list (string * W)) : ∀ calls,
  load_stream mapping calls (s1 ++ s2)
  = match load_stream mapping calls s1 with
    | (calls1, None) => load_stream mapping calls1 s2
    | (calls1, Some e) => (calls1, Some e)
    end.
Proof.
  induction s1 as [|[name w] rest IH]; intros calls; simpl; [done|].
  destruct (load_entry mapping name w) as [|c|e]; [apply IH|apply IH|done].
Qed.

Lemma load_stream_length (mapping : list (string * string * option nat * nat))
    (stream : list (string * W)) :
  length (load_stream mapping [] stream).1 ≤ length stream.
Proof.
  induction stream as [|[name w] rest IH]; simpl; [done|].
  destruct (load_entry mapping name w) as [|c|e]; simpl; [lia| |lia].
  rewrite load_stream_calls. simpl. lia.
Qed.

(** X10. Loading the concatenation of two streams is loading the first
    and, if it raised nothing, the second, the loader calls of the second
    coming after those of the first: an exception stops the loading, the
    calls made before it stay, and no entry after it is looked at. At
    most one loader call is made per entry of the stream. *)
Theorem load_weights_app (linear_method : option LinearMethod)
    (config : PretrainedConfig) (s1 s2 : list (string * W)) :
  load_weights params_dict linear_method config (s1 ++ s2)
  = match load_weights params_dict linear_method config s1 with
    | (calls1, None) =>
        let '(calls2, e) := load_weights params_dict linear_method config s2 in
        (calls1 ++ calls2, e)
    | (calls1, Some e) => (calls1, Some e)
    end
  ∧ length (load_weights params_dict linear_method config s1).1 ≤ length s1.
Proof.
  unfold load_weights.
  destruct (expert_params_mapping linear_method (num_experts config))
    as [mapping|e]; [|split; [done|simpl; lia]].
  split; [|apply load_stream_length].
  rewrite load_stream_app.
  destruct (load_stream mapping [] s1) as [calls1 [e|]]; [done|].
  rewrite load_stream_calls. by destruct (load_stream mapping [] s2).
Qed.

Local Abbreviation sound_call := (sound_call (W := W) params_dict).
Local Abbreviation sound_exit := (sound_exit (W := W) params_dict).

Lemma stacked_loop_sound (w : W) :
  ∀ (mapping : list (string * string * shard_id)) name,
    sound_exit w (stacked_loop params_dict mapping name w).
Proof.
  induction mapping as [|[[param_name weight_name] sid] rest IH]; intros name;
    simpl; [done|].
  destruct (negb _); [apply IH|].
  destruct (_ && _); [apply IH|].
  destruct (_ && _); [apply IH|].
  destruct (params_dict !! _) as [param|] eqn:Hp.
  - destruct (has_weight_loader param) eqn:Hl; simpl.
    + split; [|done]. exists param. simpl. rewrite Hl. by repeat split.
    + done.
  - done.
Qed.

Lemma expert_loop_sound (w : W) :
  ∀ (mapping : list (string * string * option nat * nat)) name,
    sound_exit w (expert_loop params_dict mapping name w).
Proof.
  induction mapping as [|[[[param_name weight_name] sid] expert_id] rest IH];
    intros name; simpl; [done|].
  destruct (negb _); [apply IH|].
  destruct (_ && _); [apply IH|].
  destruct (params_dict !! _) as [param|] eqn:Hp.
  - destruct (has_weight_loader param) eqn:Hl; simpl.
    + split; [|done]. exists param. simpl. rewrite Hl. by repeat split.
    + done.
  - done.
Qed.

Lemma load_entry_sound (mapping : list (string * string * option nat * nat))
    (name : string) (w : W) :
  match load_entry mapping name w with
  | Skipped => True
  | Loaded c => sound_call c ∧ call_weight c = w
  | Failed _ => True
  end.
Proof.
  unfold Loader.load_entry. destruct (PyStr.contains _ name); [done|].
  pose proof (stacked_loop_sound w stacked_params_mapping name) as Hs.
  destruct (stacked_loop _ _ _ _) as [c|name1|e]; [done| |done].
  pose proof (expert_loop_sound w mapping name1) as He.
  destruct (expert_loop _ _ _ _) as [c|name2|e]; [done| |done].
  unfold default_load.
  destruct (_ && _); [done|]. destruct (_ && _); [done|].
  destruct (params_dict !! name2) as [param|] eqn:Hp.
  - split; [|done]. exists param. simpl. split; [done|]. split; [done|].
    by destruct (has_weight_loader param).
  - done.
Qed.

Lemma load_stream_sound (mapping : list (string * string * option nat * nat))
    (stream : list (string * W)) :
  Forall sound_call (load_stream mapping [] stream).1
  ∧ map call_weight (load_stream mapping [] stream).1
      `sublist_of` map snd stream.
Proof.
  induction stream as [|[name w] rest (IH1 & IH2)]; simpl; [done|].
  pose proof (load_entry_sound mapping name w) as Hentry.
  destruct (load_entry mapping name w) as [|c|e]; simpl.
  - split; [done|]. by apply sublist_cons.
  - rewrite load_stream_calls. simpl. destruct Hentry as [Hc <-].
    split; [by constructor|]. by apply sublist_skip.
  - split; [done|]. apply sublist_nil_l.
Qed.

(** X11. Whatever the checkpoint holds, every loader call that
    [load_weights] makes writes to a parameter of the model, with the
    parameter's own [weight_loader] if it has one and otherwise with
    [default_weight_loader], without shard and expert; and the tensors
    passed are tensors of the stream, in the order of the stream, each
    used at most once. *)
Theorem load_weights_sound (linear_method : option LinearMethod)
    (config : PretrainedConfig) (stream : list (string * W)) :
  let '(calls, raised) := load_weights params_dict linear_method config stream in
  Forall sound_call calls
  ∧ map call_weight calls `sublist_of` map snd stream.
Proof.
  unfold load_weights.
  destruct linear_method as [[|fused]|]; simpl.
  - split; [done|]. apply sublist_nil_l.
  - destruct (load_stream_sound (if fused then expert_table (num_experts config)
                                 else []) stream) as (H1 & H2).
    by destruct (load_stream _ _ _) as [calls raised].
  - destruct (load_stream_sound (expert_table (num_experts config)) stream)
      as (H1 & H2).
    by destruct (load_stream _ _ _) as [calls raised].
Qed.

End StreamFacts.

(** ** Where the checkpoint names are loaded *)

Section OccurrenceFacts.
Local Arguments String.append !_ _ / : simpl nomatch.

Lemma str_app_inj_length (a b x y : string) :
  a +:+ x = b +:+ y → String.length a = String.length b → a = b ∧ x = y.
Proof.
  revert b. induction a as [|c a IH]; intros [|d b] Heq Hlen;
    try discriminate; simpl in *; [done|].
  injection Heq as -> Heq. injection Hlen as Hlen.
  destruct (IH b Heq Hlen) as [-> ->]. done.
Qed.

Lemma occurrences_spec (m s : string) : ∀ i k,
  k ∈ occurrences_from m s i
  ↔ ∃ a b, s = a +:+ m +:+ b ∧ k = i + String.length a.
Proof.
  induction s as [|c s IH]; intros i k; cbn [occurrences_from].
  - rewrite app_nil_r. split.
    + destruct (PyStr.is_prefix m "") eqn:Hp; [|by intros ?%elem_of_nil].
      intros ->%list_elem_of_singleton.
      apply prefix_inv in Hp as [r Hr]. exists "", r. simpl. split; [done|lia].
    + intros (a & b & Hs & ->). destruct a; [|discriminate].
      destruct m; [|discriminate]. simpl. rewrite Nat.add_0_r.
      by apply list_elem_of_singleton.
  - rewrite elem_of_app, IH. split.
    + intros [Hk|(a & b & -> & ->)].
      * destruct (PyStr.is_prefix m (String c s)) eqn:Hp; [|by apply elem_of_nil in Hk].
        apply list_elem_of_singleton in Hk as ->.
        apply prefix_inv in Hp as [r Hr]. exists "", r. simpl. split; [done|lia].
      * exists (String c a), b. simpl. split; [done|lia].
    + intros (a & b & Hs & ->). destruct a as [|d a].
      * left. simpl in Hs. rewrite Hs, prefix_app. cbn [String.length].
        rewrite Nat.add_0_r. by apply list_elem_of_singleton.
      * right. simpl in Hs. injection Hs as -> ->.
        exists a, b. simpl. split; [done|lia].
Qed.

(** A single occurrence fixes the decomposition of the string. *)
Lemma occurrences_unique (m pre t a b : string) :
  occurrences m (pre +:+ m +:+ t) = [String.length pre] →
  pre +:+ m +:+ t = a +:+ m +:+ b → a = pre ∧ b = t.
Proof.
  intros Hocc Heq.
  assert (Hin : 0 + String.length a ∈ occurrences m (pre +:+ m +:+ t)).
  { apply occurrences_spec. by exists a, b. }
  rewrite Hocc in Hin. apply list_elem_of_singleton in Hin. simpl in Hin.
  symmetry in Heq.
  destruct (str_app_inj_length _ _ _ _ Heq Hin) as [-> Hr].
  split; [done|].
  by destruct (str_app_inj_length m m b t Hr eq_refl).
Qed.

End OccurrenceFacts.

Section ReplaceOnce.
Local Arguments String.append !_ _ / : simpl nomatch.

Lemma replace_scan_skip (old new a t : string) :
  PyStr.replace_scan old new (String.length a) (a +:+ t)
  = PyStr.replace_scan old new 0 t.
Proof. induction a as [|c a IH]; simpl; [done|]. apply IH. Qed.

Lemma replace_scan_head (old new t : string) :
  old ≠ "" →
  PyStr.replace_scan old new 0 (old +:+ t)
  = new +:+ PyStr.replace_scan old new 0 t.
Proof.
  intros Hne. pose proof (prefix_app old t) as Hp.
  destruct old as [|c o']; [done|].
  rewrite str_app_cons in Hp |- *. cbn [PyStr.replace_scan]. rewrite Hp.
  f_equal. simpl String.length.
  replace (S (String.length o') - 1) with (String.length o') by lia.
  apply replace_scan_skip.
Qed.

(** The one occurrence of [old] is replaced, the rest is kept. *)
Lemma replace_unique (old new pre suf : string) :
  old ≠ "" →
  (∀ a b, pre +:+ old +:+ suf = a +:+ old +:+ b → a = pre ∧ b = suf) →
  PyStr.replace old new (pre +:+ old +:+ suf) = pre +:+ new +:+ suf.
Proof.
  intros old_nonempty Huniq. rewrite replace_nonempty by done.
  pose proof (old_length_pos old old_nonempty) as Hpos.
  rewrite (replace_scan_app old new old_nonempty); [|lia|].
  - rewrite (replace_scan_id old new pre).
    + f_equal. rewrite replace_scan_head by done. f_equal.
      apply replace_scan_id.
      intros t1 t2 ->. destruct (PyStr.is_prefix old t2) eqn:Hp; [|done].
      apply prefix_inv in Hp as [r ->].
      destruct (Huniq (pre +:+ old +:+ t1) r) as [Ha _].
      { by rewrite !str_app_assoc. }
      apply (f_equal String.length) in Ha.
      rewrite !str_length_app in Ha. lia.
    + intros t1 t2 ->. destruct (PyStr.is_prefix old t2) eqn:Hp; [|done].
      apply prefix_inv in Hp as [r ->].
      destruct (Huniq t1 (r +:+ old +:+ suf)) as [Ha _].
      { by rewrite !str_app_assoc. }
      apply (f_equal String.length) in Ha.
      rewrite !str_length_app in Ha. lia.
  - intros a1 a2 -> Ha2 Hp. apply prefix_inv in Hp as [r Hr].
    destruct (Huniq a1 r) as [Ha _].
    { by rewrite str_app_assoc, Hr. }
    apply (f_equal String.length) in Ha. rewrite str_length_app in Ha.
    destruct a2; [done|]. simpl in Ha. lia.
Qed.

End ReplaceOnce.

Section DigitFacts.
Local Arguments String.append !_ _ / : simpl nomatch.

Lemma string_of_uint_digits (d : Decimal.uint) :
  digits_only (DecimalString.NilEmpty.string_of_uint d) = true.
Proof. induction d as [|d IH|d IH|d IH|d IH|d IH|d IH|d IH|d IH|d IH|d IH]; done. Qed.

Lemma str_of_nat_digits (n : nat) : digits_only (PyStr.str_of_nat n) = true.
Proof. apply string_of_uint_digits. Qed.

(** [str] is injective on the non-negative integers. *)
Lemma str_of_nat_inj (n m : nat) :
  PyStr.str_of_nat n = PyStr.str_of_nat m → n = m.
Proof.
  intros Heq. apply DecimalNat.Unsigned.to_uint_inj.
  apply (f_equal DecimalString.NilEmpty.uint_of_string) in Heq.
  unfold PyStr.str_of_nat in Heq.
  rewrite !DecimalString.NilEmpty.usu in Heq. congruence.
Qed.

(** Two numbers followed by a dot are read off unambiguously. *)
Lemma digits_sep (d1 : string) : ∀ d2 x y,
  digits_only d1 = true → digits_only d2 = true →
  d1 +:+ "." +:+ x = d2 +:+ "." +:+ y → d1 = d2 ∧ x = y.
Proof.
  induction d1 as [|c1 d1 IH]; intros [|c2 d2] x y H1 H2 Heq; simpl in *.
  - by injection Heq as ->.
  - injection Heq as <- _. discriminate.
  - injection Heq as -> _. discriminate.
  - injection Heq as -> Heq.
    apply andb_true_iff in H1 as [_ H1]. apply andb_true_iff in H2 as [_ H2].
    destruct (IH d2 x y H1 H2 Heq) as [-> ->]. done.
Qed.

End DigitFacts.

Section Routes.
Import Loader.
Local Arguments String.append !_ _ / : simpl nomatch.
Context {W : Type}.
Variable params_dict : gmap string Param.

Lemma stacked_loop_skip (w : W) (name : string)
    (l2 : list (string * string * shard_id)) : ∀ l1,
  forallb (fun e : string * string * shard_id =>
             negb (PyStr.contains e.1.2 name)) l1 = true →
  stacked_loop params_dict (l1 ++ l2) name w
  = stacked_loop params_dict l2 name w.
Proof.
  induction l1 as [|[[p wn] sid] l1 IH]; intros Hall; [done|].
  simpl in Hall. apply andb_true_iff in Hall as [Hn Hall].
  simpl. rewrite Hn. by apply IH.
Qed.

Lemma expert_loop_skip (w : W) (name : string)
    (l2 : list (string * string * option nat * nat)) : ∀ l1,
  (∀ e, e ∈ l1 → PyStr.contains e.1.1.2 name = false) →
  expert_loop params_dict (l1 ++ l2) name w
  = expert_loop params_dict l2 name w.
Proof.
  induction l1 as [|[[[p wn] sid] id] l1 IH]; intros Hall; [done|].
  pose proof (Hall (p, wn, sid, id) ltac:(apply list_elem_of_here)) as Hn.
  simpl in Hn. simpl. rewrite Hn. simpl. apply IH. intros e He. apply Hall. by apply list_elem_of_further.
Qed.

Lemma present_not_missing (name : string) (param : Param) :
  params_dict !! name = Some param → missing params_dict name = false.
Proof. intros Hp. unfold missing. apply bool_decide_eq_false_2. by rewrite Hp. Qed.

Lemma stacked_patterns_nonempty (e : string * string * shard_id) :
  e ∈ stacked_params_mapping → e.1.2 ≠ "".
Proof.
  unfold stacked_params_mapping. rewrite !elem_of_cons, elem_of_nil.
  intros H. by repeat destruct H as [->|H].
Qed.

(** The loop over the stacked table goes to the entry whose weight name
    is the first to occur, and looks the rewritten name up. *)
Lemma stacked_loop_reaches (i : nat) (param_name weight_name : string)
    (sid : shard_id) (pre suf : string) (loaded_weight : W) :
  stacked_params_mapping !! i = Some (param_name, weight_name, sid) →
  forallb (fun e : string * string * shard_id =>
             negb (PyStr.contains e.1.2 (pre +:+ weight_name +:+ suf)))
          (take i stacked_params_mapping) = true →
  occurrences weight_name (pre +:+ weight_name +:+ suf) = [String.length pre] →
  stacked_loop params_dict stacked_params_mapping
    (pre +:+ weight_name +:+ suf) loaded_weight
  = let name := pre +:+ param_name +:+ suf in
    let rest := drop (S i) stacked_params_mapping in
    if is_bias name && missing params_dict name
    then stacked_loop params_dict rest name loaded_weight
    else if names_expert name && missing params_dict name
    then stacked_loop params_dict rest name loaded_weight
    else
      match params_dict !! name with
      | None => LoopRaise (KeyError name)
      | Some param =>
          if has_weight_loader param
          then Break {| call_param := name;
                        call_loader := ParamWeightLoader;
                        call_weight := loaded_weight;
                        call_shard := Some sid;
                        call_expert := None |}
          else LoopRaise (AttributeError "weight_loader")
      end.
Proof.
  intros Hi Hearlier Hocc.
  assert (Hne : weight_name ≠ "").
  { apply (stacked_patterns_nonempty (param_name, weight_name, sid)).
    by apply list_elem_of_lookup_2 in Hi. }
  rewrite <- (take_drop_middle _ _ _ Hi) at 1.
  rewrite stacked_loop_skip by done. cbn [stacked_loop].
  assert (Hc : PyStr.contains weight_name (pre +:+ weight_name +:+ suf) = true).
  { apply contains_spec. by eexists _, _. }
  rewrite Hc. cbn [negb].
  by rewrite replace_unique; [|done|intros a b; by apply occurrences_unique].
Qed.

(** X12. A checkpoint name in which the weight name of an entry of
    [stacked_params_mapping] occurs once, and in which no weight name of
    an earlier entry occurs, is looked up under the name with the weight
    name replaced by the parameter name of the entry; the later entries
    and the expert table play no part. If this destination is in
    [params_dict] it is loaded with its [weight_loader], the shard id of
    the entry and no expert id, and without [weight_loader] the body
    raises [AttributeError]; if it is not in [params_dict], and is
    neither a bias nor an expert name, the body raises [KeyError] with
    the rewritten name as key. *)
Theorem stacked_name_routes
    (experts_mapping : list (string * string * option nat * nat)) (i : nat)
    (param_name weight_name : string) (sid : shard_id) (pre suf : string)
    (loaded_weight : W) :
  stacked_params_mapping !! i = Some (param_name, weight_name, sid) →
  PyStr.contains "rotary_emb.inv_freq" (pre +:+ weight_name +:+ suf) = false →
  forallb (fun e : string * string * shard_id =>
             negb (PyStr.contains e.1.2 (pre +:+ weight_name +:+ suf)))
          (take i stacked_params_mapping) = true →
  occurrences weight_name (pre +:+ weight_name +:+ suf) = [String.length pre] →
  (∀ param,
     params_dict !! (pre +:+ param_name +:+ suf) = Some param →
     load_entry params_dict experts_mapping (pre +:+ weight_name +:+ suf)
       loaded_weight
     = if has_weight_loader param
       then Loaded {| call_param := pre +:+ param_name +:+ suf;
                      call_loader := ParamWeightLoader;
                      call_weight := loaded_weight;
                      call_shard := Some sid;
                      call_expert := None |}
       else Failed (AttributeError "weight_loader"))
  ∧ (params_dict !! (pre +:+ param_name +:+ suf) = None →
     is_bias (pre +:+ param_name +:+ suf) = false →
     names_expert (pre +:+ param_name +:+ suf) = false →
     load_entry params_dict experts_mapping (pre +:+ weight_name +:+ suf)
       loaded_weight
     = Failed (KeyError (pre +:+ param_name +:+ suf))).
Proof.
  intros Hi Hrot Hearlier Hocc.
  unfold load_entry. rewrite Hrot.
  rewrite (stacked_loop_reaches i param_name weight_name sid) by done.
  cbn zeta. split.
  - intros param Hdest.
    rewrite (present_not_missing _ _ Hdest), !andb_false_r, Hdest.
    by destruct (has_weight_loader param).
  - intros Hdest Hbias Hexpert. by rewrite Hbias, Hexpert, Hdest.
Qed.

End Routes.

Lemma stacked_name_routes_witness :
  Loader.load_entry params_rank (Loader.expert_table 8)
    "model.layers.0.self_attn.v_proj.weight" 7
  = Loader.Loaded
      {| Loader.call_param := "model.layers.0.self_attn.qkv_proj.weight";
         Loader.call_loader := Loader.ParamWeightLoader;
         Loader.call_weight := 7;
         Loader.call_shard := Some (Loader.ShardName "v");
         Loader.call_expert := None |}
  ∧ Loader.load_entry params_fused (Loader.expert_table 8)
      "model.layers.0.self_attn.v_proj.weight" 7
    = Loader.Failed (KeyError "model.layers.0.self_attn.qkv_proj.weight").
Proof.
  split.
  - refine (proj1 (stacked_name_routes params_rank (Loader.expert_table 8) 2
                     "qkv_proj" "v_proj" (Loader.ShardName "v")
                     "model.layers.0.self_attn." ".weight" 7 eq_refl eq_refl
                     eq_refl eq_refl)
              {| Loader.has_weight_loader := true |} _).
    vm_compute. reflexivity.
  - refine (proj2 (stacked_name_routes params_fused (Loader.expert_table 8) 2
                     "qkv_proj" "v_proj" (Loader.ShardName "v")
                     "model.layers.0.self_attn." ".weight" 7 eq_refl eq_refl
                     eq_refl eq_refl) _ _ _); reflexivity.
Defined.

Section WeightNames.
Import Loader.
Local Arguments String.append !_ _ / : simpl nomatch.

Lemma expert_weight_name_inj (wn wn' : string) (sh sh' : option nat)
    (b b' : string) :
  (wn, sh) ∈ expert_weight_names → (wn', sh') ∈ expert_weight_names →
  wn +:+ b = wn' +:+ b' → wn = wn' ∧ sh = sh'.
Proof.
  unfold expert_weight_names. rewrite !elem_of_cons, !elem_of_nil.
  intros H H' Heq.
  destruct H as [[= -> ->]|[[= -> ->]|[[= -> ->]|[]]]];
    destruct H' as [[= -> ->]|[[= -> ->]|[[= -> ->]|[]]]];
    simpl in Heq; try done; discriminate.
Qed.

End WeightNames.

Section ExpertRoutes.
Import Loader.
Context {W : Type}.
Variable params_dict : gmap string Param.
Variables (n E : nat) (wn : string) (sh : option nat) (pre suf : string).

Local Abbreviation pattern := ("experts." +:+ PyStr.str_of_nat E +:+ "." +:+ wn).
Local Abbreviation name :=
  (pre +:+ "experts." +:+ PyStr.str_of_nat E +:+ "." +:+ wn +:+ suf).

Hypothesis weight_name_ok : (wn, sh) ∈ expert_weight_names.
Hypothesis marker_once : occurrences "experts." name = [String.length pre].

(** A pattern of the table occurs in the name only if it is the pattern
    of this expert and this weight. *)
Lemma expert_pattern_occurs (e' : string * string * option nat * nat) :
  e' ∈ expert_table n →
  PyStr.contains e'.1.1.2 name = true →
  e' = expert_entry E (wn, sh).
Proof.
  intros (id' & wn' & sh' & _ & Hwn' & ->)%expert_table_entries Hc.
  cbn [expert_entry fst snd] in Hc.
  apply contains_spec in Hc as (a & b & Hab).
  rewrite !str_app_assoc in Hab.
  apply (occurrences_unique _ _ _ _ _ marker_once) in Hab as [_ Hb].
  apply digits_sep in Hb as [Hid Hrest]; [|apply str_of_nat_digits..].
  apply str_of_nat_inj in Hid. subst id'.
  destruct (expert_weight_name_inj _ _ _ _ _ _ Hwn' weight_name_ok Hrest)
    as [-> ->].
  done.
Qed.

Lemma pattern_once (a b : string) :
  pre +:+ pattern +:+ suf = a +:+ pattern +:+ b → a = pre ∧ b = suf.
Proof.
  rewrite !str_app_assoc. intros Hab.
  apply (occurrences_unique _ _ _ _ _ marker_once) in Hab as [-> Hb].
  split; [done|].
  rewrite <- !str_app_assoc in Hb.
  by apply str_app_inj_length in Hb as [_ ->].
Qed.

(** X13. With the expert table of the fused layout, a checkpoint name
    [pre experts.E.w suf] of an expert [E] of the model, for [w] one of
    gate_proj, up_proj and down_proj, in which [experts.] occurs once and
    no stacked weight name occurs, is looked up under [pre w1 suf] for
    gate_proj and up_proj and under [pre w2 suf] for down_proj: no entry
    of another expert or of another weight takes it. If this destination
    is in [params_dict] it is loaded with its [weight_loader], with [E] as
    expert id and shard 0 for gate_proj, 1 for up_proj and none for
    down_proj, and without [weight_loader] the body raises
    [AttributeError]; if it is not in [params_dict] and is not a bias,
    the body raises [KeyError]: the skip of the experts that are not on
    the rank is not applied to the names that the table rewrites. *)
Theorem expert_name_routes (loaded_weight : W) :
  E < n →
  PyStr.contains "rotary_emb.inv_freq" name = false →
  no_stacked_match name = true →
  let dest := pre +:+ (if bool_decide (wn ∈ ["gate_proj"; "up_proj"])
                       then "w1" else "w2") +:+ suf in
  (∀ param,
     params_dict !! dest = Some param →
     load_entry params_dict (expert_table n) name loaded_weight
     = if has_weight_loader param
       then Loaded {| call_param := dest;
                      call_loader := ParamWeightLoader;
                      call_weight := loaded_weight;
                      call_shard := ShardIndex <$> sh;
                      call_expert := Some E |}
       else Failed (AttributeError "weight_loader"))
  ∧ (params_dict !! dest = None → is_bias dest = false →
     load_entry params_dict (expert_table n) name loaded_weight
     = Failed (KeyError dest)).
Proof.
  intros HE Hrot Hst dest.
  unfold load_entry. rewrite Hrot.
  destruct (stacked_loop_no_match params_dict loaded_weight name
              stacked_params_mapping Hst) as [-> _].
  pose proof (expert_table_mem n E (wn, sh) HE weight_name_ok) as Hmem.
  apply list_elem_of_split_l in Hmem as (l1 & l2 & Htab & Hnot).
  rewrite Htab, expert_loop_skip.
  2: { intros e' He'.
       destruct (PyStr.contains e'.1.1.2 name) eqn:Hc; [|done].
       exfalso. apply Hnot.
       rewrite <- (expert_pattern_occurs e'); [done| |done].
       rewrite Htab. apply elem_of_app. by left. }
  unfold expert_entry. cbn [expert_loop].
  assert (Hname : name = pre +:+ pattern +:+ suf)
    by (by rewrite !str_app_assoc).
  rewrite Hname.
  assert (Hc : PyStr.contains pattern (pre +:+ pattern +:+ suf) = true).
  { apply contains_spec. by eexists _, _. }
  rewrite Hc. cbn [negb].
  rewrite replace_unique;
    [|apply (expert_pattern_ends_outside E wn sh weight_name_ok)
     |apply pattern_once].
  fold dest. split.
  - intros param Hdest.
    rewrite (present_not_missing _ _ _ Hdest), !andb_false_r, Hdest.
    by destruct (has_weight_loader param).
  - intros Hdest Hbias. by rewrite Hbias, Hdest.
Qed.

End ExpertRoutes.

Lemma expert_name_routes_witness :
  Loader.load_entry params_fused (Loader.expert_table 60)
    "model.layers.0.mlp.experts.11.up_proj.weight" 7
  = Loader.Loaded
      {| Loader.call_param := "model.layers.0.mlp.w1.weight";
         Loader.call_loader := Loader.ParamWeightLoader;
         Loader.call_weight := 7;
         Loader.call_shard := Some (Loader.ShardIndex 1);
         Loader.call_expert := Some 11 |}
  ∧ Loader.load_entry params_rank (Loader.expert_table 60)
      "model.layers.0.mlp.experts.11.up_proj.weight" 7
    = Loader.Failed (KeyError "model.layers.0.mlp.w1.weight").
Proof.
  assert (Hwn : ("up_proj", Some 1) ∈ Loader.expert_weight_names)
    by (apply list_elem_of_In; simpl; tauto).
  split.
  - refine (proj1 (expert_name_routes params_fused 60 11 "up_proj" (Some 1)
                     "model.layers.0.mlp." ".weight" Hwn eq_refl 7 _ eq_refl
                     eq_refl)
              {| Loader.has_weight_loader := true |} _);
      [lia|vm_compute; reflexivity].
  - refine (proj2 (expert_name_routes params_rank 60 11 "up_proj" (Some 1)
                     "model.layers.0.mlp." ".weight" Hwn eq_refl 7 _ eq_refl
                     eq_refl) _ _);
      [lia|reflexivity|reflexivity].
Defined.

(** ** The head sizes of the attention *)

Section AttentionInit.
Import Py Attention.

Lemma mod_0_mul_div (a b : nat) : 0 < b → a `mod` b = 0 → a / b * b = a.
Proof. intros Hb Hm. pose proof (Nat.div_mod_eq a b). lia. Qed.

(** X14. [Qwen2MoeAttention.__init__] computes its sizes without raising
    exactly when the world size is positive and divides the number of
    heads, the number of KV heads is a multiple of the world size or a
    positive divisor of it, and the number of heads is positive and at
    most the hidden size. Then every rank has the same number of heads,
    which add up to the total; the KV heads are partitioned when there
    are at least as many as ranks and replicated, one per rank,
    otherwise; the head dimension is positive, and the query width of all
    the ranks together is at most the hidden size. *)
Theorem attention_init_sizes (tp_size hidden total kv : nat) :
  ((∃ a, init tp_size hidden total kv = Done a)
   ↔ 0 < tp_size ∧ total `mod` tp_size = 0
     ∧ (if tp_size <=? kv then kv `mod` tp_size = 0
        else 0 < kv ∧ tp_size `mod` kv = 0)
     ∧ 0 < total ≤ hidden)
  ∧ (∀ a, init tp_size hidden total kv = Done a →
       hidden_size a = hidden ∧ total_num_heads a = total
       ∧ total_num_kv_heads a = kv
       ∧ num_heads a * tp_size = total
       ∧ (tp_size ≤ kv → num_kv_heads a * tp_size = kv)
       ∧ (kv < tp_size → num_kv_heads a = 1)
       ∧ 1 ≤ num_kv_heads a
       ∧ head_dim a = hidden / total ∧ 0 < head_dim a
       ∧ q_size a = num_heads a * head_dim a
       ∧ kv_size a = num_kv_heads a * head_dim a
       ∧ tp_size * q_size a ≤ hidden).
Proof.
  unfold init, pymod, floordiv, py_assert, inv_sqrt.
  destruct (Nat.eqb_spec tp_size 0) as [->|Htp];
    [split; [split; [intros [a [=]]|lia]|intros a [=]]|].
  cbn [mbind res_bind].
  destruct (Nat.eqb_spec (total `mod` tp_size) 0) as [Hm|Hm];
    [|split; [split; [intros [a [=]]|lia]|intros a [=]]].
  cbn [mbind res_bind].
  destruct (Nat.leb_spec tp_size kv) as [Hle|Hlt].
  - destruct (Nat.eqb_spec tp_size 0) as [|_]; [done|]. cbn [mbind res_bind].
    destruct (Nat.eqb_spec (kv `mod` tp_size) 0) as [Hk|Hk];
      [|split; [split; [intros [a [=]]|lia]|intros a [=]]].
    cbn [mbind res_bind].
    destruct (Nat.eqb_spec total 0) as [->|Ht];
      [split; [split; [intros [a [=]]|lia]|intros a [=]]|].
    cbn [mbind res_bind].
    destruct (Nat.eqb_spec (hidden / total) 0) as [Hd|Hd].
    { split; [split; [intros [a [=]]|]|intros a [=]].
      intros (_ & _ & _ & _ & Hh).
      apply Nat.div_small_iff in Hd; lia. }
    cbn [mbind res_bind].
    assert (Hh : total ≤ hidden).
    { destruct (Nat.le_gt_cases total hidden) as [|Hgt]; [done|].
      apply Nat.div_small in Hgt. lia. }
    pose proof (mod_0_mul_div total tp_size ltac:(lia) Hm) as Hheads.
    pose proof (mod_0_mul_div kv tp_size ltac:(lia) Hk) as Hkvs.
    pose proof (Nat.Div0.mul_div_le hidden total) as Hmul.
    assert (1 ≤ kv / tp_size) by nia.
    split; [split; [intros _; lia|intros _; by eexists]|].
    intros a Ha. injection Ha as <-. cbn.
    rewrite Nat.max_r by done.
    repeat split; first [done|lia|nia].
  - destruct (Nat.eqb_spec kv 0) as [->|Hk0];
      [split; [split; [intros [a [=]]|lia]|intros a [=]]|].
    cbn [mbind res_bind].
    destruct (Nat.eqb_spec (tp_size `mod` kv) 0) as [Hk|Hk];
      [|split; [split; [intros [a [=]]|lia]|intros a [=]]].
    cbn [mbind res_bind].
    destruct (Nat.eqb_spec total 0) as [->|Ht];
      [split; [split; [intros [a [=]]|lia]|intros a [=]]|].
    cbn [mbind res_bind].
    destruct (Nat.eqb_spec (hidden / total) 0) as [Hd|Hd].
    { split; [split; [intros [a [=]]|]|intros a [=]].
      intros (_ & _ & _ & _ & Hh).
      apply Nat.div_small_iff in Hd; lia. }
    cbn [mbind res_bind].
    assert (Hh : total ≤ hidden).
    { destruct (Nat.le_gt_cases total hidden) as [|Hgt]; [done|].
      apply Nat.div_small in Hgt. lia. }
    pose proof (mod_0_mul_div total tp_size ltac:(lia) Hm) as Hheads.
    pose proof (Nat.Div0.mul_div_le hidden total) as Hmul.
    assert (Hz : kv / tp_size = 0) by (apply Nat.div_small; lia).
    split; [split; [intros _; lia|intros _; by eexists]|].
    intros a Ha. injection Ha as <-. cbn. rewrite Hz. cbn.
    repeat split; first [done|lia|nia].
Qed.

End AttentionInit.

(** ** The split of the QKV projection *)

Section AttentionForward.
Import Tensor Attention.
Context {T Pos KV Meta : Type}.
Variables qkv_proj o_proj : Mat T → result (Mat T).
Variable rotary_emb : Pos → Mat T → Mat T → result (Mat T * Mat T).
Variable attn : Mat T → Mat T → Mat T → KV → Meta → result (Mat T).

Lemma take3_app (a b c : nat) (r : list T) :
  length r = a + b + c →
  take a r ++ take b (drop a r) ++ take c (drop (a + b) r) = r.
Proof.
  intros Hlen. rewrite <- (take_drop a r) at 4. f_equal.
  rewrite <- (take_drop b (drop a r)) at 2. f_equal.
  rewrite drop_drop. apply take_ge. rewrite length_drop. lia.
Qed.

Lemma wf_map_take (c : nat) (f : list T → list T) (m : Mat T) :
  (∀ r, length r = ncols m → length (f r) = c) →
  wf m → wf (mkMat c (map f (rows m))).
Proof.
  intros Hf Hwf. unfold wf in *. simpl. rewrite Forall_map.
  eapply Forall_impl; [exact Hwf|]. intros r Hr. simpl. by apply Hf.
Qed.

Lemma split3_shape (a b c : nat) (m : Mat T) :
  wf m → ncols m = a + b + c →
  ∃ q k v,
    split3 a b c m = Ok (q, k, v)
    ∧ has_shape q (nrows m) a ∧ has_shape k (nrows m) b
    ∧ has_shape v (nrows m) c
    ∧ ∀ t, row q t ++ row k t ++ row v t = row m t.
Proof.
  intros Hwf Hc. unfold split3. rewrite Hc, Nat.eqb_refl.
  eexists _, _, _. split; [reflexivity|].
  repeat split; try (unfold nrows; simpl; by rewrite length_map).
  - apply wf_map_take; [|done]. intros r Hr. rewrite length_take. lia.
  - apply wf_map_take; [|done]. intros r Hr.
    rewrite length_take, length_drop. lia.
  - apply wf_map_take; [|done]. intros r Hr.
    rewrite length_take, length_drop. lia.
  - intros t. unfold row. simpl. rewrite !list_lookup_fmap.
    destruct (rows m !! t) as [r|] eqn:Hr; simpl; [|done].
    apply take3_app. rewrite <- Hc.
    unfold wf in Hwf. rewrite Forall_forall in Hwf. apply Hwf.
    by apply list_elem_of_lookup_2 in Hr.
Qed.

(** X15. In [Qwen2MoeAttention.forward], the output of the QKV projection
    is split along its last dimension into a query of width [q_size] and
    a key and a value of width [kv_size], which side by side are the
    projection's output again; the rotary embedding gets the query and
    the key, and the attention the value as the projection gave it. A
    projection of another width than [q_size + 2 * kv_size] makes the
    forward raise before the rotary embedding is called. *)
Theorem attention_forward_split (a : Qwen2MoeAttention) (positions : Pos)
    (hidden_states : Mat T) (kv_cache : KV) (attn_metadata : Meta)
    (qkv : Mat T) :
  qkv_proj hidden_states = Ok qkv →
  (ncols qkv ≠ q_size a + kv_size a + kv_size a →
   forward qkv_proj o_proj rotary_emb attn a positions hidden_states
     kv_cache attn_metadata
   = Raise (RuntimeError "split_with_sizes expects split_sizes to sum exactly to the size of the dimension"))
  ∧ (wf qkv → ncols qkv = q_size a + kv_size a + kv_size a →
     ∃ q k v,
       has_shape q (nrows qkv) (q_size a)
       ∧ has_shape k (nrows qkv) (kv_size a)
       ∧ has_shape v (nrows qkv) (kv_size a)
       ∧ (∀ t, row q t ++ row k t ++ row v t = row qkv t)
       ∧ forward qkv_proj o_proj rotary_emb attn a positions hidden_states
           kv_cache attn_metadata
         = (let* '(q', k') := rotary_emb positions q k in
            let* attn_output := attn q' k' v kv_cache attn_metadata in
            o_proj attn_output)).
Proof.
  intros Hqkv. unfold forward. rewrite Hqkv. cbn [bind]. split.
  - intros Hne. unfold split3.
    destruct (Nat.eqb_spec (q_size a + kv_size a + kv_size a) (ncols qkv));
      [congruence|done].
  - intros Hwf Hc.
    destruct (split3_shape (q_size a) (kv_size a) (kv_size a) qkv Hwf Hc)
      as (q & k & v & -> & Hq & Hk & Hv & Hrows).
    exists q, k, v. done.
Qed.

End AttentionForward.

Lemma attention_forward_split_witness :
  Attention.forward (fun m => Ok m) (fun m => Ok m)
    (fun (_ : unit) q k => Ok (q, k)) (fun q k v (_ _ : unit) => Ok v)
    attention_2_1 tt qkv_2_1 tt tt
  = Ok (Tensor.mkMat 2 [[7; 8]]%Z)
  ∧ (Tensor.ncols qkv_2_1
     ≠ Attention.q_size attention_2_1 + Attention.kv_size attention_2_1
       + Attention.kv_size attention_2_1 →
     Attention.forward (fun m => Ok m) (fun m => Ok m)
       (fun (_ : unit) q k => Ok (q, k)) (fun q k v (_ _ : unit) => Ok v)
       attention_2_1 tt qkv_2_1 tt tt
     = Raise (RuntimeError "split_with_sizes expects split_sizes to sum exactly to the size of the dimension"))
  ∧ (Tensor.wf qkv_2_1 →
     Tensor.ncols qkv_2_1
     = Attention.q_size attention_2_1 + Attention.kv_size attention_2_1
       + Attention.kv_size attention_2_1 →
     ∃ q k v,
       has_shape q (Tensor.nrows qkv_2_1) (Attention.q_size attention_2_1)
       ∧ has_shape k (Tensor.nrows qkv_2_1) (Attention.kv_size attention_2_1)
       ∧ has_shape v (Tensor.nrows qkv_2_1) (Attention.kv_size attention_2_1)
       ∧ (∀ t, row q t ++ row k t ++ row v t = row qkv_2_1 t)
       ∧ Attention.forward (fun m => Ok m) (fun m => Ok m)
           (fun (_ : unit) q k => Ok (q, k)) (fun q k v (_ _ : unit) => Ok v)
           attention_2_1 tt qkv_2_1 tt tt
         = (let* '(q', k') := Ok (q, k) in
            let* attn_output := Ok v in
            Ok attn_output)).
Proof.
  split; [reflexivity|].
  apply (attention_forward_split (fun m => Ok m) (fun m => Ok m)
           (fun (_ : unit) q k => Ok (q, k)) (fun q k v (_ _ : unit) => Ok v)
           attention_2_1 tt qkv_2_1 tt tt qkv_2_1).
  reflexivity.
Defined.

(** ** The decoder layers of the model *)

Section DecoderInit.
Import Py Decoder.

Lemma div_succ (L s : nat) :
  0 < s → S L / s = L / s + (if (L + 1) `mod` s =? 0 then 1 else 0).
Proof.
  intros Hs.
  pose proof (Nat.div_mod_eq L s). pose proof (Nat.mod_upper_bound L s).
  pose proof (Nat.div_mod_eq (S L) s). pose proof (Nat.mod_upper_bound (S L) s).
  replace (L + 1) with (S L) by lia.
  destruct (Nat.eqb_spec (S L `mod` s) 0); nia.
Qed.

Lemma count_multiples (s L : nat) :
  0 < s →
  length (List.filter (fun i => (i + 1) `mod` s =? 0) (seq 0 L)) = L / s.
Proof.
  intros Hs. induction L as [|L IH]; [by rewrite Nat.Div0.div_0_l|].
  rewrite seq_S, List.filter_app, length_app, IH, div_succ by done.
  simpl. by destruct (_ =? 0).
Qed.

Lemma filter_length_Forall2 {A B} (f : A → bool) (g : B → bool)
    (l : list A) (k : list B) :
  Forall2 (fun a b => g b = f a) l k →
  length (List.filter g k) = length (List.filter f l).
Proof.
  induction 1 as [|a b l k Hab _ IH]; [done|].
  simpl. rewrite Hab. destruct (f a); simpl; by rewrite IH.
Qed.

Lemma build_layers_done (mk : nat → res Qwen2MoeDecoderLayer) (idxs : list nat) :
  ∀ layers, build_layers mk idxs = Done layers →
            Forall2 (fun i layer => mk i = Done layer) idxs layers.
Proof.
  induction idxs as [|i idxs IH]; intros layers; simpl.
  { intros [= <-]. constructor. }
  destruct (mk i) as [layer|e] eqn:Hi; [|discriminate]. cbn [mbind res_bind].
  destruct (build_layers mk idxs) as [rest|e]; [|discriminate].
  cbn [mbind res_bind]. intros [= <-]. constructor; [done|by apply IH].
Qed.

Lemma build_layers_throw (mk : nat → res Qwen2MoeDecoderLayer) (idxs : list nat) :
  ∀ e, build_layers mk idxs = Throw e →
       ∃ l1 i l2, idxs = l1 ++ i :: l2 ∧ mk i = Throw e
                  ∧ Forall (fun j => ∃ layer, mk j = Done layer) l1.
Proof.
  induction idxs as [|i idxs IH]; intros e; simpl; [discriminate|].
  destruct (mk i) as [layer|e'] eqn:Hi; cbn [mbind res_bind].
  - destruct (build_layers mk idxs) as [rest|e'']; [discriminate|].
    cbn [mbind res_bind]. intros [= <-].
    destruct (IH e'' eq_refl) as (l1 & j & l2 & -> & Hj & Hl1).
    exists (i :: l1), j, l2. split; [done|]. split; [done|].
    constructor; [by eexists|done].
  - intros [= <-]. exists [], i, idxs. by repeat split.
Qed.

Lemma DecoderLayer_init_done (rank tp_size : nat) (config : Config)
    (layer_idx : nat) (lm : option LinearMethod) (layer : Qwen2MoeDecoderLayer) :
  DecoderLayer_init rank tp_size config layer_idx lm = Done layer →
  Attention.init tp_size (hidden_size config) (num_attention_heads config)
    (num_key_value_heads config) = Done (self_attn layer)
  ∧ match mlp layer with
    | SparseMoeBlock block =>
        ∃ n, num_experts config = Some n
             ∧ 0 < decoder_sparse_step config
             ∧ (layer_idx + 1) `mod` decoder_sparse_step config = 0
             ∧ MoeInit.init rank tp_size (moe_config config n) lm = Ok block
    | DenseMLP =>
        (num_experts config = None
         ∨ (0 < decoder_sparse_step config
            ∧ (layer_idx + 1) `mod` decoder_sparse_step config ≠ 0))
        ∧ hidden_act config = "silu"
    end.
Proof.
  unfold DecoderLayer_init.
  destruct (Attention.init _ _ _ _) as [attn|e]; [|discriminate].
  cbn [mbind res_bind].
  assert (Hdense : ∀ (P : Prop), P →
    (_ ← lift (MoeInit.Qwen2MoeMLP_init (hidden_act config));
     mlp ← Done DenseMLP;
     Done {| self_attn := attn; mlp := mlp |}) = Done layer →
    Done attn = Done (self_attn layer)
    ∧ match mlp layer with
      | SparseMoeBlock block =>
          ∃ n, num_experts config = Some n
               ∧ 0 < decoder_sparse_step config
               ∧ (layer_idx + 1) `mod` decoder_sparse_step config = 0
               ∧ MoeInit.init rank tp_size (moe_config config n) lm = Ok block
      | DenseMLP => P ∧ hidden_act config = "silu"
      end).
  { intros P HP. unfold MoeInit.Qwen2MoeMLP_init.
    destruct (String.eqb_spec (hidden_act config) "silu") as [Hact|];
      [|discriminate].
    cbn. intros [= <-]. cbn. done. }
  destruct (num_experts config) as [n|] eqn:Hn.
  - unfold pymod.
    destruct (Nat.eqb_spec (decoder_sparse_step config) 0) as [|Hstep];
      [discriminate|].
    cbn [mbind res_bind].
    destruct (Nat.eqb_spec ((layer_idx + 1) `mod` decoder_sparse_step config) 0)
      as [Hm|Hm].
    + destruct (MoeInit.init rank tp_size (moe_config config n) lm)
        as [block|e] eqn:Hb; [|discriminate].
      cbn. intros [= <-]. cbn. split; [done|]. exists n.
      repeat split; first [done|lia].
    + cbn [mbind res_bind]. intros Hl.
      apply Hdense; [right; split; [lia|done]|].
      by destruct (lift _).
  - cbn [mbind res_bind]. intros Hl.
    apply Hdense; [by left|]. by destruct (lift _).
Qed.

(** X16. When [Qwen2MoeModel.__init__] builds its layers, there is one
    layer per index below [num_hidden_layers], each built by
    [Qwen2MoeDecoderLayer.__init__] for its index; layer [idx] holds a
    mixture-of-experts block exactly when the configuration has a number
    of experts and [decoder_sparse_step] divides [idx + 1], so that the
    model has [num_hidden_layers // decoder_sparse_step] such layers, and
    none without a number of experts. When it raises, it raises the
    exception of the first layer that cannot be built. *)
Theorem model_init_layers (rank tp_size : nat) (config : Config)
    (lm : option LinearMethod) :
  (∀ layers, Model_init rank tp_size config lm = Done layers →
     length layers = num_hidden_layers config
     ∧ (∀ idx layer, layers !! idx = Some layer →
          DecoderLayer_init rank tp_size config idx lm = Done layer
          ∧ (is_sparse layer = true
             ↔ is_Some (num_experts config)
               ∧ (idx + 1) `mod` decoder_sparse_step config = 0))
     ∧ count_sparse layers
       = match num_experts config with
         | Some _ => num_hidden_layers config / decoder_sparse_step config
         | None => 0
         end)
  ∧ (∀ e, Model_init rank tp_size config lm = Throw e →
       ∃ idx, idx < num_hidden_layers config
              ∧ DecoderLayer_init rank tp_size config idx lm = Throw e
              ∧ ∀ j, j < idx →
                  ∃ layer, DecoderLayer_init rank tp_size config j lm
                           = Done layer).
Proof.
  unfold Model_init. split.
  - intros layers Hb. apply build_layers_done in Hb.
    assert (Hlen : length layers = num_hidden_layers config).
    { apply Forall2_length in Hb. by rewrite length_seq in Hb. }
    assert (Hlayer : ∀ idx layer, layers !! idx = Some layer →
      DecoderLayer_init rank tp_size config idx lm = Done layer
      ∧ (is_sparse layer = true
         ↔ is_Some (num_experts config)
           ∧ (idx + 1) `mod` decoder_sparse_step config = 0)).
    { intros idx layer Hl.
      destruct (Forall2_lookup_r _ _ _ _ _ Hb Hl) as (i & Hi & Hinit).
      apply lookup_seq in Hi as [-> _]. simpl in Hinit. split; [done|].
      apply DecoderLayer_init_done in Hinit as [_ Hmlp].
      unfold is_sparse. destruct (mlp layer) as [block|].
      - destruct Hmlp as (n & Hn & _ & Hm & _). rewrite Hn. by split.
      - destruct Hmlp as [[Hn|[_ Hm]] _]; split; try done.
        + rewrite Hn. by intros [[? [=]] _].
        + by intros [_ ?]. }
    split; [done|]. split; [done|].
    unfold count_sparse.
    destruct (num_experts config) as [n|] eqn:Hn.
    + destruct (Nat.eq_dec (decoder_sparse_step config) 0) as [Hz|Hz].
      * rewrite Hz. simpl.
        destruct layers as [|layer rest]; [done|].
        destruct (Hlayer 0 layer eq_refl) as [Hinit _].
        apply DecoderLayer_init_done in Hinit as [_ Hmlp].
        destruct (mlp layer).
        -- destruct Hmlp as (? & _ & ? & _). lia.
        -- destruct Hmlp as [[?|[? _]] _]; [congruence|lia].
      * rewrite <- (count_multiples (decoder_sparse_step config)) by lia.
        apply filter_length_Forall2.
        eapply Forall2_impl; [exact Hb|]. intros i layer Hinit. simpl in Hinit.
        apply DecoderLayer_init_done in Hinit as [_ Hmlp].
        unfold is_sparse. destruct (mlp layer).
        -- destruct Hmlp as (? & _ & _ & -> & _). done.
        -- destruct Hmlp as [[?|[_ Hm]] _]; [congruence|].
           symmetry. by apply Nat.eqb_neq.
    + rewrite (filter_length_Forall2 (fun _ => false) is_sparse
                 (seq 0 (num_hidden_layers config)) layers).
      { generalize (seq 0 (num_hidden_layers config)).
        intros l. by induction l. }
      eapply Forall2_impl; [exact Hb|]. intros i layer Hinit. simpl in Hinit.
      apply DecoderLayer_init_done in Hinit as [_ Hmlp].
      unfold is_sparse. destruct (mlp layer); [|done].
      destruct Hmlp as (? & ? & _). congruence.
  - intros e Hb. apply build_layers_throw in Hb as (l1 & i & l2 & Hseq & Hi & Hl1).
    assert (Hidx : ∀ j x, (l1 ++ i :: l2) !! j = Some x → x = j ∧ j < num_hidden_layers config).
    { intros j x. rewrite <- Hseq. intros [-> ?]%lookup_seq. done. }
    destruct (Hidx (length l1) i) as [-> Hlt].
    { by rewrite list_lookup_middle. }
    exists (length l1). split; [done|]. split; [done|].
    intros j Hj. destruct (lookup_lt_is_Some_2 l1 j Hj) as [x Hx].
    destruct (Hidx j x) as [-> _]; [by rewrite lookup_app_l, Hx|].
    rewrite Forall_forall in Hl1. apply Hl1.
    by apply list_elem_of_lookup_2 in Hx.
Qed.

End DecoderInit.

Lemma model_init_layers_witness :
  ∃ layers,
    Decoder.Model_init 1 2 config_24 (Some (QuantizedLinearMethod false))
    = Py.Done layers
    ∧ length layers = 24
    ∧ (∀ idx layer, layers !! idx = Some layer →
         Decoder.DecoderLayer_init 1 2 config_24 idx
           (Some (QuantizedLinearMethod false)) = Py.Done layer
         ∧ (is_sparse layer = true
            ↔ is_Some (Decoder.num_experts config_24)
              ∧ (idx + 1) `mod` Decoder.decoder_sparse_step config_24 = 0))
    ∧ count_sparse layers = 24 / 4.
Proof.
  eexists. split; [vm_compute; reflexivity|].
  apply (proj1 (model_init_layers 1 2 config_24
                  (Some (QuantizedLinearMethod false)))).
  vm_compute. reflexivity.
Defined.

(** ** The caches that the forward pass of the model reads *)

Section ModelForward.
Import Decoder.
Context {Ids Pos H KV Meta : Type}.
Variable embed_tokens : Ids → result H.
Variable norm : H → option H → result (H * H).

Local Abbreviation Layer := (Layer (Pos := Pos) (H := H) (KV := KV) (Meta := Meta)).

Lemma layers_loop_take (positions : Pos) (attn_metadata : Meta)
    (layers : list Layer) :
  ∀ i hidden_states residual (kv_caches : list KV),
    i + length layers ≤ length kv_caches →
    layers_loop layers i positions hidden_states kv_caches attn_metadata
      residual
    = layers_loop layers i positions hidden_states
        (take (i + length layers) kv_caches) attn_metadata residual.
Proof.
  induction layers as [|layer rest IH]; intros i hs residual kv_caches Hlen;
    [done|].
  simpl in Hlen. cbn [layers_loop length]. unfold getitem.
  rewrite lookup_take_lt by lia.
  destruct (kv_caches !! i) as [kv|]; [|done]. cbn [bind].
  destruct (layer positions hs kv attn_metadata residual) as [[hs' r]|e];
    [|done].
  cbn [bind]. rewrite IH by lia.
  rewrite (IH (S i) hs' (Some r) (take (i + S (length rest)) kv_caches)).
  - rewrite take_take. f_equal. f_equal; lia.
  - rewrite length_take. lia.
Qed.

Lemma layers_loop_short (positions : Pos) (attn_metadata : Meta)
    (kv_caches : list KV) (layers : list Layer) :
  (∀ layer, layer ∈ layers →
     ∀ p h kv m r, ∃ out, layer p h kv m r = Ok out) →
  ∀ i hidden_states residual,
    i ≤ length kv_caches → length kv_caches < i + length layers →
    layers_loop layers i positions hidden_states kv_caches attn_metadata
      residual
    = Raise IndexError.
Proof.
  induction layers as [|layer rest IH]; intros Hok i hs residual Hi Hlen.
  { simpl in Hlen. lia. }
  cbn [layers_loop]. unfold getitem.
  destruct (kv_caches !! i) as [kv|] eqn:Hkv; [|done]. cbn [bind].
  destruct (Hok layer (list_elem_of_here _ _) positions hs kv attn_metadata
              residual) as [[hs' r] ->].
  cbn [bind]. apply IH.
  - intros l Hl. apply Hok. by apply list_elem_of_further.
  - apply lookup_lt_Some in Hkv. lia.
  - simpl in Hlen. lia.
Qed.

(** X17. [Qwen2MoeModel.forward] reads the caches of the layers by
    index: with at least as many caches as layers, the caches beyond the
    number of layers play no part in the result; with fewer caches than
    layers, and layers that do not raise, it raises [IndexError] once the
    embedding has returned. *)
Theorem model_forward_kv_caches (layers : list Layer) (input_ids : Ids)
    (positions : Pos) (kv_caches : list KV) (attn_metadata : Meta) :
  (length layers ≤ length kv_caches →
   Model_forward embed_tokens norm layers input_ids positions kv_caches
     attn_metadata
   = Model_forward embed_tokens norm layers input_ids positions
       (take (length layers) kv_caches) attn_metadata)
  ∧ (length kv_caches < length layers →
     (∀ layer, layer ∈ layers →
        ∀ p h kv m r, ∃ out, layer p h kv m r = Ok out) →
     ∀ hidden_states, embed_tokens input_ids = Ok hidden_states →
       Model_forward embed_tokens norm layers input_ids positions kv_caches
         attn_metadata
       = Raise IndexError).
Proof.
  unfold Model_forward. split.
  - intros Hlen. destruct (embed_tokens input_ids) as [hs|e]; [|done].
    cbn [bind]. by rewrite layers_loop_take by (simpl; lia).
  - intros Hlen Hok hs ->. cbn [bind].
    by rewrite layers_loop_short by (done || simpl; lia).
Qed.

End ModelForward.

(** ** The width of the input of the quantized linear method *)

Section ApplyWidth.
Import Tensor Quip.
Context {T Had Grid : Type}.
Variables (zero : T) (add mul : T → T → T).
Variable k : Kernels (T := T) (Had := Had) (Grid := Grid).
Variable grid_packed_abs : Grid.
Variable weights : Weights (T := T) (Had := Had).

Lemma expand_idem {A} (n : nat) (r : list A) :
  length r = 1 → expand n (expand n r) = expand n r.
Proof.
  intros Hr. destruct r as [|a [|b r]]; try discriminate.
  rewrite expand_singleton. apply expand_same. by rewrite length_replicate.
Qed.

Lemma broadcast2_width_one (f : T → T → T) (a : Mat T) (v : list T) :
  ncols a = 1 → wf a →
  broadcast2 f a (vec v)
  = broadcast2 f (mkMat (length v) (map (expand (length v)) (rows a))) (vec v).
Proof.
  intros Hc Hwf. unfold broadcast2. cbn [ncols vec].
  rewrite Hc, bcast_dim_same.
  replace (bcast_dim 1 (length v)) with (Ok (A := nat) (length v)).
  2: { unfold bcast_dim.
       destruct (Nat.eqb_spec 1 (length v)) as [<-|Hn]; [done|].
       destruct (Nat.eqb_spec (length v) 1); [lia|done]. }
  cbn [bind]. unfold nrows. cbn [rows vec]. rewrite length_map.
  rewrite bcast_dim_one. cbn [bind]. f_equal. f_equal.
  rewrite !(expand_same _ (rows a)), (expand_same _ (map _ _))
    by (done || by rewrite length_map).
  rewrite zip_with_fmap_l.
  apply (zip_with_ext_Forall2 _ _ _ _ (fun r => length r = 1) (fun _ => True)).
  - unfold wf in Hwf. by rewrite Hc in Hwf.
  - by apply Forall_true.
  - intros ra rb Hra _. by rewrite expand_idem.
Qed.

(** X18. [apply_weights] does not check the width of its input against
    the input size. An input whose last dimension is 0 makes the first
    [reshape] raise. A last dimension that is neither 1 nor the length of
    [SU], for [SU] of more than one element, makes the product with [SU]
    raise, before any kernel is called. And an input whose last dimension
    is 1 is not refused: the product with [SU] broadcasts it, so that the
    result is the one of the input with its one column repeated to the
    length of [SU]. *)
Theorem apply_weights_input_width (x : ND T) (bias : option (list T)) :
  (ncols (mat x) = 0 →
   apply_weights zero add mul k grid_packed_abs weights x bias
   = Raise (RuntimeError "cannot reshape tensor of 0 elements into shape [-1, 0]"))
  ∧ (ncols (mat x) ≠ 0 → ncols (mat x) ≠ 1 → length (SU weights) ≠ 1 →
     ncols (mat x) ≠ length (SU weights) →
     apply_weights zero add mul k grid_packed_abs weights x bias
     = Raise (RuntimeError "The size of tensor a must match the size of tensor b"))
  ∧ (ncols (mat x) = 1 → wf (mat x) → length (SU weights) ≠ 0 →
     apply_weights zero add mul k grid_packed_abs weights x bias
     = apply_weights zero add mul k grid_packed_abs weights
         (mkND (lead x)
            (mkMat (length (SU weights))
               (map (expand (length (SU weights))) (rows (mat x)))))
         bias).
Proof.
  unfold apply_weights, reshape_rows. repeat split.
  - by intros ->.
  - intros H0 H1 HL Hne.
    destruct (Nat.eqb_spec (ncols (mat x)) 0); [done|]. cbn [bind].
    unfold broadcast2, bcast_dim. cbn [ncols vec].
    destruct (Nat.eqb_spec (ncols (mat x)) (length (SU weights))); [done|].
    destruct (Nat.eqb_spec (length (SU weights)) 1); [done|].
    by destruct (Nat.eqb_spec (ncols (mat x)) 1).
  - intros H1 Hwf HL. cbn [mat ncols lead]. rewrite H1.
    destruct (Nat.eqb_spec (length (SU weights)) 0); [done|].
    cbn [Nat.eqb bind]. by rewrite (broadcast2_width_one mul (mat x)).
Qed.

End ApplyWidth.
